(** * parquet_cpp_aad: physical types, encryption frame sizing and the
      chunk-alignment kernel dispatcher

    Shallow embedding of
      - cpp/src/parquet/types.h  (EncryptionProperties, ByteArray,
        FixedLenByteArray and Int96 helpers)
      - arrow/compute/kernels/util-internal.cc  (kernel invocation helpers)
    together with the properties stated about them. *)

From Stdlib Require Import Ascii String.
From Stdlib Require Import ZArith List Lia Bool.
From Stdlib Require Import Init.Byte.
From Stdlib Require Import DecimalString DecimalN.
Import ListNotations.

Local Open Scope Z_scope.

(** ** Fixed-width integers

    C++ integers are carried as [Z]; every operation whose C++ result type is
    a fixed-width integer is followed by the wrap-around of that type. *)

Module Fixed.

Definition wrap_u32 (x : Z) : Z := x mod 2 ^ 32.
Definition wrap_u64 (x : Z) : Z := x mod 2 ^ 64.

(** Two's complement reading of a 64-bit pattern.  Signed overflow is
    undefined in C++; the model takes the wrap-around every supported target
    produces. *)
Definition wrap_s64 (x : Z) : Z := (x + 2 ^ 63) mod 2 ^ 64 - 2 ^ 63.

Definition is_uint32 (x : Z) : Prop := 0 <= x < 2 ^ 32.
Definition is_int64 (x : Z) : Prop := - 2 ^ 63 <= x < 2 ^ 63.

(** Little-endian object representation of an [n]-byte unsigned integer. *)
Fixpoint to_le (n : nat) (x : Z) : list Z :=
  match n with
  | O => []
  | S n' => x mod 256 :: to_le n' (x / 256)
  end.

Fixpoint of_le (bs : list Z) : Z :=
  match bs with
  | [] => 0
  | b :: bs' => b + 256 * of_le bs'
  end.

(** [std::memcpy(dst, src, n)] on object representations. *)
Definition memcpy (dst src : list Z) (n : nat) : list Z :=
  firstn n src ++ skipn n dst.

End Fixed.

Import Fixed.

(** ** parquet/types.h *)

Module Parquet.

(** [struct Encryption { enum type { AES_GCM_V1 = 0, AES_GCM_CTR_V1 = 1 }; }].
    The member [algorithm_] is kept as the enumeration's integer value: the
    sizing functions have a fall-through branch for a value that is neither
    enumerator (the default constructor leaves the member unset). *)
Definition Encryption_type : Type := Z.
Definition AES_GCM_V1 : Encryption_type := 0.
Definition AES_GCM_CTR_V1 : Encryption_type := 1.

(** [std::string] as its sequence of bytes. *)
Definition std_string : Type := list byte.

(** [std::string::replace(pos, len, n, c)]: the characters in
    [pos, pos + min(len, size - pos)) are replaced by [n] copies of [c];
    [std::out_of_range] ([None]) when [pos > size]. *)
Definition string_replace (s : std_string) (pos len n : nat) (c : byte)
  : option std_string :=
  if (length s <? pos)%nat then None
  else Some (firstn pos s ++ repeat c n
             ++ skipn (pos + Nat.min len (length s - pos)) s).

Record EncryptionProperties : Type := mkEncryptionProperties {
  algorithm_ : Encryption_type;
  key_ : std_string;
  aad_ : std_string
}.

(** [~EncryptionProperties() { key_.replace(0, key_.length(), key_.length(), '\0'); }]
    as a transformer of the object's state just before its members are
    released; [None] would be an exception escaping the destructor. *)
Definition destroy_EncryptionProperties (p : EncryptionProperties)
  : option EncryptionProperties :=
  match string_replace (key_ p) 0 (length (key_ p)) (length (key_ p)) x00 with
  | Some k => Some (mkEncryptionProperties (algorithm_ p) k (aad_ p))
  | None => None
  end.

(** [uint32_t CalculateCipherSize(uint32_t plain_len, bool is_metadata)].
    [plain_len + 28 + 4] is evaluated left to right in [unsigned int]. *)
Definition CalculateCipherSize (p : EncryptionProperties)
    (plain_len : Z) (is_metadata : bool) : Z :=
  if is_metadata || (algorithm_ p =? AES_GCM_V1) then
    wrap_u32 (wrap_u32 (plain_len + 28) + 4)
  else if algorithm_ p =? AES_GCM_CTR_V1 then
    wrap_u32 (wrap_u32 (plain_len + 16) + 4)
  else plain_len.

(** [uint32_t CalculatePlainSize(uint32_t cipher_len, bool is_metadata)]. *)
Definition CalculatePlainSize (p : EncryptionProperties)
    (cipher_len : Z) (is_metadata : bool) : Z :=
  if is_metadata || (algorithm_ p =? AES_GCM_V1) then
    wrap_u32 (wrap_u32 (cipher_len - 28) - 4)
  else if algorithm_ p =? AES_GCM_CTR_V1 then
    wrap_u32 (wrap_u32 (cipher_len - 16) - 4)
  else cipher_len.

(** *** Int96 *)

Definition kJulianToUnixEpochDays : Z := 2440588.
Definition kSecondsPerDay : Z := 60 * 60 * 24.
Definition kMillisecondsPerDay : Z := kSecondsPerDay * 1000.
Definition kMicrosecondsPerDay : Z := kMillisecondsPerDay * 1000.
Definition kNanosecondsPerDay : Z := kMicrosecondsPerDay * 1000.

(** [struct Int96 { uint32_t value[3]; }], 12 bytes, no padding. *)
Record Int96 : Type := mkInt96 {
  value0 : Z;
  value1 : Z;
  value2 : Z
}.

Definition Int96_wf (i : Int96) : Prop :=
  is_uint32 (value0 i) /\ is_uint32 (value1 i) /\ is_uint32 (value2 i).

(** Object representations on the little-endian hosts the format targets. *)
Definition Int96_bytes (i : Int96) : list Z :=
  to_le 4 (value0 i) ++ to_le 4 (value1 i) ++ to_le 4 (value2 i).

Definition Int96_of_bytes (bs : list Z) : Int96 :=
  mkInt96 (of_le (firstn 4 bs))
          (of_le (firstn 4 (skipn 4 bs)))
          (of_le (firstn 4 (skipn 8 bs))).

Definition int64_bytes (v : Z) : list Z := to_le 8 (wrap_u64 v).
Definition int64_of_bytes (bs : list Z) : Z := wrap_s64 (of_le bs).

(** [std::memcpy(&i96.value, &nanoseconds, sizeof(nanoseconds))] *)
Definition Int96SetNanoSeconds (i96 : Int96) (nanoseconds : Z) : Int96 :=
  Int96_of_bytes (memcpy (Int96_bytes i96) (int64_bytes nanoseconds) 8).

(** [[
    int64_t days_since_epoch = i96.value[2] - kJulianToUnixEpochDays;
    int64_t nanoseconds = 0;
    memcpy(&nanoseconds, &i96.value, sizeof(int64_t));
    return days_since_epoch * kNanosecondsPerDay + nanoseconds;
    ]] *)
Definition Int96GetNanoSeconds (i96 : Int96) : Z :=
  let days_since_epoch := wrap_s64 (value2 i96 - kJulianToUnixEpochDays) in
  let nanoseconds := int64_of_bytes (memcpy (int64_bytes 0) (Int96_bytes i96) 8) in
  wrap_s64 (wrap_s64 (days_since_epoch * kNanosecondsPerDay) + nanoseconds).

(** [inline bool operator==(const Int96& left, const Int96& right)]:
    [std::equal] over the three words. *)
Definition Int96_eq (left right : Int96) : bool :=
  (value0 left =? value0 right) && (value1 left =? value1 right)
  && (value2 left =? value2 right).

Definition Int96_ne (left right : Int96) : bool := negb (Int96_eq left right).

(** *** ByteArray *)

(** The bytes the program may read, by address; [None] outside every live
    object.  Address 0 is [NULLPTR]. *)
Definition Memory : Type := Z -> option byte.
Definition NULLPTR : Z := 0.

(** [struct ByteArray { uint32_t len; const uint8_t* ptr; }] *)
Record ByteArray : Type := mkByteArray {
  len : Z;
  ptr : Z
}.

(** [ByteArray() : len(0), ptr(NULLPTR)] *)
Definition ByteArray_default : ByteArray := mkByteArray 0 NULLPTR.

(** The [n] bytes from address [p] on; [None] when one of them is not
    readable. *)
Fixpoint read_bytes (mem : Memory) (p : Z) (n : nat) : option (list byte) :=
  match n with
  | O => Some []
  | S n' =>
      match mem p, read_bytes mem (p + 1) n' with
      | Some b, Some bs => Some (b :: bs)
      | _, _ => None
      end
  end.

(** Lexicographic comparison of two byte sequences as [unsigned char]. *)
Fixpoint compare_bytes (xs ys : list byte) : Z :=
  match xs, ys with
  | x :: xs', y :: ys' =>
      if N.eqb (Byte.to_N x) (Byte.to_N y) then compare_bytes xs' ys'
      else if N.ltb (Byte.to_N x) (Byte.to_N y) then -1 else 1
  | _, _ => 0
  end.

(** [std::memcmp(p, q, n)]; both ranges have to be readable. *)
Definition memcmp (mem : Memory) (p q : Z) (n : nat) : option Z :=
  match read_bytes mem p n, read_bytes mem q n with
  | Some xs, Some ys => Some (compare_bytes xs ys)
  | _, _ => None
  end.

(** [[
    inline bool operator==(const ByteArray& left, const ByteArray& right) {
      return left.len == right.len &&
             (left.len == 0 || std::memcmp(left.ptr, right.ptr, left.len) == 0);
    }
    ]]
    [None] when [memcmp] is reached on a range that is not readable. *)
Definition ByteArray_eq (mem : Memory) (left right : ByteArray) : option bool :=
  if len left =? len right then
    if len left =? 0 then Some true
    else match memcmp mem (ptr left) (ptr right) (Z.to_nat (len left)) with
         | Some c => Some (c =? 0)
         | None => None
         end
  else Some false.

(** [inline bool operator!=(const ByteArray& left, const ByteArray& right)] *)
Definition ByteArray_ne (mem : Memory) (left right : ByteArray) : option bool :=
  option_map negb (ByteArray_eq mem left right).

(** [std::string(reinterpret_cast<const char*>(a.ptr), a.len)] *)
Definition ByteArrayToString (mem : Memory) (a : ByteArray) : option std_string :=
  read_bytes mem (ptr a) (Z.to_nat (len a)).


(** What [operator<<] writes for an unsigned integer on a fresh
    [std::ostringstream]: its decimal digits. *)
Definition decimal (v : Z) : string :=
  NilZero.string_of_uint (N.to_uint (Z.to_N v)).

(** [std::copy(first, last, std::ostream_iterator<uint32_t>(result, " "))]:
    every value converted to [uint32_t] and written, each followed by the
    delimiter. *)
Fixpoint copy_to_stream (values : list Z) : string :=
  match values with
  | [] => EmptyString
  | v :: rest => String.append (decimal v) (String " "%char (copy_to_stream rest))
  end.

(** [static inline std::string Int96ToString(const Int96& a)] *)
Definition Int96ToString (a : Int96) : string :=
  copy_to_stream [value0 a; value1 a; value2 a].


End Parquet.

(** ** arrow/compute/kernels/util-internal.cc *)

Module Compute.

(** *** Collaborators declared outside the sources at hand *)

(** Modelled from the spec: [arrow::Status] (arrow/status.h is not among the
    sources).  A status is a code and a message; [Status::OK()] carries the
    code [OK], [Status::Invalid(msg)] the code [Invalid] (the spec's
    InvalidInput).  The other codes are those a kernel may hand back. *)
Inductive StatusCode : Type :=
  | OK | OutOfMemory | KeyError | TypeError | Invalid | IOError
  | CapacityError | UnknownError | NotImplemented | SerializationError.

Record Status : Type := mkStatus {
  code : StatusCode;
  message : string
}.

Definition Status_OK : Status := mkStatus OK "".
Definition Status_Invalid (msg : string) : Status := mkStatus Invalid msg.

Definition ok (s : Status) : bool :=
  match code s with OK => true | _ => false end.

Definition is_Invalid (s : Status) : bool :=
  match code s with Invalid => true | _ => false end.

(** Modelled from the spec: the Array abstraction (arrow/array.h is not among
    the sources): a logical length, an offset into backing storage, and
    [Slice(start, length)], a view over a contiguous sub-range that shares
    the storage.  [Array] and its [ArrayData] are identified, so
    [make_array], [MakeArray] and [data()] are the identity.  The dispatcher
    never asks [Slice] for more than the array has left from [start], so a
    [Slice] that clamps its length gives the same views. *)
Record Array : Type := mkArray {
  array_buffer : list Z;
  array_offset : Z;
  array_length : Z
}.

Definition Slice (a : Array) (start len : Z) : Array :=
  mkArray (array_buffer a) (array_offset a + start) len.

Definition MakeArray (a : Array) : Array := a.

(** Logical content of an array: [array_length] cells from [array_offset]. *)
Definition array_elements (a : Array) : list Z :=
  firstn (Z.to_nat (array_length a)) (skipn (Z.to_nat (array_offset a)) (array_buffer a)).

Definition sum_lengths (arrays : list Array) : Z :=
  fold_right (fun a acc => array_length a + acc) 0 arrays.

(** Modelled from the spec: ChunkedArray (arrow/table.h is not among the
    sources): an ordered list of chunks and a total logical length. *)
Record ChunkedArray : Type := mkChunkedArray {
  chunks : list Array;
  chunked_length : Z
}.

(** Modelled from the spec: Datum (arrow/compute/kernel.h is not among the
    sources), a tagged union.  Only the ARRAY and CHUNKED_ARRAY payloads are
    ever read by the dispatcher; [Datum()] is the NONE datum. *)
Inductive DatumKind : Type :=
  | NONE | SCALAR | ARRAY | CHUNKED_ARRAY | RECORD_BATCH | TABLE | COLLECTION.

Inductive Datum : Type :=
  | DatumNone
  | DatumScalar
  | DatumArray (a : Array)
  | DatumChunkedArray (c : ChunkedArray)
  | DatumRecordBatch
  | DatumTable
  | DatumCollection.

Definition kind (d : Datum) : DatumKind :=
  match d with
  | DatumNone => NONE
  | DatumScalar => SCALAR
  | DatumArray _ => ARRAY
  | DatumChunkedArray _ => CHUNKED_ARRAY
  | DatumRecordBatch => RECORD_BATCH
  | DatumTable => TABLE
  | DatumCollection => COLLECTION
  end.

Definition DatumKind_eqb (k1 k2 : DatumKind) : bool :=
  match k1, k2 with
  | NONE, NONE | SCALAR, SCALAR | ARRAY, ARRAY | CHUNKED_ARRAY, CHUNKED_ARRAY
  | RECORD_BATCH, RECORD_BATCH | TABLE, TABLE | COLLECTION, COLLECTION => true
  | _, _ => false
  end.

(** What a call can end in besides returning: an abort or an access with no
    defined result.  [OutOfFuel] belongs to the model of the [while] loop
    only and is shown never to occur. *)
Inductive fault : Type :=
  | OutOfBounds      (* operator[] past the end of a std::vector *)
  | CheckFailed      (* a DCHECK that is compiled in and fails *)
  | BadDatumAccess   (* Datum::array() on a datum of another kind *)
  | OutOfFuel
  | NoChunks.        (* a ChunkedArray asked for from an empty vector *)

Inductive outcome (A : Type) : Type :=
  | Done (a : A)
  | Crash (f : fault).
Arguments Done {A} a.
Arguments Crash {A} f.

(** Modelled from the spec: the constructor of ChunkedArray from an ordered
    list of arrays ([std::make_shared<ChunkedArray>(arrays)]; arrow/table.h
    is not among the sources).  A chunked array is a sequence of one or more
    arrays, so the constructor has a result on a non-empty list only; the
    total length is the sum of the chunk lengths. *)
Definition make_ChunkedArray (arrays : list Array) : outcome ChunkedArray :=
  match arrays with
  | [] => Crash NoChunks
  | _ :: _ => Done (mkChunkedArray arrays (sum_lengths arrays))
  end.

(** Modelled from the spec: [DCHECK], [DCHECK_EQ] (arrow/util/logging.h is not
    among the sources) are assertion-style internal consistency checks.  They
    are debug checks: [debug] tells whether they are compiled in.  The
    function says whether the check stops the program. *)
Definition DCHECK_fails (debug : bool) (condition : bool) : bool :=
  debug && negb condition.

Section Dispatcher.

(** The state behind [FunctionContext* ctx], which every kernel call may
    read and update. *)
Variable Ctx : Type.

(** [Status UnaryKernel::Call(ctx, const Datum& input, Datum* out)] and
    [Status BinaryKernel::Call(ctx, const Datum& left, const Datum& right,
    Datum* out)]; the datum is the value left in [*out]. *)
Definition UnaryKernel : Type := Ctx -> Datum -> Ctx * (Status * Datum).
Definition BinaryKernel : Type := Ctx -> Datum -> Datum -> Ctx * (Status * Datum).

(** What the caller observes when a [Status]-returning helper returns: the
    context, the status and the [outputs] vector. *)
Record Result : Type := mkResult {
  r_ctx : Ctx;
  r_status : Status;
  r_outputs : list Datum
}.

(** The [for] loop over the chunks of a chunked input. *)
Fixpoint unary_chunks (kernel : UnaryKernel) (ctx : Ctx)
    (rest : list Array) (outputs : list Datum) : Result :=
  match rest with
  | [] => mkResult ctx Status_OK outputs
  | chunk :: rest' =>
      let '(ctx', (st, output)) := kernel ctx (DatumArray chunk) in
      if ok st then unary_chunks kernel ctx' rest' (outputs ++ [output])
      else mkResult ctx' st outputs
  end.

Definition InvokeUnaryArrayKernel (kernel : UnaryKernel) (ctx : Ctx)
    (value : Datum) (outputs : list Datum) : Result :=
  match value with
  | DatumArray _ =>
      let '(ctx', (st, output)) := kernel ctx value in
      if ok st then mkResult ctx' Status_OK (outputs ++ [output])
      else mkResult ctx' st outputs
  | DatumChunkedArray array => unary_chunks kernel ctx (chunks array) outputs
  | _ => mkResult ctx (Status_Invalid "Input Datum was not array-like") outputs
  end.

(** The first two blocks of [InvokeBinaryArrayKernel]: the total length and
    the chunk vector of one operand, [None] when it is not array-like. *)
Definition resolve (d : Datum) : option (Z * list Array) :=
  match d with
  | DatumArray a => Some (array_length a, [MakeArray a])
  | DatumChunkedArray c => Some (chunked_length c, chunks c)
  | _ => None
  end.

(** The locals of the alignment loop. *)
Record cursor : Type := mkCursor {
  left_chunk_idx : nat;
  left_start_idx : Z;
  right_chunk_idx : nat;
  right_start_idx : Z;
  elements_compared : Z
}.

Definition cursor0 : cursor := mkCursor 0 0 0 0 0.

(** The cursor updates that close one iteration. *)
Definition advance (c : cursor) (left_array right_array : Array)
    (common_length : Z) : cursor :=
  let elements_compared' := elements_compared c + common_length in
  let '(left_chunk_idx', left_start_idx') :=
    if left_start_idx c + common_length =? array_length left_array
    then (S (left_chunk_idx c), 0)
    else (left_chunk_idx c, left_start_idx c + common_length) in
  let '(right_chunk_idx', right_start_idx') :=
    if right_start_idx c + common_length =? array_length right_array
    then (S (right_chunk_idx c), 0)
    else (right_chunk_idx c, right_start_idx c + common_length) in
  mkCursor left_chunk_idx' left_start_idx' right_chunk_idx' right_start_idx'
           elements_compared'.

Definition common_length_of (c : cursor) (left_array right_array : Array) : Z :=
  Z.min (array_length left_array - left_start_idx c)
        (array_length right_array - right_start_idx c).

Inductive iteration : Type :=
  | Continue (c : cursor) (ctx : Ctx) (outputs : list Datum)
  | Return (r : Result)
  | Fault (f : fault).

(** One pass through the body of the [while] loop. *)
Definition loop_body (kernel : BinaryKernel)
    (left_arrays right_arrays : list Array)
    (c : cursor) (ctx : Ctx) (outputs : list Datum) : iteration :=
  match nth_error left_arrays (left_chunk_idx c),
        nth_error right_arrays (right_chunk_idx c) with
  | Some left_array, Some right_array =>
      let common_length := common_length_of c left_array right_array in
      let left_op := Slice left_array (left_start_idx c) common_length in
      let right_op := Slice right_array (right_start_idx c) common_length in
      let '(ctx', (st, output)) :=
        kernel ctx (DatumArray left_op) (DatumArray right_op) in
      if ok st
      then Continue (advance c left_array right_array common_length)
                    ctx' (outputs ++ [output])
      else Return (mkResult ctx' st outputs)
  | _, _ => Fault OutOfBounds
  end.

(** [while (elements_compared < left_length) { ... } return Status::OK();] *)
Fixpoint align_loop (fuel : nat) (kernel : BinaryKernel)
    (left_arrays right_arrays : list Array) (left_length : Z)
    (c : cursor) (ctx : Ctx) (outputs : list Datum) : outcome Result :=
  match fuel with
  | O => Crash OutOfFuel
  | S fuel' =>
      if elements_compared c <? left_length then
        match loop_body kernel left_arrays right_arrays c ctx outputs with
        | Continue c' ctx' outputs' =>
            align_loop fuel' kernel left_arrays right_arrays left_length
                       c' ctx' outputs'
        | Return r => Done r
        | Fault f => Crash f
        end
      else Done (mkResult ctx Status_OK outputs)
  end.

(** Every iteration moves a chunk index forward, so the loop body runs fewer
    times than there are chunks on both sides together. *)
Definition loop_fuel (left_arrays right_arrays : list Array) : nat :=
  S (List.length left_arrays + List.length right_arrays).

(** [Status InvokeBinaryArrayKernel(ctx, kernel, left, right,
    std::vector<Datum>* outputs)] *)
Definition InvokeBinaryArrayKernel (kernel : BinaryKernel) (ctx : Ctx)
    (left right : Datum) (outputs : list Datum) : outcome Result :=
  match resolve left with
  | None =>
      Done (mkResult ctx (Status_Invalid "Left input Datum was not array-like") outputs)
  | Some (left_length, left_arrays) =>
      match resolve right with
      | None =>
          Done (mkResult ctx (Status_Invalid "Right input Datum was not array-like") outputs)
      | Some (right_length, right_arrays) =>
          if negb (right_length =? left_length) then
            Done (mkResult ctx (Status_Invalid "Right and left have different lengths") outputs)
          else
            align_loop (loop_fuel left_arrays right_arrays) kernel
                       left_arrays right_arrays left_length cursor0 ctx outputs
      end
  end.

End Dispatcher.

Arguments mkResult {Ctx} _ _ _.
Arguments r_ctx {Ctx} _.
Arguments r_status {Ctx} _.
Arguments r_outputs {Ctx} _.
Arguments Continue {Ctx} _ _ _.
Arguments Return {Ctx} _.
Arguments Fault {Ctx} _.
Arguments unary_chunks {Ctx} _ _ _ _.
Arguments InvokeUnaryArrayKernel {Ctx} _ _ _ _.
Arguments loop_body {Ctx} _ _ _ _ _ _.
Arguments align_loop {Ctx} _ _ _ _ _ _ _ _.
Arguments InvokeBinaryArrayKernel {Ctx} _ _ _ _ _.

(** [Datum WrapArraysLike(const Datum& value, const std::vector<std::shared_ptr<Array>>& arrays)] *)
Definition WrapArraysLike (debug : bool) (value : Datum) (arrays : list Array)
  : outcome Datum :=
  match value with
  | DatumArray _ =>
      match nth_error arrays 0 with
      | Some a => Done (DatumArray a)
      | None => Crash OutOfBounds
      end
  | DatumChunkedArray _ =>
      match make_ChunkedArray arrays with
      | Done c => Done (DatumChunkedArray c)
      | Crash f => Crash f
      end
  | _ => if DCHECK_fails debug false then Crash CheckFailed else Done DatumNone
  end.

(** [datum.array()]: the payload of an ARRAY datum. *)
Definition Datum_array (d : Datum) : outcome Array :=
  match d with
  | DatumArray a => Done a
  | _ => Crash BadDatumAccess
  end.

(** The range-for loop of [WrapDatumsLike] filling [arrays]. *)
Fixpoint wrap_each (debug : bool) (datums : list Datum) (arrays : list Array)
  : outcome (list Array) :=
  match datums with
  | [] => Done arrays
  | datum :: rest =>
      if DCHECK_fails debug (DatumKind_eqb ARRAY (kind datum)) then Crash CheckFailed
      else match Datum_array datum with
           | Done a => wrap_each debug rest (arrays ++ [MakeArray a])
           | Crash f => Crash f
           end
  end.

(** [Datum WrapDatumsLike(const Datum& value, const std::vector<Datum>& datums)] *)
Definition WrapDatumsLike (debug : bool) (value : Datum) (datums : list Datum)
  : outcome Datum :=
  match value with
  | DatumArray _ =>
      if DCHECK_fails debug (Nat.eqb 1 (List.length datums)) then Crash CheckFailed
      else match nth_error datums 0 with
           | Some d =>
               match Datum_array d with
               | Done a => Done (DatumArray a)
               | Crash f => Crash f
               end
           | None => Crash OutOfBounds
           end
  | DatumChunkedArray _ =>
      match wrap_each debug datums [] with
      | Done arrays =>
          match make_ChunkedArray arrays with
          | Done c => Done (DatumChunkedArray c)
          | Crash f => Crash f
          end
      | Crash f => Crash f
      end
  | _ => if DCHECK_fails debug false then Crash CheckFailed else Done DatumNone
  end.

(** What the caller of the datum-returning form observes: context, status
    and the datum behind [output]. *)
Record DatumResult (Ctx : Type) : Type := mkDatumResult {
  d_ctx : Ctx;
  d_status : Status;
  d_output : Datum
}.
Arguments mkDatumResult {Ctx} _ _ _.
Arguments d_ctx {Ctx} _.
Arguments d_status {Ctx} _.
Arguments d_output {Ctx} _.

(** [Status InvokeBinaryArrayKernel(ctx, kernel, left, right, Datum* output)];
    [output] is the datum behind the pointer before the call. *)
Definition InvokeBinaryArrayKernelDatum {Ctx : Type} (debug : bool)
    (kernel : BinaryKernel Ctx) (ctx : Ctx) (left right : Datum)
    (output : Datum) : outcome (DatumResult Ctx) :=
  match InvokeBinaryArrayKernel kernel ctx left right [] with
  | Crash f => Crash f
  | Done r =>
      if ok (r_status r) then
        match WrapDatumsLike debug left (r_outputs r) with
        | Done d => Done (mkDatumResult (r_ctx r) Status_OK d)
        | Crash f => Crash f
        end
      else Done (mkDatumResult (r_ctx r) (r_status r) output)
  end.

(** [[
    inline void ZeroLastByte(Buffer* buffer) {
      *(buffer->mutable_data() + (buffer->size() - 1)) = 0;
    }
    ]]
    on the bytes of the buffer; the write at index [size - 1] is out of
    bounds when the buffer is empty. *)
Definition ZeroLastByte (buffer : list Z) : outcome (list Z) :=
  let index := Z.of_nat (List.length buffer) - 1 in
  if index <? 0 then Crash OutOfBounds
  else Done (firstn (Z.to_nat index) buffer
             ++ 0 :: skipn (S (Z.to_nat index)) buffer).

End Compute.

Import Parquet.
Import Compute.

(** ** Notions used to state the properties of the dispatcher *)

(** A datum is array-like when it is a single array or a chunked array. *)
Definition array_like (d : Datum) : bool :=
  match kind d with
  | ARRAY | CHUNKED_ARRAY => true
  | _ => false
  end.

(** The total logical length the dispatcher reads off a datum. *)
Definition total_length (d : Datum) : option Z := option_map fst (resolve d).

Definition nonneg_lengths (arrays : list Array) : bool :=
  forallb (fun a => 0 <=? array_length a) arrays.

(** Array-like, no negative (chunk) length, and a chunked array's total is
    the sum of its chunk lengths.  This is what the dispatcher's loop relies
    on in an operand; it reads the chunks as they are and needs no bound on
    their number. *)
Definition well_formed (d : Datum) : bool :=
  match d with
  | DatumArray a => 0 <=? array_length a
  | DatumChunkedArray c =>
      nonneg_lengths (chunks c) && (chunked_length c =? sum_lengths (chunks c))
  | _ => false
  end.

(** Logical length of a kernel output. *)
Definition output_length (d : Datum) : Z :=
  match d with
  | DatumArray a => array_length a
  | DatumChunkedArray c => chunked_length c
  | _ => 0
  end.

Definition sum_output_lengths (ds : list Datum) : Z :=
  fold_right (fun d acc => output_length d + acc) 0 ds.

Definition sum_call_lengths (calls : list (Array * Array)) : Z :=
  fold_right (fun p acc => array_length (fst p) + acc) 0 calls.

(** Calling the kernel on a given sequence of operand pairs, in order, with
    [RETURN_NOT_OK] after each call and [push_back] of each output. *)
Fixpoint replay {Ctx : Type} (kernel : BinaryKernel Ctx)
    (calls : list (Array * Array)) (ctx : Ctx) (outputs : list Datum)
  : Result Ctx :=
  match calls with
  | [] => mkResult ctx Status_OK outputs
  | (l, r) :: rest =>
      let '(ctx', (st, output)) := kernel ctx (DatumArray l) (DatumArray r) in
      if ok st then replay kernel rest ctx' (outputs ++ [output])
      else mkResult ctx' st outputs
  end.

(** A kernel is length-preserving when every successful call on two arrays
    leaves an output as long as its left operand. *)
Definition length_preserving {Ctx : Type} (kernel : BinaryKernel Ctx) : Prop :=
  forall ctx l r,
    ok (fst (snd (kernel ctx (DatumArray l) (DatumArray r)))) = true ->
    output_length (snd (snd (kernel ctx (DatumArray l) (DatumArray r))))
    = array_length l.

(** A kernel that never fails with the code [Invalid]. *)
Definition never_Invalid {Ctx : Type} (kernel : BinaryKernel Ctx) : Prop :=
  forall ctx l r, is_Invalid (fst (snd (kernel ctx l r))) = false.

(** One operand pair of the alignment, at logical position [pos] of both
    columns: [pos] lies in (or at the start of) a chunk of each side, the
    common length is the smaller of what is left of these two chunks from
    there, and the operands are the slices of that length from there. *)
Definition aligned_call (left_arrays right_arrays : list Array) (pos : Z)
    (p : Array * Array) : Prop :=
  exists left_idx right_idx left_array right_array left_start right_start,
    nth_error left_arrays left_idx = Some left_array
    /\ nth_error right_arrays right_idx = Some right_array
    /\ pos = sum_lengths (firstn left_idx left_arrays) + left_start
    /\ pos = sum_lengths (firstn right_idx right_arrays) + right_start
    /\ 0 <= left_start /\ 0 <= right_start /\
    let common_length := Z.min (array_length left_array - left_start)
                               (array_length right_array - right_start) in
    0 <= common_length
    /\ fst p = Slice left_array left_start common_length
    /\ snd p = Slice right_array right_start common_length.

(** A sequence of aligned operand pairs, each starting where the one before
    it ended. *)
Fixpoint aligned_calls (left_arrays right_arrays : list Array) (pos : Z)
    (calls : list (Array * Array)) : Prop :=
  match calls with
  | [] => True
  | p :: rest =>
      aligned_call left_arrays right_arrays pos p
      /\ aligned_calls left_arrays right_arrays (pos + array_length (fst p)) rest
  end.

(** Whether a call returned a status with the code [Invalid]. *)
Definition returns_Invalid {Ctx : Type} (o : outcome (Result Ctx)) : bool :=
  match o with
  | Done r => is_Invalid (r_status r)
  | Crash _ => false
  end.

(** Chunks not yet left behind by the two chunk cursors. *)
Definition remaining_chunks (left_arrays right_arrays : list Array)
    (c : cursor) : nat :=
  ((List.length left_arrays - left_chunk_idx c)
   + (List.length right_arrays - right_chunk_idx c))%nat.

(** Elements not yet handed to the kernel. *)
Definition remaining_elements (left_length : Z) (c : cursor) : Z :=
  left_length - elements_compared c.

(** Strict lexicographic decrease of (remaining elements, remaining chunks),
    the first component staying non-negative. *)
Definition measure_lt (left_arrays right_arrays : list Array) (left_length : Z)
    (c' c : cursor) : Prop :=
  (0 <= remaining_elements left_length c' < remaining_elements left_length c)
  \/ (remaining_elements left_length c' = remaining_elements left_length c
      /\ 0 <= remaining_elements left_length c
      /\ (remaining_chunks left_arrays right_arrays c'
          < remaining_chunks left_arrays right_arrays c)%nat).

(** The loop states the alignment loop passes through when started from
    [ctx0] and [outputs0]. *)
Inductive reachable {Ctx : Type} (kernel : BinaryKernel Ctx)
    (left_arrays right_arrays : list Array) (left_length : Z)
    (ctx0 : Ctx) (outputs0 : list Datum)
  : cursor -> Ctx -> list Datum -> Prop :=
  | reach_start :
      reachable kernel left_arrays right_arrays left_length ctx0 outputs0
                cursor0 ctx0 outputs0
  | reach_next c ctx outputs c' ctx' outputs' :
      reachable kernel left_arrays right_arrays left_length ctx0 outputs0
                c ctx outputs ->
      elements_compared c < left_length ->
      loop_body kernel left_arrays right_arrays c ctx outputs
      = Continue c' ctx' outputs' ->
      reachable kernel left_arrays right_arrays left_length ctx0 outputs0
                c' ctx' outputs'.

(** The context a call left behind, when it returned. *)
Definition r_ctx_of {Ctx : Type} (o : outcome (Result Ctx)) : option Ctx :=
  match o with
  | Done r => Some (r_ctx r)
  | Crash _ => None
  end.

(** Loop invariant, one side: [elements_compared] is the length of the
    chunks left behind plus the position in the current chunk, and that
    position is 0 or strictly inside the current chunk. *)
Definition side_inv (arrays : list Array) (idx : nat) (start compared : Z)
  : Prop :=
  compared = sum_lengths (firstn idx arrays) + start
  /\ 0 <= start
  /\ (idx <= List.length arrays)%nat
  /\ (start = 0
      \/ exists a, nth_error arrays idx = Some a /\ start < array_length a).

Definition cursor_inv (left_arrays right_arrays : list Array) (c : cursor)
  : Prop :=
  side_inv left_arrays (left_chunk_idx c) (left_start_idx c) (elements_compared c)
  /\ side_inv right_arrays (right_chunk_idx c) (right_start_idx c)
              (elements_compared c).

(** *** Further notions: timestamps *)

(** The nanoseconds-of-day field of an Int96, read as unsigned. *)
Definition Int96_nanos_of_day (i96 : Int96) : Z :=
  value0 i96 + 2 ^ 32 * value1 i96.

(** An Int96 whose nanoseconds field is a time of day and whose day is one
    of those an [int64_t] count of nanoseconds since the epoch reaches. *)
Definition Int96_normalised (i96 : Int96) : Prop :=
  Int96_wf i96
  /\ 0 <= Int96_nanos_of_day i96 < kNanosecondsPerDay
  /\ kJulianToUnixEpochDays - 106751 <= value2 i96
     <= kJulianToUnixEpochDays + 106750.

(** A string without the delimiter character. *)
Fixpoint no_space (s : string) : bool :=
  match s with
  | EmptyString => true
  | String c rest => negb (Ascii.eqb c " "%char) && no_space rest
  end.

(** *** Further notions: columns, chunk counts, array kernels *)

(** The logical column held by a list of chunks. *)
Definition column (arrays : list Array) : list Z :=
  concat (map array_elements arrays).

Definition nonneg_offsets (arrays : list Array) : bool :=
  forallb (fun a => 0 <=? array_offset a) arrays.

(** The chunks of an array-like datum as the dispatcher sees them. *)
Definition datum_chunks (d : Datum) : list Array :=
  match resolve d with
  | Some (_, arrays) => arrays
  | None => []
  end.

(** What is left of a column from logical position [pos] on. *)
Fixpoint column_suffix (arrays : list Array) (pos : Z) : list Z :=
  match arrays with
  | [] => []
  | a :: rest =>
      if pos <? array_length a
      then skipn (Z.to_nat pos) (array_elements a) ++ column rest
      else column_suffix rest (pos - array_length a)
  end.

(** The operands of one side of an alignment: consecutive slices of the
    chunks of that side, starting at logical position [pos]. *)
Fixpoint side_calls (arrays : list Array) (pos : Z) (slices : list Array)
  : Prop :=
  match slices with
  | [] => True
  | s :: rest =>
      (exists idx a start,
          nth_error arrays idx = Some a
          /\ pos = sum_lengths (firstn idx arrays) + start
          /\ 0 <= start
          /\ 0 <= array_length s <= array_length a - start
          /\ s = Slice a start (array_length s))
      /\ side_calls arrays (pos + array_length s) rest
  end.

(** A binary kernel that, on two arrays, always succeeds with an array as
    long as its left operand. *)
Definition array_kernel {Ctx : Type} (kernel : BinaryKernel Ctx) : Prop :=
  forall ctx l r,
    exists ctx' st a,
      kernel ctx (DatumArray l) (DatumArray r) = (ctx', (st, DatumArray a))
      /\ ok st = true
      /\ array_length a = array_length l.

(** A unary kernel whose successful calls on an array leave an array. *)
Definition unary_array_kernel {Ctx : Type} (kernel : UnaryKernel Ctx) : Prop :=
  forall ctx a,
    ok (fst (snd (kernel ctx (DatumArray a)))) = true ->
    exists x, snd (snd (kernel ctx (DatumArray a))) = DatumArray x.

(** How many kernel calls [InvokeUnaryArrayKernel] has to make for a datum. *)
Definition unary_calls (value : Datum) : nat :=
  match value with
  | DatumArray _ => 1
  | DatumChunkedArray c => List.length (chunks c)
  | _ => 0
  end.

Definition is_array (d : Datum) : bool := DatumKind_eqb ARRAY (kind d).

(** An array whose cells all lie inside its backing storage. *)
Definition array_valid (a : Array) : bool :=
  (0 <=? array_offset a) && (0 <=? array_length a)
  && (array_offset a + array_length a <=? Z.of_nat (List.length (array_buffer a))).

(** Cell by cell combination of two sequences. *)
Fixpoint zip_elements (f : Z -> Z -> Z) (xs ys : list Z) : list Z :=
  match xs, ys with
  | x :: xs', y :: ys' => f x y :: zip_elements f xs' ys'
  | _, _ => []
  end.

(** A kernel that computes [f] cell by cell: on two arrays it succeeds with
    an array as long as its left operand that holds [f] of the cells. *)
Definition elementwise {Ctx : Type} (f : Z -> Z -> Z)
    (kernel : BinaryKernel Ctx) : Prop :=
  forall ctx l r,
    exists ctx' st a,
      kernel ctx (DatumArray l) (DatumArray r) = (ctx', (st, DatumArray a))
      /\ ok st = true
      /\ array_length a = array_length l
      /\ array_elements a = zip_elements f (array_elements l) (array_elements r).

(** *** Kernels and data used in the examples *)

(** Element-wise addition of two arrays. *)
Fixpoint add_elements (xs ys : list Z) : list Z :=
  match xs, ys with
  | x :: xs', y :: ys' => (x + y) :: add_elements xs' ys'
  | _, _ => []
  end.

Definition add_kernel : BinaryKernel unit :=
  fun ctx l r =>
    match l, r with
    | DatumArray a, DatumArray b =>
        (ctx, (Status_OK,
               DatumArray (mkArray (add_elements (array_elements a) (array_elements b))
                                   0 (array_length a))))
    | _, _ => (ctx, (mkStatus TypeError "expected arrays", DatumNone))
    end.

(** A kernel that rejects every call with [Status::Invalid]. *)
Definition rejecting_kernel : BinaryKernel unit :=
  fun ctx _ _ => (ctx, (Status_Invalid "unsupported operand types", DatumNone)).

(** A kernel that logs (offset, length) of both operands in the context. *)
Definition logging_kernel : BinaryKernel (list ((Z * Z) * (Z * Z))) :=
  fun ctx l r =>
    match l, r with
    | DatumArray a, DatumArray b =>
        (ctx ++ [((array_offset a, array_length a), (array_offset b, array_length b))],
         (Status_OK, l))
    | _, _ => (ctx, (mkStatus TypeError "expected arrays", DatumNone))
    end.

(** Seven readable bytes, "abcabcd", from address 16 on. *)
Definition example_memory : Memory :=
  fun address =>
    if address <? 16 then None
    else nth_error [x61; x62; x63; x61; x62; x63; x64] (Z.to_nat (address - 16)).

Definition array_of (xs : list Z) : Array :=
  mkArray xs 0 (Z.of_nat (List.length xs)).

Definition chunked_of (xss : list (list Z)) : ChunkedArray :=
  mkChunkedArray (map array_of xss) (sum_lengths (map array_of xss)).

(** ** Properties of parquet/types.h *)

Section FixedWidth.

Lemma wrap_u32_small x : is_uint32 x -> wrap_u32 x = x.
Proof. unfold is_uint32, wrap_u32. intros H. apply Z.mod_small. lia. Qed.

Lemma wrap_u32_range x : is_uint32 (wrap_u32 x).
Proof. unfold is_uint32, wrap_u32. apply Z.mod_pos_bound. lia. Qed.

Lemma wrap_u32_twice x k1 k2 :
  wrap_u32 (wrap_u32 (x + k1) + k2) = wrap_u32 (x + k1 + k2).
Proof. unfold wrap_u32. rewrite Zplus_mod_idemp_l. reflexivity. Qed.

Lemma wrap_s64_small x : is_int64 x -> wrap_s64 x = x.
Proof.
  unfold is_int64, wrap_s64. intros H.
  rewrite Z.mod_small by lia. lia.
Qed.

Lemma wrap_s64_wrap_u64 x : wrap_s64 (wrap_u64 x) = wrap_s64 x.
Proof.
  unfold wrap_s64, wrap_u64.
  rewrite Zplus_mod_idemp_l. reflexivity.
Qed.

Lemma wrap_s64_add_l x y : wrap_s64 (wrap_s64 x + y) = wrap_s64 (x + y).
Proof.
  unfold wrap_s64. f_equal.
  replace ((x + 2 ^ 63) mod 2 ^ 64 - 2 ^ 63 + y + 2 ^ 63)
    with ((x + 2 ^ 63) mod 2 ^ 64 + y) by lia.
  rewrite Zplus_mod_idemp_l. f_equal. lia.
Qed.

Lemma length_to_le n x : List.length (to_le n x) = n.
Proof. revert x. induction n; intros; simpl; auto. Qed.

Lemma of_le_to_le n x : of_le (to_le n x) = x mod 256 ^ Z.of_nat n.
Proof.
  revert x. induction n as [|n IH]; intros x.
  - simpl. rewrite Z.mod_1_r. reflexivity.
  - cbn [to_le of_le]. rewrite IH.
    rewrite Nat2Z.inj_succ, Z.pow_succ_r by lia.
    rewrite Z.rem_mul_r by lia. reflexivity.
Qed.

Lemma of_le_app xs ys :
  of_le (xs ++ ys) = of_le xs + 256 ^ Z.of_nat (List.length xs) * of_le ys.
Proof.
  induction xs as [|b xs IH].
  - cbn [app of_le List.length]. change (Z.of_nat 0) with 0.
    rewrite Z.pow_0_r. lia.
  - cbn [app of_le List.length]. rewrite IH.
    rewrite Nat2Z.inj_succ, Z.pow_succ_r by lia. ring.
Qed.

Lemma to_le_add n m x :
  to_le (n + m) x = to_le n x ++ to_le m (x / 256 ^ Z.of_nat n).
Proof.
  revert x. induction n as [|n IH]; intros x.
  - simpl. rewrite Z.div_1_r. reflexivity.
  - cbn [Nat.add to_le app]. rewrite IH. do 2 f_equal.
    rewrite Nat2Z.inj_succ, Z.pow_succ_r by lia.
    rewrite Z.div_div by lia. reflexivity.
Qed.

Lemma firstn_exact {A} n (xs ys : list A) :
  List.length xs = n -> firstn n (xs ++ ys) = xs.
Proof.
  intros <-. rewrite firstn_app, Nat.sub_diag, firstn_all. simpl.
  apply app_nil_r.
Qed.

Lemma skipn_exact {A} n (xs ys : list A) :
  List.length xs = n -> skipn n (xs ++ ys) = ys.
Proof.
  intros <-. rewrite skipn_app, Nat.sub_diag, skipn_all. reflexivity.
Qed.

End FixedWidth.

Section EncryptionSizing.

Variable p : EncryptionProperties.

Lemma CalculateCipherSize_first_branch plain_len is_metadata :
  is_metadata = true \/ algorithm_ p = AES_GCM_V1 ->
  CalculateCipherSize p plain_len is_metadata = wrap_u32 (plain_len + 28 + 4).
Proof.
  intros H. unfold CalculateCipherSize.
  replace (is_metadata || (algorithm_ p =? AES_GCM_V1)) with true.
  - apply wrap_u32_twice.
  - symmetry. apply orb_true_iff. destruct H as [H | H]; [left | right]; auto.
    apply Z.eqb_eq; exact H.
Qed.

Lemma CalculateCipherSize_second_branch plain_len is_metadata :
  is_metadata = false -> algorithm_ p = AES_GCM_CTR_V1 ->
  CalculateCipherSize p plain_len is_metadata = wrap_u32 (plain_len + 16 + 4).
Proof.
  intros -> H. unfold CalculateCipherSize. rewrite H. cbn.
  apply wrap_u32_twice.
Qed.

Lemma CalculateCipherSize_fallthrough plain_len is_metadata :
  is_metadata = false -> algorithm_ p <> AES_GCM_V1 ->
  algorithm_ p <> AES_GCM_CTR_V1 ->
  CalculateCipherSize p plain_len is_metadata = plain_len.
Proof.
  intros -> H1 H2. unfold CalculateCipherSize.
  apply Z.eqb_neq in H1, H2. rewrite H1, H2. reflexivity.
Qed.

Lemma CalculatePlainSize_first_branch cipher_len is_metadata :
  is_metadata = true \/ algorithm_ p = AES_GCM_V1 ->
  CalculatePlainSize p cipher_len is_metadata = wrap_u32 (cipher_len - 32).
Proof.
  intros H. unfold CalculatePlainSize.
  replace (is_metadata || (algorithm_ p =? AES_GCM_V1)) with true.
  - replace (cipher_len - 32) with (cipher_len + (-28) + (-4)) by lia.
    rewrite <- wrap_u32_twice. reflexivity.
  - symmetry. apply orb_true_iff. destruct H as [H | H]; [left | right]; auto.
    apply Z.eqb_eq; exact H.
Qed.

Lemma CalculatePlainSize_second_branch cipher_len is_metadata :
  is_metadata = false -> algorithm_ p = AES_GCM_CTR_V1 ->
  CalculatePlainSize p cipher_len is_metadata = wrap_u32 (cipher_len - 20).
Proof.
  intros -> H. unfold CalculatePlainSize. rewrite H. cbn.
  replace (cipher_len - 20) with (cipher_len + (-16) + (-4)) by lia.
  rewrite <- wrap_u32_twice. reflexivity.
Qed.

Lemma wrap_u32_below k x :
  0 < k <= 2 ^ 32 -> 0 <= x < k -> wrap_u32 (x - k) = x - k + 2 ^ 32.
Proof.
  intros Hk Hx. unfold wrap_u32.
  rewrite <- (Z.mod_add (x - k) 1 (2 ^ 32)) by lia.
  apply Z.mod_small. lia.
Qed.

Lemma wrap_u32_sub_add k x :
  is_uint32 x -> wrap_u32 (wrap_u32 (x + k) - k) = x.
Proof.
  intros Hx. unfold wrap_u32.
  rewrite Zminus_mod_idemp_l.
  replace (x + k - k) with x by lia. apply Z.mod_small. exact Hx.
Qed.

End EncryptionSizing.

(** C2: when [cipher_len] is below the fixed overhead of the branch taken
    (32 for metadata or AES_GCM_V1, 20 for AES_GCM_CTR_V1 on a page),
    [CalculatePlainSize] is not guarded: it returns an ordinary [uint32_t],
    the difference wrapped modulo 2^32, which is a value of at least
    2^32 - 32. *)
Theorem CalculatePlainSize_underflow_wraps :
  forall (p : EncryptionProperties) (cipher_len : Z) (is_metadata : bool),
    (is_metadata = true \/ algorithm_ p = AES_GCM_V1 ->
     0 <= cipher_len < 32 ->
     CalculatePlainSize p cipher_len is_metadata = (cipher_len - 32) mod 2 ^ 32
     /\ CalculatePlainSize p cipher_len is_metadata = cipher_len - 32 + 2 ^ 32
     /\ is_uint32 (CalculatePlainSize p cipher_len is_metadata)
     /\ 2 ^ 32 - 32 <= CalculatePlainSize p cipher_len is_metadata)
    /\
    (is_metadata = false /\ algorithm_ p = AES_GCM_CTR_V1 ->
     0 <= cipher_len < 20 ->
     CalculatePlainSize p cipher_len is_metadata = (cipher_len - 20) mod 2 ^ 32
     /\ CalculatePlainSize p cipher_len is_metadata = cipher_len - 20 + 2 ^ 32
     /\ is_uint32 (CalculatePlainSize p cipher_len is_metadata)
     /\ 2 ^ 32 - 20 <= CalculatePlainSize p cipher_len is_metadata).
Proof.
  intros p cipher_len is_metadata. split.
  - intros Hb Hc.
    rewrite (CalculatePlainSize_first_branch p cipher_len is_metadata Hb).
    split; [reflexivity |].
    rewrite (wrap_u32_below 32) by lia.
    unfold is_uint32. lia.
  - intros [Hm Ha] Hc.
    rewrite (CalculatePlainSize_second_branch p cipher_len is_metadata Hm Ha).
    split; [reflexivity |].
    rewrite (wrap_u32_below 20) by lia.
    unfold is_uint32. lia.
Qed.

Lemma CalculatePlainSize_underflow_wraps_witness :
  CalculatePlainSize (mkEncryptionProperties AES_GCM_V1 [] []) 31 false = 4294967295
  /\ CalculatePlainSize (mkEncryptionProperties AES_GCM_CTR_V1 [] []) 0 false = 4294967276.
Proof.
  split.
  - destruct (CalculatePlainSize_underflow_wraps
                (mkEncryptionProperties AES_GCM_V1 [] []) 31 false) as [H _].
    destruct H as (_ & H & _).
    + right. reflexivity.
    + lia.
    + exact H.
  - destruct (CalculatePlainSize_underflow_wraps
                (mkEncryptionProperties AES_GCM_CTR_V1 [] []) 0 false) as [_ H].
    destruct H as (_ & H & _).
    + split; reflexivity.
    + lia.
    + exact H.
Defined.

(** C3: on every [uint32_t] plaintext length, for both algorithms (and for
    any other value of [algorithm_]) and both values of [is_metadata],
    [CalculatePlainSize] undoes [CalculateCipherSize], the arithmetic being
    that of [uint32_t]. *)
Theorem CalculatePlainSize_CalculateCipherSize :
  forall (p : EncryptionProperties) (plain_len : Z) (is_metadata : bool),
    is_uint32 plain_len ->
    CalculatePlainSize p (CalculateCipherSize p plain_len is_metadata) is_metadata
    = plain_len.
Proof.
  intros p plain_len is_metadata Hr.
  unfold CalculatePlainSize, CalculateCipherSize.
  destruct (is_metadata || (algorithm_ p =? AES_GCM_V1)).
  - rewrite wrap_u32_twice.
    change (wrap_u32 (wrap_u32 (wrap_u32 (plain_len + 28 + 4) - 28) - 4))
      with (wrap_u32 (wrap_u32 (wrap_u32 (plain_len + 28 + 4) + (-28)) + (-4))).
    rewrite wrap_u32_twice.
    replace (plain_len + 28 + 4) with (plain_len + 32) by lia.
    replace (wrap_u32 (plain_len + 32) + -28 + -4)
      with (wrap_u32 (plain_len + 32) - 32) by lia.
    apply wrap_u32_sub_add. exact Hr.
  - destruct (algorithm_ p =? AES_GCM_CTR_V1).
    + rewrite wrap_u32_twice.
      change (wrap_u32 (wrap_u32 (wrap_u32 (plain_len + 16 + 4) - 16) - 4))
        with (wrap_u32 (wrap_u32 (wrap_u32 (plain_len + 16 + 4) + (-16)) + (-4))).
      rewrite wrap_u32_twice.
      replace (plain_len + 16 + 4) with (plain_len + 20) by lia.
      replace (wrap_u32 (plain_len + 20) + -16 + -4)
        with (wrap_u32 (plain_len + 20) - 20) by lia.
      apply wrap_u32_sub_add. exact Hr.
    + reflexivity.
Qed.

Lemma CalculatePlainSize_CalculateCipherSize_witness :
  CalculatePlainSize (mkEncryptionProperties AES_GCM_CTR_V1 [] [])
    (CalculateCipherSize (mkEncryptionProperties AES_GCM_CTR_V1 [] []) 4294967290 false)
    false = 4294967290.
Proof.
  apply (CalculatePlainSize_CalculateCipherSize
           (mkEncryptionProperties AES_GCM_CTR_V1 [] []) 4294967290 false).
  unfold is_uint32. lia.
Defined.

(** C4 as worded fails at the top of the [uint32_t] range: the sum is taken
    in [uint32_t], so for [plain_len = 2^32 - 1] the result is 31, not
    [plain_len + 28 + 4]. *)
Lemma CalculateCipherSize_not_exact_sum :
  CalculateCipherSize (mkEncryptionProperties AES_GCM_V1 [] []) 4294967295 false
  <> 4294967295 + 28 + 4.
Proof. vm_compute. discriminate. Qed.

(** C4 (amended): [CalculateCipherSize] returns [plain_len + 28 + 4] reduced
    modulo 2^32 when [is_metadata] holds or the algorithm is AES_GCM_V1,
    [plain_len + 16 + 4] reduced modulo 2^32 when the algorithm is
    AES_GCM_CTR_V1 and [is_metadata] does not hold, and [plain_len] itself
    otherwise; the reduction changes nothing as long as the sum is below
    2^32. *)
Theorem CalculateCipherSize_branches :
  forall (p : EncryptionProperties) (plain_len : Z) (is_metadata : bool),
    is_uint32 plain_len ->
    (is_metadata = true \/ algorithm_ p = AES_GCM_V1 ->
     CalculateCipherSize p plain_len is_metadata = (plain_len + 28 + 4) mod 2 ^ 32
     /\ (plain_len + 28 + 4 < 2 ^ 32 ->
         CalculateCipherSize p plain_len is_metadata = plain_len + 28 + 4))
    /\
    (is_metadata = false /\ algorithm_ p = AES_GCM_CTR_V1 ->
     CalculateCipherSize p plain_len is_metadata = (plain_len + 16 + 4) mod 2 ^ 32
     /\ (plain_len + 16 + 4 < 2 ^ 32 ->
         CalculateCipherSize p plain_len is_metadata = plain_len + 16 + 4))
    /\
    (is_metadata = false /\ algorithm_ p <> AES_GCM_V1
     /\ algorithm_ p <> AES_GCM_CTR_V1 ->
     CalculateCipherSize p plain_len is_metadata = plain_len).
Proof.
  intros p plain_len is_metadata Hr. unfold is_uint32 in Hr.
  split; [| split].
  - intros Hb. rewrite (CalculateCipherSize_first_branch p plain_len is_metadata Hb).
    split; [reflexivity |]. intros Hs. apply wrap_u32_small. unfold is_uint32. lia.
  - intros [Hm Ha].
    rewrite (CalculateCipherSize_second_branch p plain_len is_metadata Hm Ha).
    split; [reflexivity |]. intros Hs. apply wrap_u32_small. unfold is_uint32. lia.
  - intros (Hm & H1 & H2). apply CalculateCipherSize_fallthrough; assumption.
Qed.

Lemma CalculateCipherSize_branches_witness :
  CalculateCipherSize (mkEncryptionProperties AES_GCM_V1 [] []) 1000 false = 1032
  /\ CalculateCipherSize (mkEncryptionProperties AES_GCM_CTR_V1 [] []) 1000 false = 1020
  /\ CalculateCipherSize (mkEncryptionProperties 7 [] []) 1000 false = 1000.
Proof.
  assert (Hr : is_uint32 1000) by (unfold is_uint32; lia).
  split; [| split].
  - destruct (CalculateCipherSize_branches
                (mkEncryptionProperties AES_GCM_V1 [] []) 1000 false Hr) as [H _].
    destruct H as [_ H]; [right; reflexivity |].
    apply H. lia.
  - destruct (CalculateCipherSize_branches
                (mkEncryptionProperties AES_GCM_CTR_V1 [] []) 1000 false Hr)
      as (_ & H & _).
    destruct H as [_ H]; [split; reflexivity |].
    apply H. lia.
  - destruct (CalculateCipherSize_branches
                (mkEncryptionProperties 7 [] []) 1000 false Hr) as (_ & _ & H).
    apply H. repeat split; discriminate.
Defined.

(** C9: the destructor returns normally and leaves in [key_] as many zero
    bytes as the key was long; nothing else of the object changes. *)
Theorem destroy_EncryptionProperties_zeroes_key :
  forall p : EncryptionProperties,
    exists p',
      destroy_EncryptionProperties p = Some p'
      /\ key_ p' = repeat x00 (List.length (key_ p))
      /\ List.length (key_ p') = List.length (key_ p)
      /\ Forall (fun b => b = x00) (key_ p')
      /\ algorithm_ p' = algorithm_ p
      /\ aad_ p' = aad_ p.
Proof.
  intros p. unfold destroy_EncryptionProperties, string_replace.
  cbn [Nat.ltb Nat.leb firstn app Nat.add Nat.sub].
  rewrite Nat.sub_0_r, Nat.min_id, skipn_all, app_nil_r.
  eexists. split; [reflexivity |]. cbn [key_ algorithm_ aad_].
  repeat split.
  - apply repeat_length.
  - apply Forall_forall. intros b Hb. apply repeat_spec in Hb. exact Hb.
Qed.

Section Int96Layout.

Lemma pow_256_4 : 256 ^ Z.of_nat 4 = 2 ^ 32.
Proof. reflexivity. Qed.

(** The twelve bytes after [Int96SetNanoSeconds]: the eight bytes of the
    argument, then the untouched bytes of [value[2]]. *)
Lemma memcpy_into_Int96 (i96 : Int96) (v : Z) :
  memcpy (Int96_bytes i96) (int64_bytes v) 8
  = to_le 4 (wrap_u64 v) ++ to_le 4 (wrap_u64 v / 2 ^ 32) ++ to_le 4 (value2 i96).
Proof.
  unfold memcpy, int64_bytes, Int96_bytes.
  rewrite firstn_all2 by (rewrite length_to_le; lia).
  rewrite (app_assoc (to_le 4 (value0 i96))).
  rewrite skipn_exact by (rewrite length_app, !length_to_le; reflexivity).
  change 8%nat with (4 + 4)%nat. rewrite to_le_add, pow_256_4.
  rewrite <- app_assoc. reflexivity.
Qed.

Lemma Int96_of_bytes_words (a b c : Z) :
  Int96_of_bytes (to_le 4 a ++ to_le 4 b ++ to_le 4 c)
  = mkInt96 (a mod 2 ^ 32) (b mod 2 ^ 32) (c mod 2 ^ 32).
Proof.
  unfold Int96_of_bytes.
  rewrite firstn_exact by apply length_to_le.
  rewrite (skipn_exact 4) by apply length_to_le.
  rewrite firstn_exact by apply length_to_le.
  rewrite app_assoc.
  rewrite (skipn_exact 8) by (rewrite length_app, !length_to_le; reflexivity).
  rewrite firstn_all2 by (rewrite length_to_le; lia).
  rewrite !of_le_to_le, pow_256_4. reflexivity.
Qed.

Lemma Int96SetNanoSeconds_words (i96 : Int96) (v : Z) :
  Int96SetNanoSeconds i96 v
  = mkInt96 (wrap_u64 v mod 2 ^ 32) ((wrap_u64 v / 2 ^ 32) mod 2 ^ 32)
            (value2 i96 mod 2 ^ 32).
Proof.
  unfold Int96SetNanoSeconds.
  rewrite memcpy_into_Int96. apply Int96_of_bytes_words.
Qed.

(** The eight bytes [Int96GetNanoSeconds] copies out of the object. *)
Lemma memcpy_from_Int96 (i96 : Int96) :
  of_le (memcpy (int64_bytes 0) (Int96_bytes i96) 8)
  = value0 i96 mod 2 ^ 32 + 2 ^ 32 * (value1 i96 mod 2 ^ 32).
Proof.
  unfold memcpy, int64_bytes, Int96_bytes.
  rewrite (app_assoc (to_le 4 (value0 i96))).
  rewrite firstn_exact by (rewrite length_app, !length_to_le; reflexivity).
  rewrite skipn_all2 by (rewrite length_to_le; lia).
  rewrite app_nil_r, of_le_app, length_to_le, !of_le_to_le, pow_256_4.
  reflexivity.
Qed.

Lemma split_u64 (u : Z) :
  0 <= u < 2 ^ 64 ->
  (u mod 2 ^ 32) mod 2 ^ 32 + 2 ^ 32 * (((u / 2 ^ 32) mod 2 ^ 32) mod 2 ^ 32) = u.
Proof.
  intros Hu. rewrite !Z.mod_mod by lia.
  assert (Hq : 0 <= u / 2 ^ 32 < 2 ^ 32).
  { split.
    - apply Z.div_pos; lia.
    - apply Z.div_lt_upper_bound; lia. }
  rewrite (Z.mod_small (u / 2 ^ 32)) by exact Hq.
  rewrite (Z.div_mod u (2 ^ 32)) at 3 by lia. lia.
Qed.

Lemma Int96_roundtrip_general (i96 : Int96) (v : Z) :
  is_uint32 (value2 i96) ->
  Int96GetNanoSeconds (Int96SetNanoSeconds i96 v)
  = wrap_s64 ((value2 i96 - kJulianToUnixEpochDays) * kNanosecondsPerDay + v).
Proof.
  intros H2. unfold Int96GetNanoSeconds, int64_of_bytes.
  rewrite memcpy_from_Int96, Int96SetNanoSeconds_words.
  cbn [value0 value1 value2].
  rewrite split_u64 by (unfold wrap_u64; apply Z.mod_pos_bound; lia).
  rewrite wrap_s64_wrap_u64.
  rewrite (Z.mod_small (value2 i96)) by exact H2.
  rewrite (wrap_s64_small (value2 i96 - kJulianToUnixEpochDays)).
  - rewrite wrap_s64_add_l.
    rewrite Z.add_comm, wrap_s64_add_l, Z.add_comm. reflexivity.
  - unfold is_int64, kJulianToUnixEpochDays. unfold is_uint32 in H2. lia.
Qed.

End Int96Layout.

(** C1 as worded fails: [Int96SetNanoSeconds] writes words 0 and 1 only, so
    when word 2 of the object holds another day than 2440588 the value read
    back is off by whole days. *)
Lemma Int96_roundtrip_needs_epoch_day :
  Int96GetNanoSeconds (Int96SetNanoSeconds (mkInt96 0 0 2440589) 0) <> 0.
Proof. vm_compute. discriminate. Qed.

(** C1 (amended): [Int96SetNanoSeconds] stores the 64-bit pattern of its
    argument in words 0 and 1 (low word first) and leaves word 2, the Julian
    day, as it was; [Int96GetNanoSeconds] of the result is
    [(value[2] - 2440588) * kNanosecondsPerDay + v] in [int64_t], which is
    [v] itself whenever word 2 holds 2440588, the Julian day of the Unix
    epoch. *)
Theorem Int96_roundtrip_at_epoch_day :
  forall (i96 : Int96) (v : Z),
    Int96_wf i96 -> is_int64 v ->
    value2 (Int96SetNanoSeconds i96 v) = value2 i96
    /\ Int96_wf (Int96SetNanoSeconds i96 v)
    /\ value0 (Int96SetNanoSeconds i96 v)
       + 2 ^ 32 * value1 (Int96SetNanoSeconds i96 v) = v mod 2 ^ 64
    /\ Int96GetNanoSeconds (Int96SetNanoSeconds i96 v)
       = wrap_s64 ((value2 i96 - kJulianToUnixEpochDays) * kNanosecondsPerDay + v)
    /\ (value2 i96 = kJulianToUnixEpochDays ->
        Int96GetNanoSeconds (Int96SetNanoSeconds i96 v) = v).
Proof.
  intros i96 v (H0 & H1 & H2) Hv.
  assert (Hu : 0 <= wrap_u64 v < 2 ^ 64)
    by (unfold wrap_u64; apply Z.mod_pos_bound; lia).
  pose proof (split_u64 _ Hu) as Hs. rewrite !Z.mod_mod in Hs by lia.
  split; [| split; [| split; [| split]]].
  - rewrite Int96SetNanoSeconds_words. cbn [value2].
    apply Z.mod_small. exact H2.
  - rewrite Int96SetNanoSeconds_words. unfold Int96_wf, is_uint32.
    cbn [value0 value1 value2].
    repeat split; try (apply Z.mod_pos_bound; lia).
  - rewrite Int96SetNanoSeconds_words. cbn [value0 value1]. exact Hs.
  - apply Int96_roundtrip_general. exact H2.
  - intros Hd. rewrite Int96_roundtrip_general by exact H2.
    rewrite Hd, Z.sub_diag, Z.mul_0_l, Z.add_0_l.
    apply wrap_s64_small. exact Hv.
Qed.

Lemma Int96_roundtrip_at_epoch_day_witness :
  Int96GetNanoSeconds
    (Int96SetNanoSeconds (mkInt96 17 4 2440588) (-1234567890123456789))
  = -1234567890123456789.
Proof.
  assert (Hw : Int96_wf (mkInt96 17 4 2440588))
    by (unfold Int96_wf, is_uint32; cbn; lia).
  assert (Hv : is_int64 (-1234567890123456789)) by (unfold is_int64; lia).
  destruct (Int96_roundtrip_at_epoch_day _ _ Hw Hv) as (_ & _ & _ & _ & H).
  apply H. reflexivity.
Defined.

(** ** Properties of the kernel dispatcher *)

Section ChunkLengths.

Lemma sum_lengths_app (xs ys : list Array) :
  sum_lengths (xs ++ ys) = sum_lengths xs + sum_lengths ys.
Proof.
  induction xs as [|a xs IH]; cbn [app sum_lengths fold_right].
  - reflexivity.
  - fold (sum_lengths (xs ++ ys)). fold (sum_lengths xs). rewrite IH. lia.
Qed.

Lemma nonneg_lengths_Forall (arrays : list Array) :
  nonneg_lengths arrays = true ->
  Forall (fun a => 0 <= array_length a) arrays.
Proof.
  unfold nonneg_lengths. intros H. apply Forall_forall. intros a Ha.
  rewrite forallb_forall in H. apply Z.leb_le. apply H. exact Ha.
Qed.

Lemma sum_lengths_nonneg (arrays : list Array) :
  Forall (fun a => 0 <= array_length a) arrays -> 0 <= sum_lengths arrays.
Proof.
  induction 1 as [|a arrays Ha _ IH]; cbn [sum_lengths fold_right].
  - lia.
  - fold (sum_lengths arrays). lia.
Qed.

Lemma sum_lengths_split (arrays : list Array) (idx : nat) :
  sum_lengths arrays
  = sum_lengths (firstn idx arrays) + sum_lengths (skipn idx arrays).
Proof. rewrite <- sum_lengths_app, firstn_skipn. reflexivity. Qed.

Lemma skipn_nth_error (arrays : list Array) (idx : nat) (a : Array) :
  nth_error arrays idx = Some a ->
  skipn idx arrays = a :: skipn (S idx) arrays.
Proof.
  revert idx. induction arrays as [|b arrays IH]; intros [|idx] H;
    try discriminate.
  - injection H as ->. reflexivity.
  - cbn [nth_error] in H. cbn [skipn]. rewrite (IH idx H). reflexivity.
Qed.

Lemma sum_lengths_firstn_S (arrays : list Array) (idx : nat) (a : Array) :
  nth_error arrays idx = Some a ->
  sum_lengths (firstn (S idx) arrays)
  = sum_lengths (firstn idx arrays) + array_length a.
Proof.
  revert idx. induction arrays as [|b arrays IH]; intros [|idx] H;
    try discriminate.
  - injection H as ->. cbn. lia.
  - cbn [nth_error] in H. specialize (IH idx H).
    change (firstn (S (S idx)) (b :: arrays)) with (b :: firstn (S idx) arrays).
    change (firstn (S idx) (b :: arrays)) with (b :: firstn idx arrays).
    cbn [sum_lengths fold_right].
    fold (sum_lengths (firstn (S idx) arrays)).
    fold (sum_lengths (firstn idx arrays)). lia.
Qed.

Lemma Forall_skipn {A} (P : A -> Prop) (xs : list A) (n : nat) :
  Forall P xs -> Forall P (skipn n xs).
Proof.
  intros H. rewrite <- (firstn_skipn n xs) in H.
  apply Forall_app in H. apply H.
Qed.

Lemma Forall_nth_error {A} (P : A -> Prop) (xs : list A) (n : nat) (x : A) :
  Forall P xs -> nth_error xs n = Some x -> P x.
Proof.
  intros H Hn. rewrite Forall_forall in H. apply H.
  eapply nth_error_In. exact Hn.
Qed.

End ChunkLengths.

Section OneSide.

Variable arrays : list Array.
Hypothesis Hnonneg : Forall (fun a => 0 <= array_length a) arrays.

Lemma side_inv_start : side_inv arrays 0 0 0.
Proof.
  unfold side_inv. cbn. repeat split; lia.
Qed.

(** The elements accounted for never exceed the total. *)
Lemma side_inv_bound idx start compared :
  side_inv arrays idx start compared -> 0 <= compared <= sum_lengths arrays.
Proof.
  intros (Hc & Hs & Hi & Hpos).
  rewrite (sum_lengths_split arrays idx).
  assert (0 <= sum_lengths (firstn idx arrays)).
  { apply sum_lengths_nonneg. rewrite <- (firstn_skipn idx arrays) in Hnonneg.
    apply Forall_app in Hnonneg. apply Hnonneg. }
  pose proof (sum_lengths_nonneg _ (Forall_skipn _ _ idx Hnonneg)) as Hrest.
  destruct Hpos as [-> | (a & Ha & Hlt)].
  - lia.
  - rewrite (skipn_nth_error _ _ _ Ha) in *.
    cbn [sum_lengths fold_right] in *.
    fold (sum_lengths (skipn (S idx) arrays)) in *.
    pose proof (sum_lengths_nonneg _ (Forall_skipn _ _ (S idx) Hnonneg)).
    lia.
Qed.

(** While elements remain, the chunk index is inside its list. *)
Lemma side_inv_lookup idx start compared :
  side_inv arrays idx start compared ->
  compared < sum_lengths arrays ->
  exists a, nth_error arrays idx = Some a
            /\ 0 <= start <= array_length a
            /\ (idx < List.length arrays)%nat.
Proof.
  intros (Hc & Hs & Hi & Hpos) Hlt.
  destruct (nth_error arrays idx) as [a|] eqn:Ha.
  - exists a. split; [reflexivity |].
    assert (Hidx : (idx < List.length arrays)%nat)
      by (apply nth_error_Some; congruence).
    split; [| exact Hidx].
    destruct Hpos as [-> | (a' & Ha' & Hlt')].
    + split; [lia |]. exact (Forall_nth_error _ _ _ _ Hnonneg Ha).
    + injection Ha' as <-. lia.
  - exfalso. apply nth_error_None in Ha.
    destruct Hpos as [-> | (a' & Ha' & _)]; [| discriminate].
    rewrite firstn_all2 in Hc by exact Ha. lia.
Qed.

(** The update of one side's cursor keeps the invariant. *)
Lemma side_inv_advance idx start compared a common :
  side_inv arrays idx start compared ->
  nth_error arrays idx = Some a ->
  0 <= common <= array_length a - start ->
  side_inv arrays
    (if start + common =? array_length a then S idx else idx)
    (if start + common =? array_length a then 0 else start + common)
    (compared + common).
Proof.
  intros (Hc & Hs & Hi & Hpos) Ha Hcommon.
  assert (Hidx : (idx < List.length arrays)%nat)
    by (apply nth_error_Some; congruence).
  destruct (start + common =? array_length a) eqn:Hend.
  - apply Z.eqb_eq in Hend. unfold side_inv.
    rewrite (sum_lengths_firstn_S _ _ _ Ha).
    repeat split; lia.
  - apply Z.eqb_neq in Hend. unfold side_inv.
    repeat split; try lia.
    right. exists a. split; [exact Ha | lia].
Qed.

End OneSide.

Section LoopProgress.

(** Facts about one iteration that hold for any chunk lists. *)

Variables left_arrays right_arrays : list Array.

Lemma advance_elements_compared c la ra common :
  elements_compared (advance c la ra common) = elements_compared c + common.
Proof.
  unfold advance.
  destruct (left_start_idx c + common =? array_length la);
    destruct (right_start_idx c + common =? array_length ra); reflexivity.
Qed.

Lemma advance_left c la ra common :
  left_chunk_idx (advance c la ra common)
  = (if left_start_idx c + common =? array_length la
     then S (left_chunk_idx c) else left_chunk_idx c)
  /\ left_start_idx (advance c la ra common)
     = (if left_start_idx c + common =? array_length la
        then 0 else left_start_idx c + common).
Proof.
  unfold advance.
  destruct (left_start_idx c + common =? array_length la);
    destruct (right_start_idx c + common =? array_length ra); split; reflexivity.
Qed.

Lemma advance_right c la ra common :
  right_chunk_idx (advance c la ra common)
  = (if right_start_idx c + common =? array_length ra
     then S (right_chunk_idx c) else right_chunk_idx c)
  /\ right_start_idx (advance c la ra common)
     = (if right_start_idx c + common =? array_length ra
        then 0 else right_start_idx c + common).
Proof.
  unfold advance.
  destruct (left_start_idx c + common =? array_length la);
    destruct (right_start_idx c + common =? array_length ra); split; reflexivity.
Qed.

(** The slice exhausts the current chunk of at least one side, whose chunk
    index therefore moves on; the other index does not move back. *)
Lemma advance_moves_a_chunk c la ra :
  let c' := advance c la ra (common_length_of c la ra) in
  (left_chunk_idx c <= left_chunk_idx c' <= S (left_chunk_idx c))%nat
  /\ (right_chunk_idx c <= right_chunk_idx c' <= S (right_chunk_idx c))%nat
  /\ (left_chunk_idx c' = S (left_chunk_idx c)
      \/ right_chunk_idx c' = S (right_chunk_idx c))
  /\ (array_length la - left_start_idx c = common_length_of c la ra ->
      left_chunk_idx c' = S (left_chunk_idx c))
  /\ (array_length ra - right_start_idx c = common_length_of c la ra ->
      right_chunk_idx c' = S (right_chunk_idx c)).
Proof.
  intros c'. subst c'.
  destruct (advance_left c la ra (common_length_of c la ra)) as [Hl _].
  destruct (advance_right c la ra (common_length_of c la ra)) as [Hr _].
  rewrite Hl, Hr. unfold common_length_of in *.
  destruct (Z.eqb_spec
              (left_start_idx c
               + Z.min (array_length la - left_start_idx c)
                       (array_length ra - right_start_idx c))
              (array_length la));
    destruct (Z.eqb_spec
                (right_start_idx c
                 + Z.min (array_length la - left_start_idx c)
                         (array_length ra - right_start_idx c))
                (array_length ra));
    repeat split; lia.
Qed.

Lemma advance_remaining_chunks c la ra :
  nth_error left_arrays (left_chunk_idx c) = Some la ->
  nth_error right_arrays (right_chunk_idx c) = Some ra ->
  (remaining_chunks left_arrays right_arrays
     (advance c la ra (common_length_of c la ra))
   < remaining_chunks left_arrays right_arrays c)%nat.
Proof.
  intros Hla Hra.
  assert (Hl : (left_chunk_idx c < List.length left_arrays)%nat)
    by (apply nth_error_Some; congruence).
  assert (Hr : (right_chunk_idx c < List.length right_arrays)%nat)
    by (apply nth_error_Some; congruence).
  pose proof (advance_moves_a_chunk c la ra) as H. cbv zeta in H.
  unfold remaining_chunks. lia.
Qed.

Lemma loop_body_Continue {Ctx : Type} (kernel : BinaryKernel Ctx)
    c ctx outputs c' ctx' outputs' :
  loop_body kernel left_arrays right_arrays c ctx outputs
  = Continue c' ctx' outputs' ->
  exists la ra,
    nth_error left_arrays (left_chunk_idx c) = Some la
    /\ nth_error right_arrays (right_chunk_idx c) = Some ra
    /\ c' = advance c la ra (common_length_of c la ra).
Proof.
  unfold loop_body. intros H.
  destruct (nth_error left_arrays (left_chunk_idx c)) as [la|]; [| discriminate].
  destruct (nth_error right_arrays (right_chunk_idx c)) as [ra|]; [| discriminate].
  destruct (kernel ctx _ _) as [ctx1 [st out]].
  destruct (ok st); [| discriminate].
  injection H as <- _ _. exists la, ra. auto.
Qed.

(** The fuel given to the loop is never used up, whatever the inputs. *)
Lemma align_loop_fuel_suffices {Ctx : Type} (kernel : BinaryKernel Ctx)
    (left_length : Z) (fuel : nat) :
  forall c ctx outputs,
    (remaining_chunks left_arrays right_arrays c < fuel)%nat ->
    align_loop fuel kernel left_arrays right_arrays left_length c ctx outputs
    <> Crash OutOfFuel.
Proof.
  induction fuel as [|fuel IH]; intros c ctx outputs Hfuel; [lia |].
  cbn [align_loop].
  destruct (elements_compared c <? left_length); [| discriminate].
  destruct (loop_body kernel left_arrays right_arrays c ctx outputs)
    as [c' ctx' outputs' | r | f] eqn:Hbody.
  - destruct (loop_body_Continue _ _ _ _ _ _ _ Hbody) as (la & ra & Hla & Hra & ->).
    apply IH. pose proof (advance_remaining_chunks c la ra Hla Hra). lia.
  - discriminate.
  - unfold loop_body in Hbody.
    destruct (nth_error left_arrays (left_chunk_idx c));
      destruct (nth_error right_arrays (right_chunk_idx c));
      try (injection Hbody as <-; discriminate).
    destruct (kernel ctx _ _) as [ctx1 [st out]].
    destruct (ok st); discriminate.
Qed.

(** The status the loop returns is [OK] or one a kernel call returned. *)
Lemma align_loop_status {Ctx : Type} (kernel : BinaryKernel Ctx)
    (left_length : Z) (fuel : nat) :
  never_Invalid kernel ->
  forall c ctx outputs r,
    align_loop fuel kernel left_arrays right_arrays left_length c ctx outputs
    = Done r ->
    is_Invalid (r_status r) = false.
Proof.
  intros Hk. induction fuel as [|fuel IH]; intros c ctx outputs r H;
    [discriminate |].
  cbn [align_loop] in H.
  destruct (elements_compared c <? left_length).
  - unfold loop_body in H.
    destruct (nth_error left_arrays (left_chunk_idx c)) as [la|]; [| discriminate].
    destruct (nth_error right_arrays (right_chunk_idx c)) as [ra|]; [| discriminate].
    match type of H with
    | context [kernel ?c0 ?l ?r0] =>
        pose proof (Hk c0 l r0) as Hst;
        destruct (kernel c0 l r0) as [ctx1 [st out]]
    end.
    cbn [fst snd] in Hst.
    destruct (ok st).
    + eapply IH. exact H.
    + injection H as <-. exact Hst.
  - injection H as <-. reflexivity.
Qed.

End LoopProgress.

Section AlignedRun.

(** The loop on two chunk lists without negative lengths and with the same
    total. *)

Variables left_arrays right_arrays : list Array.
Variable total : Z.
Hypothesis Hleft : Forall (fun a => 0 <= array_length a) left_arrays.
Hypothesis Hright : Forall (fun a => 0 <= array_length a) right_arrays.
Hypothesis Hleft_total : sum_lengths left_arrays = total.
Hypothesis Hright_total : sum_lengths right_arrays = total.

Lemma cursor_inv_start : cursor_inv left_arrays right_arrays cursor0.
Proof. split; apply side_inv_start. Qed.

Lemma cursor_inv_bound c :
  cursor_inv left_arrays right_arrays c -> 0 <= elements_compared c <= total.
Proof.
  intros [Hl _]. rewrite <- Hleft_total.
  eapply side_inv_bound; eauto.
Qed.

(** One iteration from a state satisfying the invariant. *)
Lemma cursor_step c :
  cursor_inv left_arrays right_arrays c ->
  elements_compared c < total ->
  exists la ra,
    nth_error left_arrays (left_chunk_idx c) = Some la
    /\ nth_error right_arrays (right_chunk_idx c) = Some ra
    /\ 0 <= left_start_idx c /\ 0 <= right_start_idx c
    /\ 0 <= common_length_of c la ra
    /\ cursor_inv left_arrays right_arrays
         (advance c la ra (common_length_of c la ra)).
Proof.
  intros [Hl Hr] Hlt.
  destruct (side_inv_lookup left_arrays Hleft _ _ _ Hl) as (la & Hla & Hls & _);
    [lia |].
  destruct (side_inv_lookup right_arrays Hright _ _ _ Hr) as (ra & Hra & Hrs & _);
    [lia |].
  exists la, ra.
  assert (Hc : 0 <= common_length_of c la ra
               /\ common_length_of c la ra <= array_length la - left_start_idx c
               /\ common_length_of c la ra <= array_length ra - right_start_idx c)
    by (unfold common_length_of; lia).
  split; [exact Hla |]. split; [exact Hra |].
  split; [lia |]. split; [lia |]. split; [lia |].
  unfold cursor_inv.
  destruct (advance_left c la ra (common_length_of c la ra)) as [-> ->].
  destruct (advance_right c la ra (common_length_of c la ra)) as [-> ->].
  rewrite advance_elements_compared.
  split; apply side_inv_advance; auto; lia.
Qed.

Lemma reachable_cursor_inv {Ctx : Type} (kernel : BinaryKernel Ctx)
    ctx0 outputs0 c ctx outputs :
  reachable kernel left_arrays right_arrays total ctx0 outputs0 c ctx outputs ->
  cursor_inv left_arrays right_arrays c.
Proof.
  induction 1 as [| c ctx outputs c' ctx' outputs' _ IH Hlt Hbody].
  - apply cursor_inv_start.
  - destruct (loop_body_Continue _ _ _ _ _ _ _ _ _ Hbody)
      as (la & ra & Hla & Hra & ->).
    destruct (cursor_step c IH Hlt) as (la' & ra' & Hla' & Hra' & _ & _ & _ & Hinv).
    rewrite Hla in Hla'. rewrite Hra in Hra'.
    injection Hla' as <-. injection Hra' as <-. exact Hinv.
Qed.

(** The loop returns, and what it does is to call the kernel on a fixed
    sequence of aligned slice pairs that covers what is left to compare. *)
Lemma align_loop_replay (fuel : nat) :
  forall c,
    cursor_inv left_arrays right_arrays c ->
    (remaining_chunks left_arrays right_arrays c < fuel)%nat ->
    exists calls,
      aligned_calls left_arrays right_arrays (elements_compared c) calls
      /\ sum_call_lengths calls = total - elements_compared c
      /\ forall (Ctx : Type) (kernel : BinaryKernel Ctx) ctx outputs,
           align_loop fuel kernel left_arrays right_arrays total c ctx outputs
           = Done (replay kernel calls ctx outputs).
Proof.
  induction fuel as [|fuel IH]; intros c Hinv Hfuel; [lia |].
  pose proof (cursor_inv_bound c Hinv) as Hbound.
  destruct (Z.ltb_spec (elements_compared c) total) as [Hlt | Hge].
  - destruct (cursor_step c Hinv Hlt)
      as (la & ra & Hla & Hra & Hls & Hrs & Hcommon & Hinv').
    pose proof (advance_remaining_chunks left_arrays right_arrays c la ra Hla Hra)
      as Hdecr.
    destruct (IH _ Hinv') as (calls & Hcalls & Hsum & Hrun); [lia |].
    exists ((Slice la (left_start_idx c) (common_length_of c la ra),
             Slice ra (right_start_idx c) (common_length_of c la ra)) :: calls).
    split; [| split].
    + cbn [aligned_calls fst Slice array_length].
      rewrite advance_elements_compared in Hcalls.
      split; [| exact Hcalls].
      exists (left_chunk_idx c), (right_chunk_idx c), la, ra,
        (left_start_idx c), (right_start_idx c).
      cbn [fst snd]. fold (common_length_of c la ra).
      destruct Hinv as [(Hpl & _) (Hpr & _)].
      repeat split; auto.
    + cbn [sum_call_lengths fold_right fst Slice array_length].
      fold (sum_call_lengths calls).
      rewrite Hsum, advance_elements_compared. lia.
    + intros Ctx kernel ctx outputs.
      cbn [align_loop replay].
      apply Z.ltb_lt in Hlt. rewrite Hlt.
      unfold loop_body. rewrite Hla, Hra.
      destruct (kernel ctx _ _) as [ctx1 [st out]].
      destruct (ok st); [apply Hrun | reflexivity].
  - exists []. split; [exact I | split].
    + cbn. lia.
    + intros Ctx kernel ctx outputs. cbn [align_loop replay].
      apply Z.ltb_ge in Hge. rewrite Hge. reflexivity.
Qed.

End AlignedRun.

Section Replay.

Context {Ctx : Type} (kernel : BinaryKernel Ctx).

(** What was in [outputs] stays in front; a successful run appends one
    output per call. *)
Lemma replay_outputs calls :
  forall ctx outputs,
    exists segments,
      r_outputs (replay kernel calls ctx outputs) = outputs ++ segments
      /\ (ok (r_status (replay kernel calls ctx outputs)) = true ->
          List.length segments = List.length calls).
Proof.
  induction calls as [|[l r] calls IH]; intros ctx outputs.
  - exists []. cbn. rewrite app_nil_r. auto.
  - cbn [replay].
    destruct (kernel ctx (DatumArray l) (DatumArray r)) as [ctx1 [st out]].
    destruct (ok st) eqn:Hok.
    + destruct (IH ctx1 (outputs ++ [out])) as (segments & Hout & Hlen).
      exists (out :: segments). rewrite Hout, <- app_assoc. split; [reflexivity |].
      intros H. cbn [List.length]. rewrite Hlen; auto.
    + exists []. cbn [r_outputs r_status]. rewrite app_nil_r, Hok.
      split; [reflexivity | discriminate].
Qed.

Lemma replay_length_preserving calls :
  length_preserving kernel ->
  forall ctx outputs,
    ok (r_status (replay kernel calls ctx outputs)) = true ->
    exists segments,
      r_outputs (replay kernel calls ctx outputs) = outputs ++ segments
      /\ List.length segments = List.length calls
      /\ sum_output_lengths segments = sum_call_lengths calls.
Proof.
  intros Hk. induction calls as [|[l r] calls IH]; intros ctx outputs Hok.
  - exists []. cbn. rewrite app_nil_r. auto.
  - cbn [replay] in *.
    pose proof (Hk ctx l r) as Hlen.
    destruct (kernel ctx (DatumArray l) (DatumArray r)) as [ctx1 [st out]].
    cbn [fst snd] in Hlen.
    destruct (ok st) eqn:Hst.
    + destruct (IH ctx1 (outputs ++ [out]) Hok) as (segments & Hout & Hn & Hsum).
      exists (out :: segments). rewrite Hout, <- app_assoc.
      split; [reflexivity |]. split; [cbn [List.length]; lia |].
      cbn [sum_output_lengths sum_call_lengths fold_right fst].
      fold (sum_output_lengths segments). fold (sum_call_lengths calls).
      rewrite Hsum, Hlen; auto.
    + cbn [r_status] in Hok. congruence.
Qed.

End Replay.

Lemma well_formed_resolve (d : Datum) :
  well_formed d = true ->
  exists total arrays,
    resolve d = Some (total, arrays)
    /\ Forall (fun a => 0 <= array_length a) arrays
    /\ sum_lengths arrays = total.
Proof.
  destruct d as [| | a | c | | |]; cbn [well_formed resolve]; try discriminate.
  - intros H. apply Z.leb_le in H. exists (array_length a), [MakeArray a].
    split; [reflexivity |]. split.
    + constructor; [exact H | constructor].
    + cbn. unfold MakeArray. lia.
  - intros H. apply andb_true_iff in H. destruct H as [Hn Hs].
    apply Z.eqb_eq in Hs. exists (chunked_length c), (chunks c).
    split; [reflexivity |]. split.
    + apply nonneg_lengths_Forall. exact Hn.
    + symmetry. exact Hs.
Qed.

Lemma aligned_calls_equal_lengths left_arrays right_arrays calls :
  forall pos,
    aligned_calls left_arrays right_arrays pos calls ->
    Forall (fun p => array_length (fst p) = array_length (snd p)
                     /\ 0 <= array_length (fst p)) calls.
Proof.
  induction calls as [|p calls IH]; intros pos H; constructor.
  - destruct H as [(li & ri & la & ra & ls & rs & _ & _ & _ & _ & _ & _ & H) _].
    cbv zeta in H. destruct H as (Hc & -> & ->). cbn [Slice array_length].
    split; [reflexivity | exact Hc].
  - destruct H as [_ H]. exact (IH _ H).
Qed.

Lemma InvokeBinaryArrayKernel_resolved {Ctx : Type} (kernel : BinaryKernel Ctx)
    ctx left right outputs total left_arrays right_arrays :
  resolve left = Some (total, left_arrays) ->
  resolve right = Some (total, right_arrays) ->
  InvokeBinaryArrayKernel kernel ctx left right outputs
  = align_loop (loop_fuel left_arrays right_arrays) kernel
               left_arrays right_arrays total cursor0 ctx outputs.
Proof.
  intros Hl Hr. unfold InvokeBinaryArrayKernel. rewrite Hl, Hr.
  rewrite Z.eqb_refl. reflexivity.
Qed.

Lemma equal_totals left right tl la tr ra :
  resolve left = Some (tl, la) -> resolve right = Some (tr, ra) ->
  total_length left = total_length right -> tl = tr.
Proof.
  unfold total_length. intros -> ->. cbn. congruence.
Qed.

(** C5: for well-formed array-like operands of equal total length, the
    vector form of [InvokeBinaryArrayKernel] calls the kernel on one fixed
    sequence of slice pairs, whatever the kernel: the two slices of a pair
    have the same length, the minimum of what remains of the current chunk on
    either side, each pair starts at the logical position where the one before
    ended, and the lengths add up to the common total.  With a
    length-preserving kernel a successful run appends one segment per pair,
    and the segment lengths add up to the common total. *)
Theorem InvokeBinaryArrayKernel_length_invariant :
  forall left right : Datum,
    well_formed left = true -> well_formed right = true ->
    total_length left = total_length right ->
    exists (total : Z) (left_arrays right_arrays : list Array)
           (calls : list (Array * Array)),
      resolve left = Some (total, left_arrays)
      /\ resolve right = Some (total, right_arrays)
      /\ aligned_calls left_arrays right_arrays 0 calls
      /\ Forall (fun p => array_length (fst p) = array_length (snd p)
                          /\ 0 <= array_length (fst p)) calls
      /\ sum_call_lengths calls = total
      /\ (forall (Ctx : Type) (kernel : BinaryKernel Ctx) ctx outputs,
            InvokeBinaryArrayKernel kernel ctx left right outputs
            = Done (replay kernel calls ctx outputs))
      /\ (forall (Ctx : Type) (kernel : BinaryKernel Ctx) ctx outputs r,
            length_preserving kernel ->
            InvokeBinaryArrayKernel kernel ctx left right outputs = Done r ->
            ok (r_status r) = true ->
            exists segments,
              r_outputs r = outputs ++ segments
              /\ List.length segments = List.length calls
              /\ sum_output_lengths segments = total).
Proof.
  intros left right Hwl Hwr Heq.
  destruct (well_formed_resolve left Hwl) as (tl & la & Hl & Hnl & Hsl).
  destruct (well_formed_resolve right Hwr) as (tr & ra & Hr & Hnr & Hsr).
  pose proof (equal_totals _ _ _ _ _ _ Hl Hr Heq) as <-.
  destruct (align_loop_replay la ra tl Hnl Hnr Hsl Hsr (loop_fuel la ra) cursor0)
    as (calls & Hcalls & Hsum & Hrun).
  { apply cursor_inv_start. }
  { unfold remaining_chunks, loop_fuel. cbn. lia. }
  cbn [elements_compared cursor0] in Hcalls, Hsum. rewrite Z.sub_0_r in Hsum.
  exists tl, la, ra, calls.
  split; [exact Hl |]. split; [exact Hr |]. split; [exact Hcalls |].
  split; [exact (aligned_calls_equal_lengths _ _ _ _ Hcalls) |].
  split; [exact Hsum |]. split.
  - intros Ctx kernel ctx outputs.
    rewrite (InvokeBinaryArrayKernel_resolved kernel ctx left right outputs
               tl la ra Hl Hr).
    apply Hrun.
  - intros Ctx kernel ctx outputs r Hk Hdone Hok.
    rewrite (InvokeBinaryArrayKernel_resolved kernel ctx left right outputs
               tl la ra Hl Hr), Hrun in Hdone.
    injection Hdone as <-.
    destruct (replay_length_preserving kernel calls Hk ctx outputs Hok)
      as (segments & Hout & Hn & Hs).
    exists segments. rewrite <- Hsum. auto.
Qed.

Lemma add_kernel_length_preserving : length_preserving add_kernel.
Proof. intros ctx l r _. reflexivity. Qed.

Lemma InvokeBinaryArrayKernel_length_invariant_witness :
  let left := DatumChunkedArray (chunked_of [[1; 2]; [3; 4; 5]]) in
  let right := DatumArray (array_of [10; 20; 30; 40; 50]) in
  well_formed left = true /\ well_formed right = true
  /\ total_length left = total_length right
  /\ exists r segments,
       InvokeBinaryArrayKernel add_kernel tt left right [] = Done r
       /\ r_outputs r = [] ++ segments
       /\ sum_output_lengths segments = 5.
Proof.
  intros left right.
  assert (Hl : well_formed left = true) by reflexivity.
  assert (Hr : well_formed right = true) by reflexivity.
  assert (He : total_length left = total_length right) by reflexivity.
  split; [exact Hl |]. split; [exact Hr |]. split; [exact He |].
  destruct (InvokeBinaryArrayKernel_length_invariant left right Hl Hr He)
    as (total & la & ra & calls & Hrl & _ & _ & _ & _ & Hrun & Hlen).
  injection Hrl as <- _.
  exists (replay add_kernel calls tt []).
  destruct (Hlen unit add_kernel tt [] (replay add_kernel calls tt [])
              add_kernel_length_preserving (Hrun unit add_kernel tt []))
    as (segments & Hout & _ & Hsum).
  - specialize (Hrun unit add_kernel tt []).
    assert (Hv : InvokeBinaryArrayKernel add_kernel tt left right []
                 = Done (mkResult tt Status_OK
                           [DatumArray (mkArray [11; 22] 0 2);
                            DatumArray (mkArray [33; 44; 55] 0 3)]))
      by (vm_compute; reflexivity).
    rewrite Hrun in Hv. injection Hv as ->. reflexivity.
  - exists segments. split; [apply Hrun |]. split; [exact Hout | exact Hsum].
Defined.

(** C10: for well-formed array-like operands of equal total length the call
    returns (no chunk index leaves its list, the loop does not run on), with
    any kernel.  In every loop state reached while elements remain, both
    chunk indices are inside their lists, the common length is not negative
    and every counter lies between 0 and the length it runs over (so no
    64-bit operation overflows); the state that follows has fewer chunks
    ahead of the two
    cursors, so the pair (remaining elements, remaining chunks) decreases
    lexicographically; in particular an iteration with common length 0
    moves the cursor of each side whose current chunk is used up, and there
    is such a side. *)
Theorem InvokeBinaryArrayKernel_terminates :
  forall left right : Datum,
    well_formed left = true -> well_formed right = true ->
    total_length left = total_length right ->
    exists (total : Z) (left_arrays right_arrays : list Array),
      resolve left = Some (total, left_arrays)
      /\ resolve right = Some (total, right_arrays)
      /\ forall (Ctx : Type) (kernel : BinaryKernel Ctx) ctx outputs,
           (exists r, InvokeBinaryArrayKernel kernel ctx left right outputs = Done r)
           /\ forall c ctx1 outputs1,
                reachable kernel left_arrays right_arrays total ctx outputs
                          c ctx1 outputs1 ->
                elements_compared c < total ->
                exists la ra,
                  nth_error left_arrays (left_chunk_idx c) = Some la
                  /\ nth_error right_arrays (right_chunk_idx c) = Some ra
                  /\ (left_chunk_idx c < List.length left_arrays)%nat
                  /\ (right_chunk_idx c < List.length right_arrays)%nat
                  /\ 0 <= common_length_of c la ra
                  /\ 0 <= left_start_idx c <= array_length la
                  /\ 0 <= right_start_idx c <= array_length ra
                  /\ 0 <= elements_compared c
                  /\ elements_compared c + common_length_of c la ra <= total
                  /\ (forall f, loop_body kernel left_arrays right_arrays
                                          c ctx1 outputs1 <> Fault f)
                  /\ let c' := advance c la ra (common_length_of c la ra) in
                     (forall c2 ctx2 outputs2,
                         loop_body kernel left_arrays right_arrays c ctx1 outputs1
                         = Continue c2 ctx2 outputs2 -> c2 = c')
                     /\ measure_lt left_arrays right_arrays total c' c
                     /\ (remaining_chunks left_arrays right_arrays c'
                         < remaining_chunks left_arrays right_arrays c)%nat
                     /\ (common_length_of c la ra = 0 ->
                         (left_chunk_idx c' = S (left_chunk_idx c)
                          \/ right_chunk_idx c' = S (right_chunk_idx c))
                         /\ (left_start_idx c = array_length la ->
                             left_chunk_idx c' = S (left_chunk_idx c))
                         /\ (right_start_idx c = array_length ra ->
                             right_chunk_idx c' = S (right_chunk_idx c))).
Proof.
  intros left right Hwl Hwr Heq.
  destruct (well_formed_resolve left Hwl) as (tl & la & Hl & Hnl & Hsl).
  destruct (well_formed_resolve right Hwr) as (tr & ra & Hr & Hnr & Hsr).
  pose proof (equal_totals _ _ _ _ _ _ Hl Hr Heq) as <-.
  exists tl, la, ra. split; [exact Hl |]. split; [exact Hr |].
  intros Ctx kernel ctx outputs. split.
  - destruct (align_loop_replay la ra tl Hnl Hnr Hsl Hsr (loop_fuel la ra) cursor0)
      as (calls & _ & _ & Hrun).
    { apply cursor_inv_start. }
    { unfold remaining_chunks, loop_fuel. cbn. lia. }
    exists (replay kernel calls ctx outputs).
    rewrite (InvokeBinaryArrayKernel_resolved kernel ctx left right outputs
               tl la ra Hl Hr).
    apply Hrun.
  - intros c ctx1 outputs1 Hreach Hlt.
    pose proof (reachable_cursor_inv la ra tl Hnl Hnr Hsl Hsr kernel
                  _ _ _ _ _ Hreach) as Hinv.
    destruct (cursor_step la ra tl Hnl Hnr Hsl Hsr c Hinv Hlt)
      as (a & b & Ha & Hb & Hls & Hrs & Hcommon & Hinv').
    pose proof (cursor_inv_bound la ra tl Hnl Hsl _ Hinv') as Hbound'.
    pose proof (advance_remaining_chunks la ra c a b Ha Hb) as Hdecr.
    pose proof (advance_moves_a_chunk c a b) as Hmove. cbv zeta in Hmove.
    rewrite advance_elements_compared in Hbound'.
    exists a, b.
    split; [exact Ha |]. split; [exact Hb |].
    split; [apply nth_error_Some; congruence |].
    split; [apply nth_error_Some; congruence |].
    split; [exact Hcommon |].
    pose proof (cursor_inv_bound la ra tl Hnl Hsl _ Hinv) as Hbound.
    split; [unfold common_length_of in Hcommon; lia |].
    split; [unfold common_length_of in Hcommon; lia |].
    split; [lia |]. split; [lia |]. split.
    { intros f. unfold loop_body. rewrite Ha, Hb.
      destruct (kernel ctx1 _ _) as [ctx2 [st out]].
      destruct (ok st); discriminate. }
    cbv zeta. split; [| split; [| split; [exact Hdecr |]]].
    + intros c2 ctx2 outputs2 Hbody.
      destruct (loop_body_Continue _ _ _ _ _ _ _ _ _ Hbody)
        as (a' & b' & Ha' & Hb' & ->).
      congruence.
    + unfold measure_lt, remaining_elements.
      rewrite advance_elements_compared.
      destruct (Z.eq_dec (common_length_of c a b) 0) as [H0 | H0].
      * right. split; [lia |]. split; [lia | exact Hdecr].
      * left. lia.
    + intros H0. destruct Hmove as (_ & _ & Hone & Hleft & Hright).
      split; [exact Hone |]. split.
      * intros He. apply Hleft. lia.
      * intros He. apply Hright. lia.
Qed.

Lemma InvokeBinaryArrayKernel_terminates_witness :
  let left := DatumChunkedArray (chunked_of [[]; [1; 2]; []; [3]]) in
  let right := DatumChunkedArray (chunked_of [[1]; []; [2; 3]; []]) in
  well_formed left = true /\ well_formed right = true
  /\ total_length left = total_length right
  /\ exists r, InvokeBinaryArrayKernel logging_kernel [] left right [] = Done r.
Proof.
  intros left right.
  assert (Hl : well_formed left = true) by reflexivity.
  assert (Hr : well_formed right = true) by reflexivity.
  assert (He : total_length left = total_length right) by reflexivity.
  split; [exact Hl |]. split; [exact Hr |]. split; [exact He |].
  destruct (InvokeBinaryArrayKernel_terminates left right Hl Hr He)
    as (total & la & ra & _ & _ & H).
  destruct (H _ logging_kernel [] []) as [Hret _]. exact Hret.
Defined.

Section InvalidInput.

Context {Ctx : Type}.

Lemma not_array_like_resolve (d : Datum) :
  array_like d = false -> resolve d = None.
Proof. destruct d; cbn; congruence. Qed.

Lemma array_like_resolve (d : Datum) :
  array_like d = true -> exists total arrays, resolve d = Some (total, arrays).
Proof. destruct d; cbn; try discriminate; eauto. Qed.

Lemma InvokeBinaryArrayKernel_left_rejected (kernel : BinaryKernel Ctx)
    ctx left right outputs :
  array_like left = false ->
  InvokeBinaryArrayKernel kernel ctx left right outputs
  = Done (mkResult ctx (Status_Invalid "Left input Datum was not array-like")
                   outputs).
Proof.
  intros H. unfold InvokeBinaryArrayKernel.
  rewrite (not_array_like_resolve _ H). reflexivity.
Qed.

Lemma InvokeBinaryArrayKernel_right_rejected (kernel : BinaryKernel Ctx)
    ctx left right outputs :
  array_like left = true -> array_like right = false ->
  InvokeBinaryArrayKernel kernel ctx left right outputs
  = Done (mkResult ctx (Status_Invalid "Right input Datum was not array-like")
                   outputs).
Proof.
  intros Hl Hr. unfold InvokeBinaryArrayKernel.
  destruct (array_like_resolve _ Hl) as (tl & la & ->).
  rewrite (not_array_like_resolve _ Hr). reflexivity.
Qed.

Lemma InvokeBinaryArrayKernel_lengths_rejected (kernel : BinaryKernel Ctx)
    ctx left right outputs :
  array_like left = true -> array_like right = true ->
  total_length left <> total_length right ->
  InvokeBinaryArrayKernel kernel ctx left right outputs
  = Done (mkResult ctx (Status_Invalid "Right and left have different lengths")
                   outputs).
Proof.
  intros Hl Hr Hne. unfold InvokeBinaryArrayKernel, total_length in *.
  destruct (array_like_resolve _ Hl) as (tl & la & Hrl).
  destruct (array_like_resolve _ Hr) as (tr & ra & Hrr).
  rewrite Hrl, Hrr in *. cbn in Hne.
  destruct (Z.eqb_spec tr tl) as [-> | _]; [congruence | reflexivity].
Qed.

Lemma InvokeBinaryArrayKernel_accepted (kernel : BinaryKernel Ctx)
    ctx left right outputs :
  never_Invalid kernel ->
  array_like left = true -> array_like right = true ->
  total_length left = total_length right ->
  returns_Invalid (InvokeBinaryArrayKernel kernel ctx left right outputs) = false.
Proof.
  intros Hk Hl Hr Heq.
  destruct (array_like_resolve _ Hl) as (tl & la & Hrl).
  destruct (array_like_resolve _ Hr) as (tr & ra & Hrr).
  pose proof (equal_totals _ _ _ _ _ _ Hrl Hrr Heq) as <-.
  rewrite (InvokeBinaryArrayKernel_resolved kernel ctx left right outputs
             tl la ra Hrl Hrr).
  destruct (align_loop _ _ _ _ _ _ _ _) as [r | f] eqn:Hrun; [| reflexivity].
  cbn [returns_Invalid].
  eapply align_loop_status; eauto.
Qed.

End InvalidInput.

(** C7 as worded fails in the "only if" direction: a status with the code
    [Invalid] returned by the kernel is returned as it is, for array-like
    operands of equal length. *)
Lemma InvokeBinaryArrayKernel_Invalid_from_kernel :
  let left := DatumArray (array_of [1; 2; 3]) in
  let right := DatumArray (array_of [4; 5; 6]) in
  ~ (returns_Invalid (InvokeBinaryArrayKernel rejecting_kernel tt left right [])
     = true
     <-> (array_like left = false \/ array_like right = false
          \/ total_length left <> total_length right)).
Proof.
  intros left right [H _].
  destruct (H eq_refl) as [Hl | [Hr | Hne]].
  - discriminate Hl.
  - discriminate Hr.
  - apply Hne. reflexivity.
Qed.

(** C7 (amended): [InvokeBinaryArrayKernel] itself answers [Invalid] when the
    left datum is not array-like, when the right datum is not array-like, and
    when the two total lengths differ; it does so before any kernel call
    (context and [outputs] are handed back as they were, whatever the
    kernel).  Those are the only [Invalid] results as long as the kernel
    never returns that code.  [InvokeUnaryArrayKernel] answers [Invalid] for
    an input that is not array-like, again without a kernel call. *)
Theorem InvokeBinaryArrayKernel_InvalidInput :
  forall (Ctx : Type) (kernel : BinaryKernel Ctx) (ukernel : UnaryKernel Ctx)
         (ctx : Ctx) (left right : Datum) (outputs : list Datum),
    (array_like left = false ->
     InvokeBinaryArrayKernel kernel ctx left right outputs
     = Done (mkResult ctx (Status_Invalid "Left input Datum was not array-like")
                      outputs))
    /\ (array_like left = true -> array_like right = false ->
        InvokeBinaryArrayKernel kernel ctx left right outputs
        = Done (mkResult ctx (Status_Invalid "Right input Datum was not array-like")
                         outputs))
    /\ (array_like left = true -> array_like right = true ->
        total_length left <> total_length right ->
        InvokeBinaryArrayKernel kernel ctx left right outputs
        = Done (mkResult ctx (Status_Invalid "Right and left have different lengths")
                         outputs))
    /\ (never_Invalid kernel ->
        (returns_Invalid (InvokeBinaryArrayKernel kernel ctx left right outputs)
         = true
         <-> (array_like left = false \/ array_like right = false
              \/ total_length left <> total_length right)))
    /\ (array_like left = false ->
        InvokeUnaryArrayKernel ukernel ctx left outputs
        = mkResult ctx (Status_Invalid "Input Datum was not array-like") outputs).
Proof.
  intros Ctx kernel ukernel ctx left right outputs.
  split; [apply InvokeBinaryArrayKernel_left_rejected |].
  split; [apply InvokeBinaryArrayKernel_right_rejected |].
  split; [apply InvokeBinaryArrayKernel_lengths_rejected |].
  split.
  - intros Hk. split.
    + intros Hinv.
      destruct (array_like left) eqn:Hl; [| auto].
      destruct (array_like right) eqn:Hr; [| auto].
      right. right. intros Heq.
      rewrite (InvokeBinaryArrayKernel_accepted kernel ctx left right outputs
                 Hk Hl Hr Heq) in Hinv.
      discriminate.
    + intros [Hl | Hrest].
      * rewrite InvokeBinaryArrayKernel_left_rejected by exact Hl. reflexivity.
      * destruct (array_like left) eqn:Hl.
        -- destruct Hrest as [Hr | Hne].
           ++ rewrite InvokeBinaryArrayKernel_right_rejected by assumption.
              reflexivity.
           ++ destruct (array_like right) eqn:Hr.
              ** rewrite InvokeBinaryArrayKernel_lengths_rejected by assumption.
                 reflexivity.
              ** rewrite InvokeBinaryArrayKernel_right_rejected by assumption.
                 reflexivity.
        -- rewrite InvokeBinaryArrayKernel_left_rejected by exact Hl.
           reflexivity.
  - intros H. destruct left; cbn in H; try discriminate; reflexivity.
Qed.

Lemma InvokeBinaryArrayKernel_InvalidInput_witness :
  let left := DatumArray (array_of [1; 2; 3; 4; 5]) in
  let right := DatumChunkedArray (chunked_of [[1; 2; 3]; [4; 5; 6]]) in
  total_length left = Some 5 /\ total_length right = Some 6
  /\ InvokeBinaryArrayKernel add_kernel tt left right [DatumScalar]
     = Done (mkResult tt (Status_Invalid "Right and left have different lengths")
                      [DatumScalar])
  /\ InvokeBinaryArrayKernel add_kernel tt DatumTable right []
     = Done (mkResult tt (Status_Invalid "Left input Datum was not array-like") [])
  /\ InvokeBinaryArrayKernel add_kernel tt left DatumScalar []
     = Done (mkResult tt (Status_Invalid "Right input Datum was not array-like") []).
Proof.
  intros left right.
  split; [reflexivity |]. split; [reflexivity |]. split; [| split].
  - destruct (InvokeBinaryArrayKernel_InvalidInput unit add_kernel
                (fun ctx d => (ctx, (Status_OK, d))) tt left right [DatumScalar])
      as (_ & _ & H & _).
    apply H; [reflexivity | reflexivity | discriminate].
  - destruct (InvokeBinaryArrayKernel_InvalidInput unit add_kernel
                (fun ctx d => (ctx, (Status_OK, d))) tt DatumTable right [])
      as (H & _).
    apply H. reflexivity.
  - destruct (InvokeBinaryArrayKernel_InvalidInput unit add_kernel
                (fun ctx d => (ctx, (Status_OK, d))) tt left DatumScalar [])
      as (_ & H & _).
    apply H; reflexivity.
Defined.

Section Wrapping.

Lemma wrap_each_Done debug datums :
  forall arrays arrays',
    wrap_each debug datums arrays = Done arrays' ->
    exists added, arrays' = arrays ++ added
                  /\ List.length added = List.length datums.
Proof.
  induction datums as [|d datums IH]; intros arrays arrays' H.
  - injection H as <-. exists []. rewrite app_nil_r. auto.
  - cbn [wrap_each] in H.
    destruct (DCHECK_fails debug _); [discriminate |].
    destruct d; cbn [Datum_array] in H; try discriminate.
    destruct (IH _ _ H) as (added & -> & Hlen).
    exists (MakeArray a :: added). rewrite <- app_assoc.
    split; [reflexivity | cbn [List.length]; lia].
Qed.

(** The constructor gives a chunked array exactly on a non-empty list. *)
Lemma make_ChunkedArray_Done arrays c :
  make_ChunkedArray arrays = Done c ->
  arrays <> [] /\ c = mkChunkedArray arrays (sum_lengths arrays).
Proof.
  destruct arrays as [|a arrays]; cbn [make_ChunkedArray]; intros H.
  - discriminate H.
  - injection H as <-. split; [discriminate | reflexivity].
Qed.

Lemma make_ChunkedArray_nonempty arrays :
  arrays <> [] ->
  make_ChunkedArray arrays = Done (mkChunkedArray arrays (sum_lengths arrays)).
Proof. destruct arrays; [congruence | reflexivity]. Qed.

(** Whenever [WrapDatumsLike] hands back a datum for an array-like [value],
    the datum has the kind of [value]. *)
Lemma WrapDatumsLike_kind debug value datums d :
  array_like value = true ->
  WrapDatumsLike debug value datums = Done d ->
  kind d = kind value.
Proof.
  intros Hv H. destruct value; try discriminate; cbn [WrapDatumsLike] in H.
  - destruct (DCHECK_fails debug _); [discriminate |].
    destruct (nth_error datums 0) as [x|]; [| discriminate].
    destruct (Datum_array x); [| discriminate].
    injection H as <-. reflexivity.
  - destruct (wrap_each debug datums []) as [arrays | f]; [| discriminate].
    destruct (make_ChunkedArray arrays); [| discriminate].
    injection H as <-. reflexivity.
Qed.

(** With the check compiled out, a single-array [value] and several datums
    give the first datum; the others are dropped. *)
Lemma WrapDatumsLike_unchecked_takes_first value_array x rest :
  WrapDatumsLike false (DatumArray value_array) (DatumArray x :: rest)
  = Done (DatumArray x).
Proof. reflexivity. Qed.

(** [WrapArraysLike] has no check of its own for a single-array [value]. *)
Lemma WrapArraysLike_single debug value_array arrays :
  WrapArraysLike debug (DatumArray value_array) arrays
  = match arrays with
    | [] => Crash OutOfBounds
    | a :: _ => Done (DatumArray a)
    end.
Proof. destruct arrays; reflexivity. Qed.

End Wrapping.

(** When the datum-returning form returns [OK], the output has the kind of
    [left]. *)
Lemma InvokeBinaryArrayKernelDatum_kind {Ctx : Type} debug
    (kernel : BinaryKernel Ctx) ctx left right output res :
  InvokeBinaryArrayKernelDatum debug kernel ctx left right output = Done res ->
  ok (d_status res) = true ->
  kind (d_output res) = kind left.
Proof.
  unfold InvokeBinaryArrayKernelDatum. intros H Hok.
  destruct (InvokeBinaryArrayKernel kernel ctx left right []) as [r | f] eqn:Hrun;
    [| discriminate].
  destruct (ok (r_status r)) eqn:Hst.
  - destruct (WrapDatumsLike debug left (r_outputs r)) as [d | f] eqn:Hw;
      [| discriminate].
    injection H as <-. cbn [d_output].
    apply (WrapDatumsLike_kind debug left (r_outputs r) d); [| exact Hw].
    destruct (array_like left) eqn:Hl; [reflexivity |].
    rewrite (InvokeBinaryArrayKernel_left_rejected kernel ctx left right [] Hl)
      in Hrun.
    injection Hrun as <-. discriminate Hst.
  - injection H as <-. cbn [d_status] in Hok. congruence.
Qed.

(** C6: evaluation at operands for which the shape of [left] is not
    reproduced.  A single array of length 4 against chunks of lengths 1 and
    3 gives two segments: with the checks compiled in, [DCHECK_EQ(1,
    datums.size())] stops the call; with the checks compiled out, the output
    is the first segment alone, one element of four.  Two empty single
    arrays give no segment: the check stops the call, or [datums[0]] is read
    from an empty vector. *)
Theorem InvokeBinaryArrayKernelDatum_single_left_many_segments :
  let left := DatumArray (array_of [10; 20; 30; 40]) in
  let right := DatumChunkedArray (chunked_of [[1]; [2; 3; 4]]) in
  let empty := DatumArray (array_of []) in
  well_formed left = true /\ well_formed right = true
  /\ total_length left = total_length right
  /\ InvokeBinaryArrayKernel add_kernel tt left right []
     = Done (mkResult tt Status_OK
               [DatumArray (mkArray [11] 0 1); DatumArray (mkArray [22; 33; 44] 0 3)])
  /\ InvokeBinaryArrayKernelDatum true add_kernel tt left right DatumNone
     = Crash CheckFailed
  /\ InvokeBinaryArrayKernelDatum false add_kernel tt left right DatumNone
     = Done (mkDatumResult tt Status_OK (DatumArray (mkArray [11] 0 1)))
  /\ well_formed empty = true
  /\ InvokeBinaryArrayKernel add_kernel tt empty empty []
     = Done (mkResult tt Status_OK [])
  /\ InvokeBinaryArrayKernelDatum true add_kernel tt empty empty DatumNone
     = Crash CheckFailed
  /\ InvokeBinaryArrayKernelDatum false add_kernel tt empty empty DatumNone
     = Crash OutOfBounds.
Proof. vm_compute. repeat split. Qed.

(** C8 as worded fails where the checks are compiled out: [DCHECK_EQ] is a
    debug check, so for a single-array [value] a list of two array datums
    goes through unchecked and its first element comes back, and an empty
    list has [datums[0]] read past its end.  In neither case does a
    consistency check fail. *)
Lemma WrapDatumsLike_check_compiled_out :
  let value := DatumArray (array_of [1; 2; 3]) in
  let first := DatumArray (array_of [7]) in
  let second := DatumArray (array_of [8]) in
  WrapDatumsLike false value [first; second] = Done first
  /\ WrapDatumsLike false value [] = Crash OutOfBounds
  /\ ~ (forall (debug : bool) (datums : list Datum),
          List.length datums <> 1%nat ->
          WrapDatumsLike debug value datums = Crash CheckFailed).
Proof.
  intros value first second.
  split; [reflexivity |]. split; [reflexivity |].
  intros H. specialize (H false [first; second]).
  cbn [List.length] in H.
  assert (Hlen : 2%nat <> 1%nat) by discriminate.
  specialize (H Hlen). discriminate H.
Qed.

(** C8 (amended): for a single-array [value], [WrapDatumsLike] with its
    checks compiled in stops at [DCHECK_EQ(1, datums.size())] for every list
    whose size is not one.  With the checks compiled out nothing is checked:
    a list that starts with an array datum gives that datum, whatever
    follows, and the empty list has [datums[0]] read past its end.  For a
    list of exactly one datum, in either build, index 0 is in bounds,
    neither the check nor the element access fails, and an array datum
    comes back as it is. *)
Theorem WrapDatumsLike_single_array_contract :
  forall (value_array : Array) (datums : list Datum),
    (List.length datums <> 1%nat ->
     WrapDatumsLike true (DatumArray value_array) datums = Crash CheckFailed)
    /\ (forall (x : Array) (rest : list Datum),
          datums = DatumArray x :: rest ->
          WrapDatumsLike false (DatumArray value_array) datums
          = Done (DatumArray x))
    /\ (datums = [] ->
        WrapDatumsLike false (DatumArray value_array) datums
        = Crash OutOfBounds)
    /\ (forall (debug : bool) (d : Datum),
          datums = [d] ->
          nth_error datums 0 = Some d
          /\ WrapDatumsLike debug (DatumArray value_array) datums
             <> Crash CheckFailed
          /\ WrapDatumsLike debug (DatumArray value_array) datums
             <> Crash OutOfBounds
          /\ (forall x, d = DatumArray x ->
                WrapDatumsLike debug (DatumArray value_array) datums = Done d)).
Proof.
  intros value_array datums. split; [| split; [| split]].
  - intros Hlen. cbn [WrapDatumsLike]. unfold DCHECK_fails.
    destruct (Nat.eqb_spec 1 (List.length datums)) as [He | _];
      [congruence | reflexivity].
  - intros x rest ->. reflexivity.
  - intros ->. reflexivity.
  - intros debug d ->. split; [reflexivity |].
    cbn [WrapDatumsLike List.length nth_error].
    unfold DCHECK_fails. cbn [Nat.eqb negb]. rewrite andb_false_r.
    repeat split.
    + destruct d; cbn [Datum_array]; discriminate.
    + destruct d; cbn [Datum_array]; discriminate.
    + intros x ->. reflexivity.
Qed.

Lemma WrapDatumsLike_single_array_contract_witness :
  let a := array_of [1; 2; 3] in
  WrapDatumsLike true (DatumArray a) [] = Crash CheckFailed
  /\ WrapDatumsLike true (DatumArray a) [DatumArray a; DatumArray a]
     = Crash CheckFailed
  /\ WrapDatumsLike false (DatumArray a) [DatumArray (array_of [7]); DatumScalar]
     = Done (DatumArray (array_of [7]))
  /\ WrapDatumsLike false (DatumArray a) [] = Crash OutOfBounds
  /\ WrapDatumsLike true (DatumArray a) [DatumArray (array_of [7; 8; 9])]
     = Done (DatumArray (array_of [7; 8; 9])).
Proof.
  intros a. split; [| split; [| split; [| split]]].
  - destruct (WrapDatumsLike_single_array_contract a []) as [H _].
    apply H. cbn. lia.
  - destruct (WrapDatumsLike_single_array_contract a [DatumArray a; DatumArray a])
      as [H _].
    apply H. cbn. lia.
  - destruct (WrapDatumsLike_single_array_contract a
                [DatumArray (array_of [7]); DatumScalar]) as (_ & H & _).
    apply (H (array_of [7]) [DatumScalar]). reflexivity.
  - destruct (WrapDatumsLike_single_array_contract a []) as (_ & _ & H & _).
    apply H. reflexivity.
  - destruct (WrapDatumsLike_single_array_contract a
                [DatumArray (array_of [7; 8; 9])]) as (_ & _ & _ & H).
    destruct (H true (DatumArray (array_of [7; 8; 9])) eq_refl) as (_ & _ & _ & H').
    apply (H' (array_of [7; 8; 9])). reflexivity.
Defined.

(** The bound on the loop is a device of the model only: no input makes
    [InvokeBinaryArrayKernel] use it up. *)
Lemma InvokeBinaryArrayKernel_fuel_suffices {Ctx : Type}
    (kernel : BinaryKernel Ctx) ctx left right outputs :
  InvokeBinaryArrayKernel kernel ctx left right outputs <> Crash OutOfFuel.
Proof.
  unfold InvokeBinaryArrayKernel.
  destruct (resolve left) as [[tl la]|]; [| discriminate].
  destruct (resolve right) as [[tr ra]|]; [| discriminate].
  destruct (negb (tr =? tl)); [discriminate |].
  apply align_loop_fuel_suffices.
  unfold remaining_chunks, loop_fuel. cbn. lia.
Qed.

(** ** Worked examples *)

Example CalculateCipherSize_page :
  CalculateCipherSize (mkEncryptionProperties AES_GCM_CTR_V1 [] []) 100 false = 120
  /\ CalculateCipherSize (mkEncryptionProperties AES_GCM_CTR_V1 [] []) 100 true = 132
  /\ CalculatePlainSize (mkEncryptionProperties AES_GCM_V1 [] []) 132 false = 100.
Proof. repeat split. Qed.

Example Int96_epoch_day :
  Int96SetNanoSeconds (mkInt96 0 0 2440588) 4294967298 = mkInt96 2 1 2440588
  /\ Int96GetNanoSeconds (mkInt96 2 1 2440588) = 4294967298
  /\ Int96GetNanoSeconds (mkInt96 2 1 2440589) = 86400000000000 + 4294967298.
Proof. vm_compute. repeat split. Qed.

Example destroy_EncryptionProperties_key :
  destroy_EncryptionProperties (mkEncryptionProperties AES_GCM_V1 [x41; x42; x43] [x61])
  = Some (mkEncryptionProperties AES_GCM_V1 [x00; x00; x00] [x61]).
Proof. reflexivity. Qed.

(** Left chunked as 2 + 3, right a single array of 5: the kernel sees
    (left chunk 0, right[0:2]) and (left chunk 1, right[2:5]); the output is
    chunked with segments of lengths 2 and 3. *)
Example chunked_left_single_right :
  let left := DatumChunkedArray (chunked_of [[1; 2]; [3; 4; 5]]) in
  let right := DatumArray (array_of [10; 20; 30; 40; 50]) in
  r_ctx_of (InvokeBinaryArrayKernel logging_kernel [] left right [])
  = Some [((0, 2), (0, 2)); ((0, 3), (2, 3))]
  /\ InvokeBinaryArrayKernelDatum true add_kernel tt left right DatumNone
     = Done (mkDatumResult tt Status_OK
               (DatumChunkedArray
                  (mkChunkedArray [mkArray [11; 22] 0 2; mkArray [33; 44; 55] 0 3] 5))).
Proof. vm_compute. repeat split. Qed.

(** Zero-length chunks on both sides: six calls, three of them on empty
    slices. *)
Example zero_length_chunks :
  let left := DatumChunkedArray (chunked_of [[]; [1; 2]; []; [3]]) in
  let right := DatumChunkedArray (chunked_of [[1]; []; [2; 3]; []]) in
  r_ctx_of (InvokeBinaryArrayKernel logging_kernel [] left right [])
  = Some [((0, 0), (0, 0)); ((0, 1), (0, 1)); ((1, 0), (0, 0));
          ((1, 1), (0, 1)); ((0, 0), (1, 0)); ((0, 1), (1, 1))].
Proof. vm_compute. reflexivity. Qed.

Example unary_over_chunks :
  InvokeUnaryArrayKernel (fun ctx d => (S ctx, (Status_OK, d))) O
    (DatumChunkedArray (chunked_of [[1]; [2; 3]])) []
  = mkResult 2%nat Status_OK [DatumArray (array_of [1]); DatumArray (array_of [2; 3])].
Proof. reflexivity. Qed.

(** ** Further properties of parquet/types.h *)

Section SizingBijection.

Variable p : EncryptionProperties.

(** The ciphertext size of the plaintext size of a ciphertext length is that
    length again, the subtraction wrapping and the addition wrapping back:
    with the round trip the other way the two functions are inverse
    bijections of the [uint32_t] range. *)
Theorem CalculateCipherSize_CalculatePlainSize :
  forall (cipher_len : Z) (is_metadata : bool),
    is_uint32 cipher_len ->
    CalculateCipherSize p (CalculatePlainSize p cipher_len is_metadata) is_metadata
    = cipher_len.
Proof.
  intros cipher_len is_metadata Hr.
  unfold CalculateCipherSize, CalculatePlainSize.
  destruct (is_metadata || (algorithm_ p =? AES_GCM_V1)).
  - unfold wrap_u32, is_uint32 in *. Z.div_mod_to_equations. lia.
  - destruct (algorithm_ p =? AES_GCM_CTR_V1).
    + unfold wrap_u32, is_uint32 in *. Z.div_mod_to_equations. lia.
    + reflexivity.
Qed.

(** A wrap-around shows in the result: the ciphertext size is below the
    plaintext length (and below the overhead) exactly when the sum does not
    fit in 32 bits, and the plaintext size is above the ciphertext length
    exactly when that length is below the overhead. *)
Theorem sizing_wraparound_detectable :
  forall (n : Z) (is_metadata : bool),
    is_uint32 n ->
    (is_metadata = true \/ algorithm_ p = AES_GCM_V1 ->
     (CalculateCipherSize p n is_metadata < n <-> 2 ^ 32 <= n + 32)
     /\ (CalculateCipherSize p n is_metadata < 32 <-> 2 ^ 32 <= n + 32)
     /\ (n < CalculatePlainSize p n is_metadata <-> n < 32))
    /\
    (is_metadata = false /\ algorithm_ p = AES_GCM_CTR_V1 ->
     (CalculateCipherSize p n is_metadata < n <-> 2 ^ 32 <= n + 20)
     /\ (CalculateCipherSize p n is_metadata < 20 <-> 2 ^ 32 <= n + 20)
     /\ (n < CalculatePlainSize p n is_metadata <-> n < 20)).
Proof.
  intros n is_metadata Hr. split.
  - intros Hb.
    rewrite (CalculateCipherSize_first_branch p n is_metadata Hb).
    rewrite (CalculatePlainSize_first_branch p n is_metadata Hb).
    unfold wrap_u32, is_uint32 in *. Z.div_mod_to_equations. lia.
  - intros [Hm Ha].
    rewrite (CalculateCipherSize_second_branch p n is_metadata Hm Ha).
    rewrite (CalculatePlainSize_second_branch p n is_metadata Hm Ha).
    unfold wrap_u32, is_uint32 in *. Z.div_mod_to_equations. lia.
Qed.

End SizingBijection.

Lemma CalculateCipherSize_CalculatePlainSize_witness :
  CalculateCipherSize (mkEncryptionProperties AES_GCM_V1 [] [])
    (CalculatePlainSize (mkEncryptionProperties AES_GCM_V1 [] []) 5 false) false
  = 5.
Proof.
  apply (CalculateCipherSize_CalculatePlainSize
           (mkEncryptionProperties AES_GCM_V1 [] []) 5 false).
  unfold is_uint32. lia.
Defined.

Lemma sizing_wraparound_detectable_witness :
  CalculateCipherSize (mkEncryptionProperties AES_GCM_V1 [] []) 4294967290 false < 32
  /\ 19 < CalculatePlainSize (mkEncryptionProperties AES_GCM_CTR_V1 [] []) 19 false.
Proof.
  assert (H1 : is_uint32 4294967290) by (unfold is_uint32; lia).
  assert (H2 : is_uint32 19) by (unfold is_uint32; lia).
  split.
  - destruct (sizing_wraparound_detectable
                (mkEncryptionProperties AES_GCM_V1 [] []) 4294967290 false H1)
      as [H _].
    destruct H as (_ & H & _); [right; reflexivity |].
    apply H. lia.
  - destruct (sizing_wraparound_detectable
                (mkEncryptionProperties AES_GCM_CTR_V1 [] []) 19 false H2)
      as [_ H].
    destruct H as (_ & _ & H); [split; reflexivity |].
    apply H. lia.
Defined.

Section Int96Timestamps.

(** What [Int96GetNanoSeconds] computes, in words. *)
Lemma Int96GetNanoSeconds_words (i96 : Int96) :
  Int96_wf i96 ->
  Int96GetNanoSeconds i96
  = wrap_s64 ((value2 i96 - kJulianToUnixEpochDays) * kNanosecondsPerDay
              + wrap_s64 (Int96_nanos_of_day i96)).
Proof.
  intros (H0 & H1 & H2). unfold Int96GetNanoSeconds, int64_of_bytes.
  rewrite memcpy_from_Int96.
  rewrite (Z.mod_small (value0 i96)) by exact H0.
  rewrite (Z.mod_small (value1 i96)) by exact H1.
  fold (Int96_nanos_of_day i96).
  rewrite (wrap_s64_small (value2 i96 - kJulianToUnixEpochDays)).
  - apply wrap_s64_add_l.
  - unfold is_int64, kJulianToUnixEpochDays. unfold is_uint32 in H2. lia.
Qed.

Lemma kNanosecondsPerDay_value : kNanosecondsPerDay = 86400000000000.
Proof. reflexivity. Qed.

Lemma Int96GetNanoSeconds_exact (i96 : Int96) :
  Int96_normalised i96 ->
  Int96GetNanoSeconds i96
  = (value2 i96 - kJulianToUnixEpochDays) * kNanosecondsPerDay
    + Int96_nanos_of_day i96.
Proof.
  intros (Hwf & Hn & Hd). rewrite Int96GetNanoSeconds_words by exact Hwf.
  rewrite kNanosecondsPerDay_value in *. unfold kJulianToUnixEpochDays in *.
  rewrite (wrap_s64_small (Int96_nanos_of_day i96))
    by (unfold is_int64; lia).
  apply wrap_s64_small. unfold is_int64. lia.
Qed.

Lemma Int96_words_of_nanos (i96 : Int96) :
  Int96_wf i96 ->
  value0 i96 = Int96_nanos_of_day i96 mod 2 ^ 32
  /\ value1 i96 = Int96_nanos_of_day i96 / 2 ^ 32.
Proof.
  intros (H0 & H1 & _). unfold Int96_nanos_of_day, is_uint32 in *.
  Z.div_mod_to_equations. lia.
Qed.

End Int96Timestamps.

(** On a normalised Int96 (time of day below one day, day within the days
    an [int64_t] nanosecond count reaches) [Int96GetNanoSeconds] is exact:
    no wrap-around, the day is the floored quotient and the time of day the
    remainder by [kNanosecondsPerDay]. *)
Theorem Int96GetNanoSeconds_normalised :
  forall i96 : Int96,
    Int96_normalised i96 ->
    Int96GetNanoSeconds i96
    = (value2 i96 - kJulianToUnixEpochDays) * kNanosecondsPerDay
      + Int96_nanos_of_day i96
    /\ is_int64 ((value2 i96 - kJulianToUnixEpochDays) * kNanosecondsPerDay
                 + Int96_nanos_of_day i96)
    /\ Int96GetNanoSeconds i96 / kNanosecondsPerDay
       = value2 i96 - kJulianToUnixEpochDays
    /\ Int96GetNanoSeconds i96 mod kNanosecondsPerDay = Int96_nanos_of_day i96.
Proof.
  intros i96 Hn. rewrite (Int96GetNanoSeconds_exact i96 Hn).
  destruct Hn as (Hwf & Hn & Hd).
  rewrite kNanosecondsPerDay_value in *. unfold kJulianToUnixEpochDays in *.
  split; [reflexivity |]. split; [unfold is_int64; lia |].
  split.
  - rewrite Z.add_comm, Z.div_add by lia.
    rewrite Z.div_small by lia. lia.
  - rewrite Z.add_comm, Z.mod_add by lia.
    apply Z.mod_small. lia.
Qed.

Lemma Int96GetNanoSeconds_normalised_witness :
  Int96GetNanoSeconds (mkInt96 705032704 1 2440589) = 86400000000000 + 5000000000.
Proof.
  assert (Hn : Int96_normalised (mkInt96 705032704 1 2440589)).
  { unfold Int96_normalised, Int96_wf, is_uint32, Int96_nanos_of_day.
    cbn [value0 value1 value2].
    rewrite kNanosecondsPerDay_value. unfold kJulianToUnixEpochDays. lia. }
  destruct (Int96GetNanoSeconds_normalised _ Hn) as [H _].
  rewrite H. reflexivity.
Defined.

(** Normalised Int96 values are determined by the nanoseconds they stand
    for: two of them with the same [Int96GetNanoSeconds] are the same three
    words, and [operator==] says so. *)
Theorem Int96GetNanoSeconds_injective_normalised :
  forall a b : Int96,
    Int96_normalised a -> Int96_normalised b ->
    Int96GetNanoSeconds a = Int96GetNanoSeconds b ->
    a = b /\ Int96_eq a b = true.
Proof.
  intros a b Ha Hb Heq.
  rewrite (Int96GetNanoSeconds_exact a Ha), (Int96GetNanoSeconds_exact b Hb)
    in Heq.
  destruct Ha as (Hwa & Hna & _). destruct Hb as (Hwb & Hnb & _).
  rewrite kNanosecondsPerDay_value in *.
  assert (H2 : value2 a = value2 b) by lia.
  assert (Hn : Int96_nanos_of_day a = Int96_nanos_of_day b) by lia.
  destruct (Int96_words_of_nanos a Hwa) as [H0a H1a].
  destruct (Int96_words_of_nanos b Hwb) as [H0b H1b].
  assert (H0 : value0 a = value0 b) by congruence.
  assert (H1 : value1 a = value1 b) by congruence.
  split.
  - destruct a, b. cbn in *. subst. reflexivity.
  - unfold Int96_eq. rewrite H0, H1, H2, !Z.eqb_refl. reflexivity.
Qed.

Lemma Int96GetNanoSeconds_injective_normalised_witness :
  let a := Int96SetNanoSeconds (mkInt96 0 0 2440590) 5000000000 in
  let b := mkInt96 705032704 1 2440590 in
  a = b /\ Int96_eq a b = true.
Proof.
  intros a b.
  assert (Hb : Int96_normalised b).
  { unfold Int96_normalised, Int96_wf, is_uint32, Int96_nanos_of_day.
    cbn [value0 value1 value2 b].
    rewrite kNanosecondsPerDay_value. unfold kJulianToUnixEpochDays. lia. }
  assert (Ha : Int96_normalised a) by (vm_compute in a; exact Hb).
  apply (Int96GetNanoSeconds_injective_normalised a b Ha Hb).
  vm_compute. reflexivity.
Defined.

(** Writing the nanoseconds loses nothing and keeps nothing of an earlier
    write: different [int64_t] values leave different objects, and a second
    [Int96SetNanoSeconds] gives what it gives on the original object. *)
Theorem Int96SetNanoSeconds_injective_last_wins :
  forall (i96 : Int96) (v1 v2 : Z),
    is_int64 v1 -> is_int64 v2 ->
    (Int96SetNanoSeconds i96 v1 = Int96SetNanoSeconds i96 v2 -> v1 = v2)
    /\ Int96SetNanoSeconds (Int96SetNanoSeconds i96 v1) v2
       = Int96SetNanoSeconds i96 v2.
Proof.
  intros i96 v1 v2 H1 H2. split.
  - rewrite !Int96SetNanoSeconds_words. intros H.
    injection H as Hlo Hhi.
    unfold wrap_u64, is_int64 in *.
    Z.div_mod_to_equations. lia.
  - rewrite !Int96SetNanoSeconds_words. cbn [value2].
    rewrite Z.mod_mod by lia. reflexivity.
Qed.

Lemma Int96SetNanoSeconds_injective_last_wins_witness :
  Int96SetNanoSeconds (Int96SetNanoSeconds (mkInt96 1 2 3) (-1)) 7
  = Int96SetNanoSeconds (mkInt96 1 2 3) 7.
Proof.
  assert (H1 : is_int64 (-1)) by (unfold is_int64; lia).
  assert (H2 : is_int64 7) by (unfold is_int64; lia).
  destruct (Int96SetNanoSeconds_injective_last_wins (mkInt96 1 2 3) (-1) 7 H1 H2)
    as [_ H].
  exact H.
Defined.

(** Outside the normalised values the same instant has several encodings:
    moving one day from the nanoseconds field to the day word changes the
    object, as [operator==] tells, but not what [Int96GetNanoSeconds]
    returns. *)
Theorem Int96_day_shift_alias :
  forall (i96 : Int96) (v : Z),
    is_uint32 (value2 i96) -> is_uint32 (value2 i96 + 1) ->
    let a := Int96SetNanoSeconds i96 v in
    let b := Int96SetNanoSeconds
               (mkInt96 (value0 i96) (value1 i96) (value2 i96 + 1))
               (v - kNanosecondsPerDay) in
    Int96GetNanoSeconds a = Int96GetNanoSeconds b
    /\ Int96_eq a b = false /\ Int96_ne a b = true.
Proof.
  intros i96 v Hd Hd' a b. subst a b.
  rewrite !Int96_roundtrip_general by assumption.
  cbn [value2]. split.
  - f_equal. ring.
  - assert (He : Int96_eq (Int96SetNanoSeconds i96 v)
                   (Int96SetNanoSeconds
                      (mkInt96 (value0 i96) (value1 i96) (value2 i96 + 1))
                      (v - kNanosecondsPerDay)) = false).
    { rewrite !Int96SetNanoSeconds_words. unfold Int96_eq.
      cbn [value0 value1 value2].
      rewrite (Z.mod_small (value2 i96)) by exact Hd.
      rewrite (Z.mod_small (value2 i96 + 1)) by exact Hd'.
      replace (value2 i96 =? value2 i96 + 1) with false
        by (symmetry; apply Z.eqb_neq; lia).
      apply andb_false_r. }
    unfold Int96_ne. rewrite He. split; reflexivity.
Qed.

Lemma Int96_day_shift_alias_witness :
  Int96GetNanoSeconds (Int96SetNanoSeconds (mkInt96 0 0 2440588) 86400000000005)
  = Int96GetNanoSeconds (Int96SetNanoSeconds (mkInt96 0 0 2440589) 5).
Proof.
  assert (H1 : is_uint32 (value2 (mkInt96 0 0 2440588)))
    by (unfold is_uint32; cbn; lia).
  assert (H2 : is_uint32 (value2 (mkInt96 0 0 2440588) + 1))
    by (unfold is_uint32; cbn; lia).
  destruct (Int96_day_shift_alias (mkInt96 0 0 2440588) 86400000000005 H1 H2)
    as [H _].
  exact H.
Defined.

Section ByteArrays.

Variable mem : Memory.

Lemma read_bytes_length n :
  forall p bs, read_bytes mem p n = Some bs -> List.length bs = n.
Proof.
  induction n as [|n IH]; intros p bs H; cbn [read_bytes] in H.
  - injection H as <-. reflexivity.
  - destruct (mem p) as [b|]; [| discriminate].
    destruct (read_bytes mem (p + 1) n) as [bs'|] eqn:Hr; [| discriminate].
    injection H as <-. cbn [List.length]. rewrite (IH _ _ Hr). reflexivity.
Qed.

Lemma compare_bytes_zero (xs : list byte) :
  forall ys, List.length xs = List.length ys ->
             (compare_bytes xs ys = 0 <-> xs = ys).
Proof.
  induction xs as [|x xs IH]; intros [|y ys] Hlen; try discriminate.
  - split; reflexivity.
  - cbn [compare_bytes]. injection Hlen as Hlen.
    destruct (N.eqb_spec (Byte.to_N x) (Byte.to_N y)) as [He | Hne].
    + assert (x = y).
      { pose proof (Byte.of_to_N x) as Hx. rewrite He, Byte.of_to_N in Hx.
        congruence. }
      subst y. rewrite (IH ys Hlen). split; congruence.
    + split.
      * destruct (N.ltb (Byte.to_N x) (Byte.to_N y)); discriminate.
      * intros H. injection H as -> _. contradiction.
Qed.

Lemma ByteArray_eq_same_length (left right : ByteArray) sl sr :
  len left = len right -> len left <> 0 ->
  ByteArrayToString mem left = Some sl ->
  ByteArrayToString mem right = Some sr ->
  ByteArray_eq mem left right = Some (compare_bytes sl sr =? 0).
Proof.
  unfold ByteArray_eq, ByteArrayToString, memcmp. intros Hl Hz Hsl Hsr.
  rewrite <- Hl in Hsr. rewrite Hl at 1. rewrite Z.eqb_refl.
  apply Z.eqb_neq in Hz. rewrite Hz, Hsl, Hsr. reflexivity.
Qed.

End ByteArrays.

(** [operator==] on two byte arrays whose contents are readable compares
    the contents: it is true exactly when the strings [ByteArrayToString]
    makes of them are equal, false otherwise, and [operator!=] is its
    negation. *)
Theorem ByteArray_eq_compares_contents :
  forall (mem : Memory) (left right : ByteArray) (sl sr : std_string),
    0 <= len left -> 0 <= len right ->
    ByteArrayToString mem left = Some sl ->
    ByteArrayToString mem right = Some sr ->
    (ByteArray_eq mem left right = Some true <-> sl = sr)
    /\ (ByteArray_eq mem left right = Some false <-> sl <> sr)
    /\ (ByteArray_ne mem left right = Some true <-> sl <> sr).
Proof.
  intros mem left right sl sr Hl Hr Hsl Hsr.
  pose proof (read_bytes_length mem _ _ _ Hsl) as Hnl.
  pose proof (read_bytes_length mem _ _ _ Hsr) as Hnr.
  assert (Hres : ByteArray_eq mem left right = Some true /\ sl = sr
                 \/ ByteArray_eq mem left right = Some false /\ sl <> sr).
  { destruct (Z.eq_dec (len left) (len right)) as [He | Hne].
    - destruct (Z.eq_dec (len left) 0) as [Hz | Hnz].
      + left. split.
        * unfold ByteArray_eq. rewrite He, Z.eqb_refl, <- He, Hz. reflexivity.
        * rewrite <- He, Hz in Hnr. rewrite Hz in Hnl.
          destruct sl; [| discriminate]. destruct sr; [| discriminate].
          reflexivity.
      + rewrite (ByteArray_eq_same_length mem left right sl sr He Hnz Hsl Hsr).
        assert (Hlen : List.length sl = List.length sr) by congruence.
        pose proof (compare_bytes_zero sl sr Hlen) as Hc.
        destruct (Z.eqb_spec (compare_bytes sl sr) 0) as [H0 | H0].
        * left. split; [reflexivity | apply Hc; exact H0].
        * right. split; [reflexivity |]. intros H. apply H0, Hc, H.
    - right. split.
      + unfold ByteArray_eq. apply Z.eqb_neq in Hne. rewrite Hne. reflexivity.
      + intros ->. apply Hne. apply Z2Nat.inj; congruence. }
  unfold ByteArray_ne.
  destruct Hres as [[-> He] | [-> Hne]]; cbn [option_map negb].
  - repeat split; intros; try congruence; try discriminate.
  - repeat split; intros; try congruence; try discriminate; try contradiction.
Qed.

(** [operator==] reaches unreadable memory only on arrays of the same
    non-zero length of which one has unreadable contents: arrays of
    different lengths are unequal and empty arrays equal whatever their
    pointers, the null pointer of a default-constructed array included. *)
Theorem ByteArray_eq_reads_only_when_needed :
  forall (mem : Memory) (left right : ByteArray),
    (ByteArray_eq mem left right = None
     <-> len left = len right /\ len left <> 0
         /\ (ByteArrayToString mem left = None
             \/ ByteArrayToString mem right = None))
    /\ (len left <> len right -> ByteArray_eq mem left right = Some false)
    /\ (len left = 0 -> len right = 0 ->
        ByteArray_eq mem left right = Some true)
    /\ (len right = 0 ->
        ByteArray_eq mem ByteArray_default right = Some true).
Proof.
  intros mem left right.
  assert (Hne : len left <> len right ->
                ByteArray_eq mem left right = Some false).
  { intros H. unfold ByteArray_eq. apply Z.eqb_neq in H. rewrite H. reflexivity. }
  assert (Hz : len left = 0 -> len right = 0 ->
               ByteArray_eq mem left right = Some true).
  { intros H1 H2. unfold ByteArray_eq. rewrite H1, H2. reflexivity. }
  split; [| split; [exact Hne | split; [exact Hz |]]].
  - split.
    + intros H.
      destruct (Z.eq_dec (len left) (len right)) as [He | Hd];
        [| rewrite (Hne Hd) in H; discriminate].
      destruct (Z.eq_dec (len left) 0) as [H0 | H0].
      { rewrite Hz in H by congruence. discriminate. }
      split; [exact He |]. split; [exact H0 |].
      unfold ByteArray_eq, memcmp, ByteArrayToString in *.
      rewrite <- He. rewrite He in H at 1. rewrite Z.eqb_refl in H.
      apply Z.eqb_neq in H0. rewrite H0 in H.
      destruct (read_bytes mem (ptr left) (Z.to_nat (len left))); [| auto].
      destruct (read_bytes mem (ptr right) (Z.to_nat (len left))); [| auto].
      discriminate.
    + intros (He & H0 & Hr).
      unfold ByteArray_eq, memcmp, ByteArrayToString in *.
      rewrite <- He in Hr. rewrite He at 1. rewrite Z.eqb_refl.
      apply Z.eqb_neq in H0. rewrite H0.
      destruct Hr as [-> | ->]; [reflexivity |].
      destruct (read_bytes mem (ptr left) (Z.to_nat (len left))); reflexivity.
  - intros H. unfold ByteArray_eq, ByteArray_default. cbn [len].
    rewrite H. reflexivity.
Qed.

Lemma ByteArray_eq_compares_contents_witness :
  ByteArray_eq example_memory (mkByteArray 3 16) (mkByteArray 3 19) = Some true
  /\ ByteArray_eq example_memory (mkByteArray 3 16) (mkByteArray 3 20) = Some false.
Proof.
  assert (H0 : 0 <= 3) by lia.
  assert (Ha : ByteArrayToString example_memory (mkByteArray 3 16)
               = Some [x61; x62; x63]) by reflexivity.
  assert (Hb : ByteArrayToString example_memory (mkByteArray 3 19)
               = Some [x61; x62; x63]) by reflexivity.
  assert (Hc : ByteArrayToString example_memory (mkByteArray 3 20)
               = Some [x62; x63; x64]) by reflexivity.
  split.
  - destruct (ByteArray_eq_compares_contents example_memory
                (mkByteArray 3 16) (mkByteArray 3 19) _ _ H0 H0 Ha Hb) as [H _].
    apply H. reflexivity.
  - destruct (ByteArray_eq_compares_contents example_memory
                (mkByteArray 3 16) (mkByteArray 3 20) _ _ H0 H0 Ha Hc)
      as (_ & H & _).
    apply H. discriminate.
Defined.

Lemma ByteArray_eq_reads_only_when_needed_witness :
  ByteArray_eq example_memory (mkByteArray 2 16) (mkByteArray 3 0) = Some false
  /\ ByteArray_eq example_memory ByteArray_default (mkByteArray 0 4096) = Some true
  /\ ByteArray_eq example_memory (mkByteArray 3 16) (mkByteArray 3 22) = None.
Proof.
  split; [| split].
  - destruct (ByteArray_eq_reads_only_when_needed example_memory
                (mkByteArray 2 16) (mkByteArray 3 0)) as (_ & H & _).
    apply H. cbn [len]. lia.
  - destruct (ByteArray_eq_reads_only_when_needed example_memory
                ByteArray_default (mkByteArray 0 4096)) as (_ & _ & _ & H).
    apply H. reflexivity.
  - destruct (ByteArray_eq_reads_only_when_needed example_memory
                (mkByteArray 3 16) (mkByteArray 3 22)) as [[_ H] _].
    apply H. cbn [len]. split; [reflexivity |]. split; [lia |].
    right. reflexivity.
Defined.

(** ** Further properties of the kernel dispatcher *)

Section BinaryOutputs.

Context {Ctx : Type} (kernel : BinaryKernel Ctx).
Variables left_arrays right_arrays : list Array.
Variable left_length : Z.

(** The loop only appends to [outputs], one datum per completed iteration,
    and completes fewer iterations than there are chunks ahead. *)
Lemma align_loop_outputs (fuel : nat) :
  forall c ctx outputs r,
    align_loop fuel kernel left_arrays right_arrays left_length c ctx outputs
    = Done r ->
    exists segments,
      r_outputs r = outputs ++ segments
      /\ (List.length segments
          <= remaining_chunks left_arrays right_arrays c - 1)%nat.
Proof.
  induction fuel as [|fuel IH]; intros c ctx outputs r H; [discriminate |].
  cbn [align_loop] in H.
  destruct (elements_compared c <? left_length).
  - destruct (loop_body kernel left_arrays right_arrays c ctx outputs)
      as [c' ctx' outputs' | r' | f] eqn:Hbody; [| | discriminate].
    + destruct (loop_body_Continue _ _ _ _ _ _ _ _ _ Hbody)
        as (la & ra & Hla & Hra & ->).
      pose proof (advance_remaining_chunks left_arrays right_arrays c la ra
                    Hla Hra) as Hdecr.
      assert (Hl : (left_chunk_idx c < List.length left_arrays)%nat)
        by (apply nth_error_Some; congruence).
      assert (Hr : (right_chunk_idx c < List.length right_arrays)%nat)
        by (apply nth_error_Some; congruence).
      assert (Hout : exists output, outputs' = outputs ++ [output]).
      { unfold loop_body in Hbody. rewrite Hla, Hra in Hbody.
        destruct (kernel ctx _ _) as [ctx1 [st out]].
        destruct (ok st); [| discriminate].
        injection Hbody as _ <-. eauto. }
      destruct Hout as (output & ->).
      destruct (IH _ _ _ _ H) as (segments & Hseg & Hlen).
      exists (output :: segments). rewrite Hseg, <- app_assoc.
      split; [reflexivity |]. cbn [List.length].
      unfold remaining_chunks in *. lia.
    + injection H as <-. unfold loop_body in Hbody.
      destruct (nth_error left_arrays (left_chunk_idx c)); [| discriminate].
      destruct (nth_error right_arrays (right_chunk_idx c)); [| discriminate].
      destruct (kernel ctx _ _) as [ctx1 [st out]].
      destruct (ok st); [discriminate |].
      injection Hbody as <-. exists []. cbn. rewrite app_nil_r. split; [auto | lia].
  - injection H as <-. exists []. cbn. rewrite app_nil_r. split; [auto | lia].
Qed.

End BinaryOutputs.

(** Whatever the operands and the kernel, a call that returns has only
    appended to [outputs]: what was there stays in front, and fewer segments
    are added than the two operands have chunks together; none is added when
    the operands are rejected. *)
Theorem InvokeBinaryArrayKernel_appends_boundedly :
  forall (Ctx : Type) (kernel : BinaryKernel Ctx) (ctx : Ctx)
         (left right : Datum) (outputs : list Datum) (r : Result Ctx),
    InvokeBinaryArrayKernel kernel ctx left right outputs = Done r ->
    exists segments,
      r_outputs r = outputs ++ segments
      /\ (List.length segments
          <= List.length (datum_chunks left) + List.length (datum_chunks right) - 1)%nat
      /\ (array_like left = false \/ array_like right = false
          \/ total_length left <> total_length right -> segments = []).
Proof.
  intros Ctx kernel ctx left right outputs r H.
  assert (Hrej : array_like left = false \/ array_like right = false
                 \/ total_length left <> total_length right ->
                 r_outputs r = outputs).
  { intros Hc.
    destruct (array_like left) eqn:Hl.
    - destruct (array_like right) eqn:Hr.
      + destruct Hc as [Hc | [Hc | Hc]]; try discriminate.
        rewrite InvokeBinaryArrayKernel_lengths_rejected in H by assumption.
        injection H as <-. reflexivity.
      + rewrite InvokeBinaryArrayKernel_right_rejected in H by assumption.
        injection H as <-. reflexivity.
    - rewrite InvokeBinaryArrayKernel_left_rejected in H by assumption.
      injection H as <-. reflexivity. }
  unfold InvokeBinaryArrayKernel, datum_chunks in *.
  destruct (resolve left) as [[tl la]|].
  - destruct (resolve right) as [[tr ra]|].
    + destruct (negb (tr =? tl)).
      * injection H as <-. exists []. cbn. rewrite app_nil_r.
        repeat split; auto. lia.
      * destruct (align_loop_outputs kernel la ra tl _ _ _ _ _ H)
          as (segments & Hseg & Hlen).
        exists segments. split; [exact Hseg |]. split.
        -- unfold remaining_chunks in Hlen. cbn in Hlen. lia.
        -- intros Hc. specialize (Hrej Hc). rewrite Hseg in Hrej.
           rewrite <- (app_nil_r outputs) in Hrej at 2.
           apply app_inv_head in Hrej. exact Hrej.
    + injection H as <-. exists []. cbn. rewrite app_nil_r.
      repeat split; auto. lia.
  - injection H as <-. exists []. cbn. rewrite app_nil_r.
    repeat split; auto. lia.
Qed.

Lemma InvokeBinaryArrayKernel_appends_boundedly_witness :
  exists segments,
    r_outputs (replay add_kernel
                 [(array_of [1; 2], mkArray [10; 20; 30; 40; 50] 0 2);
                  (array_of [3; 4; 5], mkArray [10; 20; 30; 40; 50] 2 3)]
                 tt [DatumScalar])
    = [DatumScalar] ++ segments
    /\ (List.length segments <= 2)%nat.
Proof.
  destruct (InvokeBinaryArrayKernel_appends_boundedly unit add_kernel tt
              (DatumChunkedArray (chunked_of [[1; 2]; [3; 4; 5]]))
              (DatumArray (array_of [10; 20; 30; 40; 50])) [DatumScalar]
              (replay add_kernel
                 [(array_of [1; 2], mkArray [10; 20; 30; 40; 50] 0 2);
                  (array_of [3; 4; 5], mkArray [10; 20; 30; 40; 50] 2 3)]
                 tt [DatumScalar]))
    as (segments & Hs & Hl & _).
  - reflexivity.
  - exists segments. split; [exact Hs | exact Hl].
Defined.

Section Columns.

Lemma array_elements_length (a : Array) :
  (List.length (array_elements a) <= Z.to_nat (array_length a))%nat.
Proof. unfold array_elements. apply firstn_le_length. Qed.

Lemma array_elements_empty (a : Array) :
  array_length a <= 0 -> array_elements a = [].
Proof.
  intros H. unfold array_elements.
  replace (Z.to_nat (array_length a)) with 0%nat by lia. reflexivity.
Qed.

Lemma skipn_past_elements (a : Array) (n : Z) :
  array_length a <= n -> skipn (Z.to_nat n) (array_elements a) = [].
Proof.
  intros H. apply skipn_all2.
  pose proof (array_elements_length a). lia.
Qed.

(** The elements of a slice are those of the array it is cut from. *)
Lemma array_elements_Slice (a : Array) (start n : Z) :
  0 <= array_offset a -> 0 <= start -> 0 <= n <= array_length a - start ->
  array_elements (Slice a start n)
  = firstn (Z.to_nat n) (skipn (Z.to_nat start) (array_elements a)).
Proof.
  intros Ho Hs Hn. unfold array_elements, Slice.
  cbn [array_buffer array_offset array_length].
  rewrite skipn_firstn_comm, firstn_firstn, skipn_skipn.
  rewrite Z2Nat.inj_add by lia.
  f_equal; [lia | f_equal; lia].
Qed.

Lemma column_cons (a : Array) (rest : list Array) :
  column (a :: rest) = array_elements a ++ column rest.
Proof. reflexivity. Qed.

Lemma column_suffix_0 (arrays : list Array) :
  Forall (fun a => 0 <= array_length a) arrays ->
  column_suffix arrays 0 = column arrays.
Proof.
  induction 1 as [|a rest Ha Hrest IH]; [reflexivity |].
  cbn [column_suffix]. rewrite column_cons.
  destruct (Z.ltb_spec 0 (array_length a)) as [Hlt | Hge].
  - reflexivity.
  - replace (0 - array_length a) with 0 by lia.
    rewrite IH. rewrite array_elements_empty by lia. reflexivity.
Qed.

End Columns.

Section ColumnSuffix.

Lemma column_suffix_at (arrays : list Array) :
  Forall (fun a => 0 <= array_length a) arrays ->
  forall idx a start pos,
    nth_error arrays idx = Some a ->
    pos = sum_lengths (firstn idx arrays) + start ->
    0 <= start <= array_length a ->
    column_suffix arrays pos
    = skipn (Z.to_nat start) (array_elements a) ++ column (skipn (S idx) arrays).
Proof.
  induction 1 as [|b rest Hb Hrest IH]; intros idx a start pos Hn Hpos Hs.
  - destruct idx; discriminate.
  - destruct idx as [|idx].
    + injection Hn as ->. cbn in Hpos. subst pos.
      cbn [column_suffix skipn]. replace (0 + start) with start by lia.
      destruct (Z.ltb_spec start (array_length a)) as [Hlt | Hge].
      * reflexivity.
      * replace (start - array_length a) with 0 by lia.
        rewrite (column_suffix_0 rest Hrest).
        rewrite skipn_past_elements by lia. reflexivity.
    + cbn [nth_error] in Hn.
      change (firstn (S idx) (b :: rest)) with (b :: firstn idx rest) in Hpos.
      cbn [sum_lengths fold_right] in Hpos.
      fold (sum_lengths (firstn idx rest)) in Hpos.
      assert (0 <= sum_lengths (firstn idx rest)).
      { apply sum_lengths_nonneg. rewrite <- (firstn_skipn idx rest) in Hrest.
        apply Forall_app in Hrest. apply Hrest. }
      cbn [column_suffix].
      destruct (Z.ltb_spec pos (array_length b)) as [Hlt | Hge]; [lia |].
      change (skipn (S (S idx)) (b :: rest)) with (skipn (S idx) rest).
      apply (IH idx a start); auto. lia.
Qed.

Lemma column_suffix_end (arrays : list Array) :
  Forall (fun a => 0 <= array_length a) arrays ->
  forall pos, sum_lengths arrays <= pos -> column_suffix arrays pos = [].
Proof.
  induction 1 as [|b rest Hb Hrest IH]; intros pos Hpos; [reflexivity |].
  cbn [sum_lengths fold_right] in Hpos. fold (sum_lengths rest) in Hpos.
  pose proof (sum_lengths_nonneg rest Hrest).
  cbn [column_suffix].
  destruct (Z.ltb_spec pos (array_length b)) as [Hlt | Hge]; [lia |].
  apply IH. lia.
Qed.

(** Consecutive slices that run up to the end of a column hold, one after
    the other, what the column holds from their starting position on. *)
Lemma side_calls_cover (arrays : list Array) (slices : list Array) :
  Forall (fun a => 0 <= array_length a) arrays ->
  Forall (fun a => 0 <= array_offset a) arrays ->
  forall pos,
    side_calls arrays pos slices ->
    pos + sum_lengths slices = sum_lengths arrays ->
    column slices = column_suffix arrays pos.
Proof.
  intros Hn Ho. induction slices as [|s slices IH]; intros pos Hcalls Hsum.
  - cbn in Hsum. rewrite column_suffix_end by (auto; lia). reflexivity.
  - destruct Hcalls as [(idx & a & start & Hnth & Hpos & Hs & Hlen & Hslice) Hrest].
    cbn [sum_lengths fold_right] in Hsum. fold (sum_lengths slices) in Hsum.
    rewrite column_cons, (IH _ Hrest) by lia.
    rewrite (column_suffix_at arrays Hn idx a start pos Hnth Hpos) by lia.
    rewrite (column_suffix_at arrays Hn idx a (start + array_length s)
               (pos + array_length s) Hnth) by lia.
    rewrite app_assoc. f_equal.
    pose proof (Forall_nth_error _ _ _ _ Ho Hnth) as Hoff. cbn beta in Hoff.
    assert (Hel : array_elements s
                  = firstn (Z.to_nat (array_length s))
                           (skipn (Z.to_nat start) (array_elements a))).
    { rewrite Hslice at 1. apply array_elements_Slice; lia. }
    rewrite Hel.
    etransitivity;
      [| exact (firstn_skipn (Z.to_nat (array_length s))
                  (skipn (Z.to_nat start) (array_elements a)))].
    f_equal. rewrite skipn_skipn. f_equal. lia.
Qed.

Lemma aligned_calls_sides (left_arrays right_arrays : list Array)
    (calls : list (Array * Array)) :
  forall pos,
    aligned_calls left_arrays right_arrays pos calls ->
    side_calls left_arrays pos (map fst calls)
    /\ side_calls right_arrays pos (map snd calls)
    /\ sum_lengths (map fst calls) = sum_call_lengths calls
    /\ sum_lengths (map snd calls) = sum_call_lengths calls.
Proof.
  induction calls as [|p calls IH]; intros pos H.
  - cbn. auto.
  - destruct H as [(li & ri & la & ra & ls & rs & Hla & Hra & Hpl & Hpr & Hls
                    & Hrs & H) Hrest].
    cbv zeta in H. destruct H as (Hc & Hf & Hs).
    assert (Hlf : array_length (fst p)
                  = Z.min (array_length la - ls) (array_length ra - rs))
      by (rewrite Hf; reflexivity).
    assert (Hls' : array_length (snd p)
                   = Z.min (array_length la - ls) (array_length ra - rs))
      by (rewrite Hs; reflexivity).
    destruct (IH _ Hrest) as (IHl & IHr & IHsl & IHsr).
    cbn [map side_calls sum_lengths sum_call_lengths fold_right].
    fold (sum_lengths (map fst calls)). fold (sum_lengths (map snd calls)).
    fold (sum_call_lengths calls).
    split; [| split; [| split; [lia | lia]]].
    + split; [| exact IHl].
      exists li, la, ls. rewrite Hlf. repeat split; auto; try lia.
    + split; [| rewrite Hls', <- Hlf; exact IHr].
      exists ri, ra, rs. rewrite Hls'. repeat split; auto; try lia.
Qed.

End ColumnSuffix.

(** What the dispatcher does on well-formed operands of equal total length,
    with what is known of the chunk lists. *)
Lemma InvokeBinaryArrayKernel_aligned (left right : Datum) :
  well_formed left = true -> well_formed right = true ->
  total_length left = total_length right ->
  exists (total : Z) (calls : list (Array * Array)),
    resolve left = Some (total, datum_chunks left)
    /\ resolve right = Some (total, datum_chunks right)
    /\ Forall (fun a => 0 <= array_length a) (datum_chunks left)
    /\ Forall (fun a => 0 <= array_length a) (datum_chunks right)
    /\ sum_lengths (datum_chunks left) = total
    /\ sum_lengths (datum_chunks right) = total
    /\ aligned_calls (datum_chunks left) (datum_chunks right) 0 calls
    /\ sum_call_lengths calls = total
    /\ forall (Ctx : Type) (kernel : BinaryKernel Ctx) ctx outputs,
         InvokeBinaryArrayKernel kernel ctx left right outputs
         = Done (replay kernel calls ctx outputs).
Proof.
  intros Hwl Hwr Heq.
  destruct (well_formed_resolve left Hwl) as (tl & la & Hl & Hnl & Hsl).
  destruct (well_formed_resolve right Hwr) as (tr & ra & Hr & Hnr & Hsr).
  pose proof (equal_totals _ _ _ _ _ _ Hl Hr Heq) as <-.
  destruct (align_loop_replay la ra tl Hnl Hnr Hsl Hsr (loop_fuel la ra) cursor0)
    as (calls & Hcalls & Hsum & Hrun).
  { apply cursor_inv_start. }
  { unfold remaining_chunks, loop_fuel. cbn. lia. }
  cbn [elements_compared cursor0] in Hcalls, Hsum. rewrite Z.sub_0_r in Hsum.
  exists tl, calls. unfold datum_chunks. rewrite Hl, Hr.
  repeat split; auto.
  intros Ctx kernel ctx outputs.
  rewrite (InvokeBinaryArrayKernel_resolved kernel ctx left right outputs
             tl la ra Hl Hr).
  apply Hrun.
Qed.

Lemma nonneg_offsets_Forall (arrays : list Array) :
  nonneg_offsets arrays = true ->
  Forall (fun a => 0 <= array_offset a) arrays.
Proof.
  unfold nonneg_offsets. intros H. apply Forall_forall. intros a Ha.
  rewrite forallb_forall in H. apply Z.leb_le. apply H. exact Ha.
Qed.

(** The operands handed to the kernel hold, call after call, the whole left
    column and the whole right column, in order: however the two operands
    are chunked, the kernel sees the same data, only cut differently. *)
Theorem InvokeBinaryArrayKernel_covers_columns :
  forall left right : Datum,
    well_formed left = true -> well_formed right = true ->
    total_length left = total_length right ->
    nonneg_offsets (datum_chunks left) = true ->
    nonneg_offsets (datum_chunks right) = true ->
    exists calls : list (Array * Array),
      (forall (Ctx : Type) (kernel : BinaryKernel Ctx) ctx outputs,
          InvokeBinaryArrayKernel kernel ctx left right outputs
          = Done (replay kernel calls ctx outputs))
      /\ column (map fst calls) = column (datum_chunks left)
      /\ column (map snd calls) = column (datum_chunks right).
Proof.
  intros left right Hwl Hwr Heq Hol Hor.
  destruct (InvokeBinaryArrayKernel_aligned left right Hwl Hwr Heq)
    as (total & calls & _ & _ & Hnl & Hnr & Hsl & Hsr & Hcalls & Hsum & Hrun).
  destruct (aligned_calls_sides _ _ _ _ Hcalls) as (Hl & Hr & Hsfl & Hsfr).
  exists calls. split; [exact Hrun |]. split.
  - rewrite (side_calls_cover _ _ Hnl (nonneg_offsets_Forall _ Hol) 0 Hl) by lia.
    apply column_suffix_0. exact Hnl.
  - rewrite (side_calls_cover _ _ Hnr (nonneg_offsets_Forall _ Hor) 0 Hr) by lia.
    apply column_suffix_0. exact Hnr.
Qed.

Lemma InvokeBinaryArrayKernel_covers_columns_witness :
  let left := DatumChunkedArray (chunked_of [[1; 2]; [3; 4; 5]]) in
  let right := DatumChunkedArray (chunked_of [[10]; [20; 30; 40]; []; [50]]) in
  exists calls : list (Array * Array),
    InvokeBinaryArrayKernel add_kernel tt left right []
    = Done (replay add_kernel calls tt [])
    /\ column (map fst calls) = [1; 2; 3; 4; 5]
    /\ column (map snd calls) = [10; 20; 30; 40; 50].
Proof.
  intros left right.
  destruct (InvokeBinaryArrayKernel_covers_columns left right)
    as (calls & Hrun & Hl & Hr); try reflexivity.
  exists calls. split; [apply Hrun |]. split; [exact Hl | exact Hr].
Defined.

Section SameLayout.

Variables left_arrays right_arrays : list Array.
Hypothesis Hlayout : map array_length left_arrays = map array_length right_arrays.
Hypothesis Hpositive : Forall (fun a => 0 < array_length a) left_arrays.

Lemma Slice_whole (a : Array) : Slice a 0 (array_length a) = a.
Proof. destruct a. unfold Slice. cbn. f_equal. lia. Qed.

Lemma same_layout_length : List.length right_arrays = List.length left_arrays.
Proof.
  rewrite <- (length_map array_length right_arrays), <- Hlayout.
  apply length_map.
Qed.

Lemma same_layout_nth (i : nat) (a : Array) :
  nth_error left_arrays i = Some a ->
  exists b, nth_error right_arrays i = Some b /\ array_length b = array_length a.
Proof.
  intros Ha.
  pose proof (map_nth_error array_length i left_arrays Ha) as Hm.
  rewrite Hlayout in Hm.
  destruct (nth_error right_arrays i) as [b|] eqn:Hb.
  - exists b. split; [reflexivity |].
    rewrite (map_nth_error array_length i right_arrays Hb) in Hm. congruence.
  - apply nth_error_None in Hb. rewrite <- (length_map array_length) in Hb.
    apply nth_error_None in Hb. congruence.
Qed.

Lemma positive_nonneg :
  Forall (fun a => 0 <= array_length a) left_arrays.
Proof.
  eapply Forall_impl; [| exact Hpositive]. cbn. intros a H. lia.
Qed.

Lemma same_layout_progress (i : nat) (a : Array) :
  nth_error left_arrays i = Some a ->
  sum_lengths (firstn i left_arrays) < sum_lengths left_arrays.
Proof.
  intros Ha. rewrite (sum_lengths_split left_arrays i).
  rewrite (skipn_nth_error _ _ _ Ha).
  cbn [sum_lengths fold_right]. fold (sum_lengths (skipn (S i) left_arrays)).
  pose proof (sum_lengths_nonneg _ (Forall_skipn _ _ (S i) positive_nonneg)).
  pose proof (Forall_nth_error _ _ _ _ Hpositive Ha) as Hp. cbn beta in Hp.
  lia.
Qed.

(** With the same chunk lengths on both sides the loop pairs the chunks. *)
Lemma align_loop_same_layout {Ctx : Type} (kernel : BinaryKernel Ctx)
    (fuel : nat) :
  forall i ctx outputs,
    (List.length left_arrays - i + (List.length right_arrays - i) < fuel)%nat ->
    align_loop fuel kernel left_arrays right_arrays (sum_lengths left_arrays)
               (mkCursor i 0 i 0 (sum_lengths (firstn i left_arrays)))
               ctx outputs
    = Done (replay kernel (combine (skipn i left_arrays) (skipn i right_arrays))
                   ctx outputs).
Proof.
  induction fuel as [|fuel IH]; intros i ctx outputs Hfuel; [lia |].
  cbn [align_loop elements_compared].
  destruct (nth_error left_arrays i) as [a|] eqn:Ha.
  - destruct (same_layout_nth i a Ha) as (b & Hb & Hlen).
    pose proof (same_layout_progress i a Ha) as Hlt.
    apply Z.ltb_lt in Hlt. rewrite Hlt.
    unfold loop_body. cbn [left_chunk_idx right_chunk_idx]. rewrite Ha, Hb.
    unfold common_length_of.
    cbn [left_start_idx right_start_idx].
    rewrite !Z.sub_0_r.
    replace (Z.min (array_length a) (array_length b)) with (array_length a)
      by lia.
    rewrite Slice_whole. rewrite <- Hlen. rewrite Slice_whole.
    rewrite (skipn_nth_error _ _ _ Ha), (skipn_nth_error _ _ _ Hb).
    cbn [combine replay].
    destruct (kernel ctx (DatumArray a) (DatumArray b)) as [ctx1 [st out]].
    destruct (ok st); [| reflexivity].
    unfold advance.
    cbn [left_start_idx right_start_idx left_chunk_idx right_chunk_idx
         elements_compared].
    rewrite Hlen, Z.add_0_l, Z.eqb_refl.
    rewrite <- (sum_lengths_firstn_S _ _ _ Ha).
    apply IH.
    assert ((i < List.length left_arrays)%nat)
      by (apply nth_error_Some; congruence).
    lia.
  - apply nth_error_None in Ha.
    rewrite firstn_all2 by exact Ha. rewrite Z.ltb_irrefl.
    rewrite (skipn_all2 left_arrays) by exact Ha. reflexivity.
Qed.

End SameLayout.

Lemma sum_lengths_layout (xs ys : list Array) :
  map array_length xs = map array_length ys -> sum_lengths xs = sum_lengths ys.
Proof.
  revert ys. induction xs as [|x xs IH]; intros [|y ys] H; try discriminate.
  - reflexivity.
  - cbn in H. injection H as Hh Ht. cbn [sum_lengths fold_right].
    fold (sum_lengths xs). fold (sum_lengths ys). rewrite (IH ys Ht). lia.
Qed.

(** When both operands are cut the same way into non-empty chunks (two
    single arrays of one positive length are the simplest case), the kernel
    is called once per chunk, on the chunks themselves in their order: no
    chunk is cut. *)
Theorem InvokeBinaryArrayKernel_same_layout :
  forall left right : Datum,
    well_formed left = true -> well_formed right = true ->
    map array_length (datum_chunks left) = map array_length (datum_chunks right) ->
    Forall (fun a => 0 < array_length a) (datum_chunks left) ->
    forall (Ctx : Type) (kernel : BinaryKernel Ctx) ctx outputs,
      InvokeBinaryArrayKernel kernel ctx left right outputs
      = Done (replay kernel (combine (datum_chunks left) (datum_chunks right))
                     ctx outputs).
Proof.
  intros left right Hwl Hwr Hlay Hpos Ctx kernel ctx outputs.
  destruct (well_formed_resolve left Hwl) as (tl & la & Hl & Hnl & Hsl).
  destruct (well_formed_resolve right Hwr) as (tr & ra & Hr & Hnr & Hsr).
  unfold datum_chunks in *. rewrite Hl, Hr in *.
  assert (Ht : tr = tl) by (rewrite <- Hsl, <- Hsr; symmetry;
                            apply sum_lengths_layout; exact Hlay).
  rewrite Ht in Hr.
  rewrite (InvokeBinaryArrayKernel_resolved kernel ctx left right outputs
             tl la ra Hl Hr).
  rewrite <- Hsl.
  apply (align_loop_same_layout la ra Hlay Hpos kernel (loop_fuel la ra) 0).
  unfold loop_fuel. lia.
Qed.

Lemma InvokeBinaryArrayKernel_same_layout_witness :
  InvokeBinaryArrayKernel add_kernel tt
    (DatumChunkedArray (chunked_of [[1; 2]; [3]]))
    (DatumChunkedArray (chunked_of [[10; 20]; [30]])) []
  = Done (replay add_kernel
            [(array_of [1; 2], array_of [10; 20]); (array_of [3], array_of [30])]
            tt []).
Proof.
  apply (InvokeBinaryArrayKernel_same_layout
           (DatumChunkedArray (chunked_of [[1; 2]; [3]]))
           (DatumChunkedArray (chunked_of [[10; 20]; [30]]))).
  - reflexivity.
  - reflexivity.
  - reflexivity.
  - repeat constructor.
Defined.

Section DatumForm.

Context {Ctx : Type} (kernel : BinaryKernel Ctx).

Lemma replay_array_kernel :
  array_kernel kernel ->
  forall calls ctx outputs,
    exists ctx' arrays,
      replay kernel calls ctx outputs
      = mkResult ctx' Status_OK (outputs ++ map DatumArray arrays)
      /\ map array_length arrays = map (fun p => array_length (fst p)) calls.
Proof.
  intros Hk. induction calls as [|[l r] calls IH]; intros ctx outputs.
  - exists ctx, []. cbn. rewrite app_nil_r. auto.
  - cbn [replay].
    destruct (Hk ctx l r) as (ctx1 & st & a & -> & Hok & Hlen).
    rewrite Hok.
    destruct (IH ctx1 (outputs ++ [DatumArray a])) as (ctx' & arrays & -> & Hm).
    exists ctx', (a :: arrays). rewrite <- app_assoc.
    split; [reflexivity |]. cbn [map fst]. rewrite Hm, Hlen. reflexivity.
Qed.

Lemma wrap_each_arrays debug (arrays : list Array) :
  forall acc, wrap_each debug (map DatumArray arrays) acc = Done (acc ++ arrays).
Proof.
  induction arrays as [|a arrays IH]; intros acc.
  - cbn. rewrite app_nil_r. reflexivity.
  - cbn [map wrap_each kind Datum_array]. unfold DCHECK_fails.
    cbn [DatumKind_eqb negb]. rewrite andb_false_r.
    rewrite IH, <- app_assoc. reflexivity.
Qed.

Lemma sum_lengths_map_length (xs : list Array) (ls : list Z) :
  map array_length xs = ls -> sum_lengths xs = fold_right Z.add 0 ls.
Proof.
  intros <-. induction xs as [|x xs IH]; [reflexivity |].
  cbn [sum_lengths fold_right map]. fold (sum_lengths xs). rewrite IH.
  reflexivity.
Qed.

Lemma sum_call_lengths_map (calls : list (Array * Array)) :
  sum_call_lengths calls
  = fold_right Z.add 0 (map (fun p => array_length (fst p)) calls).
Proof.
  induction calls as [|p calls IH]; [reflexivity |].
  cbn [sum_call_lengths fold_right map]. fold (sum_call_lengths calls).
  rewrite IH. reflexivity.
Qed.

End DatumForm.

Lemma Forall_nonneg_lengths (arrays : list Array) :
  Forall (fun a => 0 <= array_length a) arrays -> nonneg_lengths arrays = true.
Proof.
  intros H. unfold nonneg_lengths. apply forallb_forall.
  intros a Ha. apply Z.leb_le. rewrite Forall_forall in H. auto.
Qed.

(** With a chunked left operand holding at least one element and a kernel
    that always succeeds with an array as long as its left operand, the
    datum-returning form returns [OK] with a chunked array of at least one
    chunk, in debug and release builds alike; the result is well-formed and
    has the total length of the operands, so it can be an operand itself. *)
Theorem InvokeBinaryArrayKernelDatum_chunked_left :
  forall (Ctx : Type) (kernel : BinaryKernel Ctx) (debug : bool) (ctx : Ctx)
         (c : ChunkedArray) (right output : Datum),
    well_formed (DatumChunkedArray c) = true -> well_formed right = true ->
    total_length (DatumChunkedArray c) = total_length right ->
    0 < chunked_length c ->
    array_kernel kernel ->
    exists ctx' arrays,
      arrays <> []
      /\ InvokeBinaryArrayKernelDatum debug kernel ctx (DatumChunkedArray c) right
                                      output
         = Done (mkDatumResult ctx' Status_OK
                   (DatumChunkedArray (mkChunkedArray arrays (sum_lengths arrays))))
      /\ sum_lengths arrays = chunked_length c
      /\ well_formed
           (DatumChunkedArray (mkChunkedArray arrays (sum_lengths arrays))) = true
      /\ total_length
           (DatumChunkedArray (mkChunkedArray arrays (sum_lengths arrays)))
         = total_length right.
Proof.
  intros Ctx kernel debug ctx c right output Hwl Hwr Heq Hpos Hk.
  destruct (InvokeBinaryArrayKernel_aligned _ _ Hwl Hwr Heq)
    as (total & calls & Hl & _ & _ & _ & _ & _ & Hcalls & Hsum & Hrun).
  destruct (replay_array_kernel kernel Hk calls ctx []) as (ctx' & arrays & Hrep & Hm).
  cbn [app] in Hrep.
  assert (Hs : sum_lengths arrays = total).
  { rewrite (sum_lengths_map_length _ _ Hm), <- sum_call_lengths_map. exact Hsum. }
  assert (Ht : total = chunked_length c) by (cbn in Hl; congruence).
  assert (Hne : arrays <> []).
  { intros ->. cbn [sum_lengths fold_right] in Hs. lia. }
  exists ctx', arrays.
  split; [exact Hne | split; [| split; [congruence | split]]].
  - unfold InvokeBinaryArrayKernelDatum. rewrite Hrun, Hrep.
    cbn [r_status r_outputs r_ctx ok Status_OK code WrapDatumsLike].
    rewrite wrap_each_arrays. cbn [app].
    rewrite (make_ChunkedArray_nonempty arrays Hne). reflexivity.
  - cbn [well_formed chunks chunked_length].
    rewrite Z.eqb_refl, andb_true_r.
    apply Forall_nonneg_lengths.
    pose proof (aligned_calls_equal_lengths _ _ _ _ Hcalls) as Hnn.
    apply Forall_forall. intros a Ha.
    apply In_nth_error in Ha. destruct Ha as (i & Hi).
    pose proof (map_nth_error array_length i arrays Hi) as Hmi.
    rewrite Hm in Hmi. apply nth_error_In in Hmi.
    apply in_map_iff in Hmi. destruct Hmi as (p & Hp & Hin).
    rewrite Forall_forall in Hnn. destruct (Hnn p Hin) as [_ H0]. lia.
  - rewrite <- Heq. unfold total_length. cbn. f_equal. congruence.
Qed.

Lemma InvokeBinaryArrayKernelDatum_chunked_left_witness :
  exists ctx' arrays,
    InvokeBinaryArrayKernelDatum true add_kernel tt
      (DatumChunkedArray (chunked_of [[1; 2]; [3; 4; 5]]))
      (DatumArray (array_of [10; 20; 30; 40; 50])) DatumNone
    = Done (mkDatumResult ctx' Status_OK
              (DatumChunkedArray (mkChunkedArray arrays (sum_lengths arrays))))
    /\ arrays <> []
    /\ sum_lengths arrays = 5.
Proof.
  destruct (InvokeBinaryArrayKernelDatum_chunked_left unit add_kernel true tt
              (chunked_of [[1; 2]; [3; 4; 5]])
              (DatumArray (array_of [10; 20; 30; 40; 50])) DatumNone)
    as (ctx' & arrays & Hne & Hrun & Hsum & _).
  - reflexivity.
  - reflexivity.
  - reflexivity.
  - reflexivity.
  - intros ctx l r. exists ctx, Status_OK.
    eexists. split; [reflexivity |]. split; reflexivity.
  - exists ctx', arrays. split; [exact Hrun | split; [exact Hne | exact Hsum]].
Defined.

(** On two single arrays of the same positive length the datum-returning
    form is one kernel call on the two arrays as they are: its output is the
    kernel's when that is an array, a kernel failure is passed on with
    [*output] untouched, and no check can fail. *)
Theorem InvokeBinaryArrayKernelDatum_two_arrays :
  forall (Ctx : Type) (kernel : BinaryKernel Ctx) (debug : bool) (ctx : Ctx)
         (a b : Array) (output : Datum),
    0 < array_length a -> array_length b = array_length a ->
    InvokeBinaryArrayKernelDatum debug kernel ctx (DatumArray a) (DatumArray b)
                                 output
    = let '(ctx', (st, d)) := kernel ctx (DatumArray a) (DatumArray b) in
      if ok st then
        match d with
        | DatumArray x => Done (mkDatumResult ctx' Status_OK (DatumArray x))
        | _ => Crash BadDatumAccess
        end
      else Done (mkDatumResult ctx' st output).
Proof.
  intros Ctx kernel debug ctx a b output Hpos Hlen.
  assert (Hlay : map array_length [a] = map array_length [b])
    by (cbn; congruence).
  assert (Hp : Forall (fun x => 0 < array_length x) [a])
    by (constructor; [exact Hpos | constructor]).
  assert (Hrun : InvokeBinaryArrayKernel kernel ctx (DatumArray a) (DatumArray b) []
                 = Done (replay kernel [(a, b)] ctx [])).
  { unfold InvokeBinaryArrayKernel. cbn [resolve]. unfold MakeArray.
    rewrite Hlen, Z.eqb_refl. cbn [negb].
    pose proof (align_loop_same_layout [a] [b] Hlay Hp kernel
                  (loop_fuel [a] [b]) 0 ctx []) as H.
    cbn [sum_lengths fold_right firstn skipn combine] in H.
    rewrite Z.add_0_r in H. apply H. unfold loop_fuel. cbn. lia. }
  unfold InvokeBinaryArrayKernelDatum. rewrite Hrun. cbn [replay].
  destruct (kernel ctx (DatumArray a) (DatumArray b)) as [ctx1 [st d]].
  destruct (ok st) eqn:Hok.
  - cbn [r_status r_outputs r_ctx ok Status_OK code app WrapDatumsLike
         List.length nth_error].
    unfold DCHECK_fails. cbn [Nat.eqb negb]. rewrite andb_false_r.
    destruct d; reflexivity.
  - cbn [r_status r_ctx]. rewrite Hok. reflexivity.
Qed.

Lemma InvokeBinaryArrayKernelDatum_two_arrays_witness :
  InvokeBinaryArrayKernelDatum true add_kernel tt
    (DatumArray (array_of [1; 2; 3])) (DatumArray (array_of [10; 20; 30])) DatumNone
  = Done (mkDatumResult tt Status_OK (DatumArray (mkArray [11; 22; 33] 0 3))).
Proof.
  rewrite (InvokeBinaryArrayKernelDatum_two_arrays unit add_kernel true tt
             (array_of [1; 2; 3]) (array_of [10; 20; 30]) DatumNone).
  - reflexivity.
  - cbn. lia.
  - reflexivity.
Defined.

Lemma option_Z_eq_dec (x y : option Z) : x = y \/ x <> y.
Proof.
  destruct x as [x|], y as [y|]; try (right; discriminate); [| left; reflexivity].
  destruct (Z.eq_dec x y) as [-> | H]; [left; reflexivity | right; congruence].
Qed.

(** What the datum-returning form leaves behind [output]: on [OK] a datum of
    the kind of [left], the operands having been array-like and of equal
    total length; on any other status the datum that was there before. *)
Theorem InvokeBinaryArrayKernelDatum_output :
  forall (Ctx : Type) (kernel : BinaryKernel Ctx) (debug : bool) (ctx : Ctx)
         (left right output : Datum) (res : DatumResult Ctx),
    InvokeBinaryArrayKernelDatum debug kernel ctx left right output = Done res ->
    (ok (d_status res) = true ->
     kind (d_output res) = kind left
     /\ array_like left = true /\ array_like right = true
     /\ total_length left = total_length right)
    /\ (ok (d_status res) = false -> d_output res = output).
Proof.
  intros Ctx kernel debug ctx left right output res H. split.
  - intros Hok. split.
    + exact (InvokeBinaryArrayKernelDatum_kind debug kernel ctx left right
               output res H Hok).
    + unfold InvokeBinaryArrayKernelDatum in H.
      destruct (InvokeBinaryArrayKernel kernel ctx left right []) as [r | f] eqn:Hrun;
        [| discriminate].
      assert (Hr : ok (r_status r) = true).
      { destruct (ok (r_status r)) eqn:Hst; [reflexivity |].
        injection H as <-. cbn [d_status] in Hok. congruence. }
      destruct (array_like left) eqn:Hl.
      * destruct (array_like right) eqn:Hrt.
        -- repeat split.
           destruct (option_Z_eq_dec (total_length left) (total_length right))
             as [He | Hne]; [exact He |].
           rewrite InvokeBinaryArrayKernel_lengths_rejected in Hrun by assumption.
           injection Hrun as <-. discriminate Hr.
        -- rewrite InvokeBinaryArrayKernel_right_rejected in Hrun by assumption.
           injection Hrun as <-. discriminate Hr.
      * rewrite InvokeBinaryArrayKernel_left_rejected in Hrun by assumption.
        injection Hrun as <-. discriminate Hr.
  - intros Hok. unfold InvokeBinaryArrayKernelDatum in H.
    destruct (InvokeBinaryArrayKernel kernel ctx left right []) as [r | f];
      [| discriminate].
    destruct (ok (r_status r)) eqn:Hst.
    + destruct (WrapDatumsLike debug left (r_outputs r)); [| discriminate].
      injection H as <-. discriminate Hok.
    + injection H as <-. reflexivity.
Qed.

Lemma InvokeBinaryArrayKernelDatum_output_witness :
  exists res,
    InvokeBinaryArrayKernelDatum true add_kernel tt
      (DatumArray (array_of [1; 2; 3; 4; 5]))
      (DatumChunkedArray (chunked_of [[1; 2; 3]; [4; 5; 6]])) DatumScalar
    = Done res
    /\ d_output res = DatumScalar.
Proof.
  eexists. split; [reflexivity |].
  eapply (InvokeBinaryArrayKernelDatum_output unit add_kernel true tt
            (DatumArray (array_of [1; 2; 3; 4; 5]))
            (DatumChunkedArray (chunked_of [[1; 2; 3]; [4; 5; 6]])) DatumScalar).
  - reflexivity.
  - reflexivity.
Defined.

(** For operands of total length 0 the kernel is never called, however they
    are chunked: the vector form returns [OK] with context and [outputs] as
    they were.  The datum form has then no segment to wrap and hands back
    no datum: for a single-array [left] it stops at the size check when
    checks are compiled in and reads [datums[0]] of an empty vector
    otherwise; for a chunked [left] there is no chunk to build the chunked
    array from. *)
Theorem InvokeBinaryArrayKernel_empty_operands :
  forall (Ctx : Type) (kernel : BinaryKernel Ctx) (ctx : Ctx)
         (left right : Datum) (outputs : list Datum),
    total_length left = Some 0 -> total_length right = Some 0 ->
    InvokeBinaryArrayKernel kernel ctx left right outputs
    = Done (mkResult ctx Status_OK outputs)
    /\ (forall debug output res,
          InvokeBinaryArrayKernelDatum debug kernel ctx left right output
          <> Done res)
    /\ (forall debug output a,
          left = DatumArray a ->
          InvokeBinaryArrayKernelDatum debug kernel ctx left right output
          = Crash (if debug then CheckFailed else OutOfBounds)).
Proof.
  intros Ctx kernel ctx left right outputs Hl Hr.
  assert (Hrun : forall outs,
             InvokeBinaryArrayKernel kernel ctx left right outs
             = Done (mkResult ctx Status_OK outs)).
  { intros outs. unfold InvokeBinaryArrayKernel, total_length in *.
    destruct (resolve left) as [[tl la]|]; [| discriminate].
    destruct (resolve right) as [[tr ra]|]; [| discriminate].
    cbn in Hl, Hr. injection Hl as ->. injection Hr as ->. reflexivity. }
  split; [apply Hrun |]. split.
  - intros debug output res. unfold InvokeBinaryArrayKernelDatum.
    rewrite Hrun. cbn [r_status r_outputs r_ctx ok Status_OK code].
    destruct left; try discriminate Hl; destruct debug; discriminate.
  - intros debug output a ->. unfold InvokeBinaryArrayKernelDatum.
    rewrite Hrun. destruct debug; reflexivity.
Qed.

Lemma InvokeBinaryArrayKernel_empty_operands_witness :
  r_ctx_of (InvokeBinaryArrayKernel logging_kernel []
              (DatumChunkedArray (chunked_of [[]; []]))
              (DatumArray (array_of [])) [])
  = Some []
  /\ forall res,
       InvokeBinaryArrayKernelDatum false logging_kernel []
         (DatumChunkedArray (chunked_of [[]; []]))
         (DatumArray (array_of [])) DatumNone
       <> Done res.
Proof.
  destruct (InvokeBinaryArrayKernel_empty_operands _ logging_kernel []
              (DatumChunkedArray (chunked_of [[]; []]))
              (DatumArray (array_of [])) []) as (H & Hnone & _).
  - reflexivity.
  - reflexivity.
  - split.
    + rewrite H. reflexivity.
    + intros res. exact (Hnone false DatumNone res).
Defined.

Section Unary.

Context {Ctx : Type} (kernel : UnaryKernel Ctx).


Lemma unary_chunks_app (xs ys : list Array) :
  forall ctx outputs,
    unary_chunks kernel ctx (xs ++ ys) outputs
    = (let r := unary_chunks kernel ctx xs outputs in
       if ok (r_status r)
       then unary_chunks kernel (r_ctx r) ys (r_outputs r)
       else r).
Proof.
  induction xs as [|x xs IH]; intros ctx outputs.
  - reflexivity.
  - cbn [app unary_chunks].
    destruct (kernel ctx (DatumArray x)) as [ctx1 [st out]].
    destruct (ok st) eqn:Hok.
    + apply IH.
    + cbn [r_status]. rewrite Hok. reflexivity.
Qed.

Lemma unary_chunks_arrays (rest : list Array) :
  unary_array_kernel kernel ->
  forall ctx outputs,
    ok (r_status (unary_chunks kernel ctx rest outputs)) = true ->
    exists arrays,
      r_outputs (unary_chunks kernel ctx rest outputs)
      = outputs ++ map DatumArray arrays
      /\ List.length arrays = List.length rest.
Proof.
  intros Hk. induction rest as [|chunk rest IH]; intros ctx outputs Hok.
  - exists []. cbn. rewrite app_nil_r. auto.
  - cbn [unary_chunks] in *.
    pose proof (Hk ctx chunk) as Harr.
    destruct (kernel ctx (DatumArray chunk)) as [ctx1 [st out]].
    cbn [fst snd] in Harr.
    destruct (ok st) eqn:Hst.
    + destruct (Harr eq_refl) as (a & ->).
      destruct (IH ctx1 (outputs ++ [DatumArray a]) Hok) as (arrays & Hout & Hlen).
      exists (a :: arrays). rewrite Hout, <- app_assoc.
      split; [reflexivity | cbn [List.length]; lia].
    + cbn [r_status] in Hok. congruence.
Qed.

End Unary.



(** Two laws of [InvokeUnaryArrayKernel]: a single array is processed as a
    chunked array with that one chunk, and a chunked array as its first
    chunks followed, if these went through, by the remaining chunks on the
    context and outputs reached. *)
Theorem InvokeUnaryArrayKernel_chunk_laws :
  forall (Ctx : Type) (kernel : UnaryKernel Ctx) (ctx : Ctx)
         (outputs : list Datum),
    (forall a n,
        InvokeUnaryArrayKernel kernel ctx (DatumArray a) outputs
        = InvokeUnaryArrayKernel kernel ctx
            (DatumChunkedArray (mkChunkedArray [a] n)) outputs)
    /\ (forall xs ys n n1 n2,
          InvokeUnaryArrayKernel kernel ctx
            (DatumChunkedArray (mkChunkedArray (xs ++ ys) n)) outputs
          = (let r := InvokeUnaryArrayKernel kernel ctx
                        (DatumChunkedArray (mkChunkedArray xs n1)) outputs in
             if ok (r_status r)
             then InvokeUnaryArrayKernel kernel (r_ctx r)
                    (DatumChunkedArray (mkChunkedArray ys n2)) (r_outputs r)
             else r)).
Proof.
  intros Ctx kernel ctx outputs. split.
  - intros a n. cbn [InvokeUnaryArrayKernel chunks unary_chunks].
    destruct (kernel ctx (DatumArray a)) as [ctx1 [st out]].
    destruct (ok st); reflexivity.
  - intros xs ys n n1 n2. cbn [InvokeUnaryArrayKernel chunks].
    apply unary_chunks_app.
Qed.

(** The unary dispatcher and [WrapDatumsLike] fit together: after an [OK]
    run of a kernel whose outputs are arrays on a single array or on a
    chunked array of at least one chunk, wrapping the outputs like the input
    succeeds in debug and release builds, gives a datum of the input's kind,
    and for a chunked input one chunk per input chunk. *)
Theorem InvokeUnaryArrayKernel_then_WrapDatumsLike :
  forall (Ctx : Type) (kernel : UnaryKernel Ctx) (debug : bool) (ctx : Ctx)
         (value : Datum),
    unary_array_kernel kernel ->
    array_like value = true ->
    (0 < unary_calls value)%nat ->
    ok (r_status (InvokeUnaryArrayKernel kernel ctx value [])) = true ->
    exists d,
      WrapDatumsLike debug value
        (r_outputs (InvokeUnaryArrayKernel kernel ctx value []))
      = Done d
      /\ kind d = kind value
      /\ (forall c, value = DatumChunkedArray c ->
            exists arrays,
              d = DatumChunkedArray (mkChunkedArray arrays (sum_lengths arrays))
              /\ List.length arrays = List.length (chunks c)).
Proof.
  intros Ctx kernel debug ctx value Hk Hv Hcalls Hok.
  destruct value as [| | a | c | | |]; try discriminate.
  - cbn [InvokeUnaryArrayKernel] in *.
    pose proof (Hk ctx a) as Harr.
    destruct (kernel ctx (DatumArray a)) as [ctx1 [st out]].
    cbn [fst snd] in Harr.
    destruct (ok st) eqn:Hst; [| cbn [r_status] in Hok; congruence].
    destruct (Harr eq_refl) as (x & ->).
    exists (DatumArray x). cbn [r_outputs app WrapDatumsLike List.length nth_error
                                 Datum_array].
    unfold DCHECK_fails. cbn [Nat.eqb negb]. rewrite andb_false_r.
    repeat split. intros c H. discriminate H.
  - cbn [InvokeUnaryArrayKernel] in *.
    destruct (unary_chunks_arrays kernel (chunks c) Hk ctx [] Hok)
      as (arrays & Hout & Hlen).
    cbn [app] in Hout. cbn [unary_calls] in Hcalls.
    assert (Hne : arrays <> []).
    { intros ->. cbn [List.length] in Hlen. lia. }
    exists (DatumChunkedArray (mkChunkedArray arrays (sum_lengths arrays))).
    cbn [WrapDatumsLike]. rewrite Hout, wrap_each_arrays. cbn [app].
    rewrite (make_ChunkedArray_nonempty arrays Hne).
    repeat split. intros c' H. injection H as <-.
    exists arrays. auto.
Qed.

Lemma InvokeUnaryArrayKernel_then_WrapDatumsLike_witness :
  exists d,
    WrapDatumsLike true (DatumChunkedArray (chunked_of [[1]; [2; 3]]))
      (r_outputs (InvokeUnaryArrayKernel (fun ctx d => (S ctx, (Status_OK, d))) O
                    (DatumChunkedArray (chunked_of [[1]; [2; 3]])) []))
    = Done d
    /\ kind d = CHUNKED_ARRAY.
Proof.
  destruct (InvokeUnaryArrayKernel_then_WrapDatumsLike nat
              (fun ctx d => (S ctx, (Status_OK, d))) true O
              (DatumChunkedArray (chunked_of [[1]; [2; 3]])))
    as (d & Hd & Hk & _).
  - intros ctx a _. exists a. reflexivity.
  - reflexivity.
  - cbn. lia.
  - reflexivity.
  - exists d. split; [exact Hd | exact Hk].
Defined.

Section WrapChunked.

Lemma wrap_each_Done_arrays debug (datums : list Datum) :
  forall acc arrays,
    wrap_each debug datums acc = Done arrays ->
    exists added, datums = map DatumArray added /\ arrays = acc ++ added.
Proof.
  induction datums as [|d datums IH]; intros acc arrays H.
  - injection H as <-. exists []. rewrite app_nil_r. auto.
  - cbn [wrap_each] in H.
    destruct (DCHECK_fails debug _); [discriminate |].
    destruct d; cbn [Datum_array] in H; try discriminate.
    destruct (IH _ _ H) as (added & -> & ->).
    exists (a :: added). rewrite <- app_assoc. auto.
Qed.

Lemma wrap_each_not_array debug (datums : list Datum) :
  Exists (fun d => is_array d = false) datums ->
  forall acc,
    wrap_each debug datums acc
    = Crash (if debug then CheckFailed else BadDatumAccess).
Proof.
  induction datums as [|d datums IH]; intros Hex acc.
  - inversion Hex.
  - cbn [wrap_each]. unfold DCHECK_fails.
    destruct (is_array d) eqn:Hd.
    + unfold is_array in Hd. rewrite Hd. cbn [negb]. rewrite andb_false_r.
      destruct d; try discriminate Hd. cbn [Datum_array].
      apply IH. inversion Hex as [? ? H | ? ? H]; subst; [| exact H].
      cbn in H. discriminate.
    + unfold is_array in Hd. rewrite Hd. cbn [negb]. rewrite andb_true_r.
      destruct debug; [reflexivity |].
      destruct d; try reflexivity. discriminate Hd.
Qed.

End WrapChunked.

(** For a chunked [value], [WrapDatumsLike] hands back a datum exactly on
    non-empty lists of array datums: it then returns the chunked array of
    their payloads, in order, as [WrapArraysLike] does on the payloads, and
    nothing of [value] but its kind matters.  A datum of another kind in
    the list stops the call at the kind check when checks are compiled in,
    at the payload access otherwise. *)
Theorem WrapDatumsLike_chunked :
  forall (debug : bool) (value : ChunkedArray) (datums : list Datum),
    (forall arrays,
        arrays <> [] ->
        datums = map DatumArray arrays ->
        WrapDatumsLike debug (DatumChunkedArray value) datums
        = Done (DatumChunkedArray (mkChunkedArray arrays (sum_lengths arrays)))
        /\ WrapArraysLike debug (DatumChunkedArray value) arrays
           = Done (DatumChunkedArray (mkChunkedArray arrays (sum_lengths arrays))))
    /\ (forall d,
          WrapDatumsLike debug (DatumChunkedArray value) datums = Done d ->
          exists arrays,
            arrays <> []
            /\ datums = map DatumArray arrays
            /\ d = DatumChunkedArray (mkChunkedArray arrays (sum_lengths arrays))
            /\ output_length d = sum_output_lengths datums)
    /\ (Exists (fun d => is_array d = false) datums ->
        WrapDatumsLike debug (DatumChunkedArray value) datums
        = Crash (if debug then CheckFailed else BadDatumAccess)).
Proof.
  intros debug value datums. split; [| split].
  - intros arrays Hne ->. cbn [WrapDatumsLike WrapArraysLike].
    rewrite wrap_each_arrays. cbn [app].
    rewrite (make_ChunkedArray_nonempty arrays Hne). split; reflexivity.
  - intros d H. cbn [WrapDatumsLike] in H.
    destruct (wrap_each debug datums []) as [arrays | f] eqn:Hw; [| discriminate].
    destruct (make_ChunkedArray arrays) as [c | f] eqn:Hc; [| discriminate].
    injection H as <-.
    destruct (make_ChunkedArray_Done arrays c Hc) as [Hne ->].
    destruct (wrap_each_Done_arrays debug datums [] arrays Hw) as (added & -> & ->).
    cbn [app] in Hne |- *.
    exists added. split; [exact Hne |]. split; [reflexivity |].
    split; [reflexivity |].
    cbn [output_length chunked_length].
    clear Hw Hc Hne. induction added as [|a added IH]; [reflexivity |].
    cbn [map sum_lengths sum_output_lengths fold_right output_length].
    fold (sum_lengths added). fold (sum_output_lengths (map DatumArray added)).
    rewrite IH. reflexivity.
  - intros Hex. cbn [WrapDatumsLike].
    rewrite (wrap_each_not_array debug datums Hex). reflexivity.
Qed.

Lemma WrapDatumsLike_chunked_witness :
  WrapDatumsLike true (DatumChunkedArray (chunked_of [[9]]))
    [DatumArray (array_of [1; 2]); DatumArray (array_of [3])]
  = Done (DatumChunkedArray (mkChunkedArray [array_of [1; 2]; array_of [3]] 3))
  /\ WrapDatumsLike false (DatumChunkedArray (chunked_of [[9]]))
       [DatumArray (array_of [1; 2]); DatumScalar]
     = Crash BadDatumAccess.
Proof.
  split.
  - destruct (WrapDatumsLike_chunked true (chunked_of [[9]])
                [DatumArray (array_of [1; 2]); DatumArray (array_of [3])])
      as [H _].
    destruct (H [array_of [1; 2]; array_of [3]]) as [H' _].
    + discriminate.
    + reflexivity.
    + exact H'.
  - destruct (WrapDatumsLike_chunked false (chunked_of [[9]])
                [DatumArray (array_of [1; 2]); DatumScalar]) as (_ & _ & H).
    apply H. apply Exists_cons_tl. apply Exists_cons_hd. reflexivity.
Defined.

(** [ZeroLastByte] keeps the size of a non-empty buffer, sets its last byte
    to zero and leaves every other byte as it was (doing it again changes
    nothing); on an empty buffer the byte it writes lies before the start of
    the buffer. *)
Theorem ZeroLastByte_effect :
  forall buffer : list Z,
    (buffer = [] -> ZeroLastByte buffer = Crash OutOfBounds)
    /\ (buffer <> [] ->
        ZeroLastByte buffer = Done (removelast buffer ++ [0])
        /\ List.length (removelast buffer ++ [0]) = List.length buffer
        /\ ZeroLastByte (removelast buffer ++ [0])
           = Done (removelast buffer ++ [0])).
Proof.
  intros buffer. split.
  - intros ->. reflexivity.
  - intros Hne.
    assert (Hz : forall prefix : list Z,
               ZeroLastByte (prefix ++ [0]) = Done (prefix ++ [0])
               /\ forall x, ZeroLastByte (prefix ++ [x]) = Done (prefix ++ [0])).
    { intros prefix.
      assert (H : forall x, ZeroLastByte (prefix ++ [x]) = Done (prefix ++ [0])).
      { intros x. unfold ZeroLastByte. rewrite length_app. cbn [List.length].
        replace (Z.of_nat (List.length prefix + 1) - 1)
          with (Z.of_nat (List.length prefix)) by lia.
        destruct (Z.ltb_spec (Z.of_nat (List.length prefix)) 0) as [Hl | _];
          [lia |].
        rewrite Nat2Z.id.
        rewrite firstn_exact by reflexivity.
        rewrite skipn_all2 by (rewrite length_app; cbn; lia).
        reflexivity. }
      split; [apply H | exact H]. }
    destruct (exists_last Hne) as (prefix & x & ->).
    rewrite removelast_last.
    destruct (Hz prefix) as [H0 Hx].
    split; [apply Hx |]. split; [| exact H0].
    rewrite !length_app. reflexivity.
Qed.

Lemma ZeroLastByte_effect_witness :
  ZeroLastByte [255; 255; 171] = Done [255; 255; 0]
  /\ ZeroLastByte [] = Crash OutOfBounds.
Proof.
  split.
  - destruct (ZeroLastByte_effect [255; 255; 171]) as [_ H].
    destruct H as [H _]; [discriminate |]. exact H.
  - destruct (ZeroLastByte_effect []) as [H _]. apply H. reflexivity.
Defined.

Section Printing.

Lemma NilEmpty_string_of_uint_inj (d1 d2 : Decimal.uint) :
  NilEmpty.string_of_uint d1 = NilEmpty.string_of_uint d2 -> d1 = d2.
Proof.
  intros H.
  pose proof (NilEmpty.usu d1) as H1. pose proof (NilEmpty.usu d2) as H2.
  rewrite H in H1. congruence.
Qed.

Lemma decimal_inj (v1 v2 : Z) :
  0 <= v1 -> 0 <= v2 -> decimal v1 = decimal v2 -> v1 = v2.
Proof.
  intros H1 H2 H. unfold decimal in H.
  assert (Hn : N.of_uint (N.to_uint (Z.to_N v1))
               = N.of_uint (N.to_uint (Z.to_N v2))).
  { unfold NilZero.string_of_uint in H.
    destruct (N.to_uint (Z.to_N v1)) eqn:E1;
      destruct (N.to_uint (Z.to_N v2)) eqn:E2;
      try reflexivity;
      try (apply NilEmpty_string_of_uint_inj in H; rewrite H; reflexivity);
      try (change "0"%string with (NilEmpty.string_of_uint (Decimal.D0 Decimal.Nil)) in H;
           apply NilEmpty_string_of_uint_inj in H;
           first [rewrite H | rewrite <- H]; reflexivity). }
  rewrite !Unsigned.of_to in Hn. lia.
Qed.

Lemma no_space_NilEmpty (d : Decimal.uint) :
  no_space (NilEmpty.string_of_uint d) = true.
Proof. induction d; cbn; auto. Qed.

Lemma no_space_decimal (v : Z) : no_space (decimal v) = true.
Proof.
  unfold decimal, NilZero.string_of_uint.
  destruct (N.to_uint (Z.to_N v)) eqn:E; rewrite <- ?E;
    try apply no_space_NilEmpty.
  reflexivity.
Qed.

(** A field ends at the first delimiter. *)
Lemma append_space_inj (s1 : string) :
  forall s2 r1 r2,
    no_space s1 = true -> no_space s2 = true ->
    String.append s1 (String " "%char r1) = String.append s2 (String " "%char r2) ->
    s1 = s2 /\ r1 = r2.
Proof.
  induction s1 as [|c1 s1 IH]; intros [|c2 s2] r1 r2 H1 H2 H; cbn in *.
  - injection H as ->. auto.
  - injection H as <- _. cbn in H2. discriminate.
  - injection H as -> _. cbn in H1. discriminate.
  - injection H as -> H.
    apply andb_true_iff in H1, H2. destruct H1 as [_ H1]. destruct H2 as [_ H2].
    destruct (IH s2 r1 r2 H1 H2 H) as [-> ->]. auto.
Qed.

Lemma copy_to_stream_inj (xs : list Z) :
  forall ys,
    Forall (fun v => 0 <= v) xs -> Forall (fun v => 0 <= v) ys ->
    copy_to_stream xs = copy_to_stream ys -> xs = ys.
Proof.
  induction xs as [|x xs IH]; intros [|y ys] Hx Hy H.
  - reflexivity.
  - cbn [copy_to_stream] in H. destruct (decimal y); discriminate.
  - cbn [copy_to_stream] in H. destruct (decimal x); discriminate.
  - cbn [copy_to_stream] in H.
    apply append_space_inj in H; try apply no_space_decimal.
    destruct H as [Hd Hr].
    inversion Hx; subst. inversion Hy; subst.
    rewrite (decimal_inj x y); auto. f_equal. apply IH; auto.
Qed.

End Printing.

(** [Int96ToString] loses nothing: it writes the three words in decimal,
    each followed by a space, and two Int96 values with the same string are
    the same value. *)
Theorem Int96ToString_injective :
  forall a b : Int96,
    Int96_wf a -> Int96_wf b ->
    Int96ToString a = Int96ToString b -> a = b.
Proof.
  intros a b (Ha0 & Ha1 & Ha2) (Hb0 & Hb1 & Hb2) H.
  unfold Int96ToString, is_uint32 in *.
  apply copy_to_stream_inj in H.
  - destruct a, b. cbn in *. congruence.
  - repeat constructor; lia.
  - repeat constructor; lia.
Qed.

Lemma Int96ToString_injective_witness :
  Int96ToString (mkInt96 1 20 2440588) = "1 20 2440588 "%string
  /\ Int96SetNanoSeconds (mkInt96 0 0 2440588) 85899345921 = mkInt96 1 20 2440588.
Proof.
  split; [reflexivity |].
  apply Int96ToString_injective.
  - unfold Int96_wf, is_uint32. vm_compute. repeat split; discriminate.
  - unfold Int96_wf, is_uint32. cbn. lia.
  - vm_compute. reflexivity.
Defined.



Section ChunkingInvariance.

Lemma array_elements_valid_length (a : Array) :
  array_valid a = true ->
  List.length (array_elements a) = Z.to_nat (array_length a).
Proof.
  unfold array_valid. intros H.
  apply andb_true_iff in H. destruct H as [H H3].
  apply andb_true_iff in H. destruct H as [H1 H2].
  apply Z.leb_le in H1, H2, H3.
  unfold array_elements. rewrite length_firstn, length_skipn. lia.
Qed.

Lemma Slice_elements_length (a : Array) (start n : Z) :
  array_valid a = true -> 0 <= start -> 0 <= n <= array_length a - start ->
  List.length (array_elements (Slice a start n)) = Z.to_nat n.
Proof.
  intros Hv Hs Hn.
  pose proof (array_elements_valid_length a Hv) as Hl.
  unfold array_valid in Hv.
  apply andb_true_iff in Hv. destruct Hv as [Hv _].
  apply andb_true_iff in Hv. destruct Hv as [H1 _]. apply Z.leb_le in H1.
  rewrite array_elements_Slice by lia.
  rewrite length_firstn, length_skipn. lia.
Qed.

Lemma zip_elements_app (f : Z -> Z -> Z) (xs ys : list Z) :
  forall xs' ys',
    List.length xs = List.length ys ->
    zip_elements f (xs ++ xs') (ys ++ ys')
    = zip_elements f xs ys ++ zip_elements f xs' ys'.
Proof.
  revert ys. induction xs as [|x xs IH]; intros [|y ys] xs' ys' H;
    try discriminate.
  - reflexivity.
  - cbn [app zip_elements]. rewrite IH by (cbn in H; lia). reflexivity.
Qed.

Lemma aligned_calls_elements_lengths (left_arrays right_arrays : list Array)
    (calls : list (Array * Array)) :
  forallb array_valid left_arrays = true ->
  forallb array_valid right_arrays = true ->
  forall pos,
    aligned_calls left_arrays right_arrays pos calls ->
    Forall (fun p => List.length (array_elements (fst p))
                     = List.length (array_elements (snd p))) calls.
Proof.
  intros Hvl Hvr. rewrite forallb_forall in Hvl, Hvr.
  induction calls as [|p calls IH]; intros pos H; constructor.
  - destruct H as [(li & ri & la & ra & ls & rs & Hla & Hra & _ & _ & Hls & Hrs
                    & H) _].
    cbv zeta in H. destruct H as (Hc & -> & ->).
    rewrite !Slice_elements_length; auto; try lia.
    + apply Hvr. eapply nth_error_In; eauto.
    + apply Hvl. eapply nth_error_In; eauto.
  - destruct H as [_ H]. exact (IH _ H).
Qed.

Lemma zip_columns (f : Z -> Z -> Z) (calls : list (Array * Array)) :
  Forall (fun p => List.length (array_elements (fst p))
                   = List.length (array_elements (snd p))) calls ->
  concat (map (fun p => zip_elements f (array_elements (fst p))
                                       (array_elements (snd p))) calls)
  = zip_elements f (column (map fst calls)) (column (map snd calls)).
Proof.
  induction 1 as [|p calls Hp _ IH]; [reflexivity |].
  cbn [map concat]. rewrite !column_cons.
  rewrite zip_elements_app by exact Hp. rewrite IH. reflexivity.
Qed.

Lemma replay_elementwise {Ctx : Type} (f : Z -> Z -> Z)
    (kernel : BinaryKernel Ctx) :
  elementwise f kernel ->
  forall calls ctx outputs,
    exists ctx' arrays,
      replay kernel calls ctx outputs
      = mkResult ctx' Status_OK (outputs ++ map DatumArray arrays)
      /\ List.length arrays = List.length calls
      /\ column arrays
         = concat (map (fun p => zip_elements f (array_elements (fst p))
                                              (array_elements (snd p))) calls).
Proof.
  intros Hk. induction calls as [|[l r] calls IH]; intros ctx outputs.
  - exists ctx, []. cbn. rewrite app_nil_r. auto.
  - cbn [replay].
    destruct (Hk ctx l r) as (ctx1 & st & a & -> & Hok & _ & Hel).
    rewrite Hok.
    destruct (IH ctx1 (outputs ++ [DatumArray a])) as (ctx' & arrays & -> & Hn & Hc).
    exists ctx', (a :: arrays). rewrite <- app_assoc.
    split; [reflexivity |]. split; [cbn [List.length]; lia |].
    rewrite column_cons. cbn [map concat fst snd]. rewrite Hel, Hc. reflexivity.
Qed.

End ChunkingInvariance.

(** Chunking is not observable in the result of a cell-by-cell kernel: for
    well-formed operands of equal total length whose chunks lie inside their
    storage, the call returns [OK] and the new segments, put end to end, are
    [f] applied cell by cell to the two columns, however either side is
    chunked. *)
Theorem InvokeBinaryArrayKernel_chunking_invariant :
  forall (Ctx : Type) (f : Z -> Z -> Z) (kernel : BinaryKernel Ctx) (ctx : Ctx)
         (left right : Datum) (outputs : list Datum),
    well_formed left = true -> well_formed right = true ->
    total_length left = total_length right ->
    forallb array_valid (datum_chunks left) = true ->
    forallb array_valid (datum_chunks right) = true ->
    elementwise f kernel ->
    exists ctx' arrays,
      InvokeBinaryArrayKernel kernel ctx left right outputs
      = Done (mkResult ctx' Status_OK (outputs ++ map DatumArray arrays))
      /\ column arrays
         = zip_elements f (column (datum_chunks left))
                          (column (datum_chunks right)).
Proof.
  intros Ctx f kernel ctx left right outputs Hwl Hwr Heq Hvl Hvr Hk.
  destruct (InvokeBinaryArrayKernel_aligned left right Hwl Hwr Heq)
    as (total & calls & _ & _ & Hnl & Hnr & Hsl & Hsr & Hcalls & Hsum & Hrun).
  destruct (replay_elementwise f kernel Hk calls ctx outputs)
    as (ctx' & arrays & Hrep & _ & Hcol).
  exists ctx', arrays. split; [rewrite Hrun; f_equal; exact Hrep |].
  rewrite Hcol.
  rewrite (zip_columns f calls
             (aligned_calls_elements_lengths _ _ _ Hvl Hvr _ Hcalls)).
  destruct (aligned_calls_sides _ _ _ _ Hcalls) as (Hl & Hr & Hsfl & Hsfr).
  assert (Hol : Forall (fun a => 0 <= array_offset a) (datum_chunks left)).
  { apply Forall_forall. intros a Ha. rewrite forallb_forall in Hvl.
    specialize (Hvl a Ha). unfold array_valid in Hvl.
    apply andb_true_iff in Hvl. destruct Hvl as [Hv _].
    apply andb_true_iff in Hv. destruct Hv as [Hv _]. apply Z.leb_le. exact Hv. }
  assert (Hor : Forall (fun a => 0 <= array_offset a) (datum_chunks right)).
  { apply Forall_forall. intros a Ha. rewrite forallb_forall in Hvr.
    specialize (Hvr a Ha). unfold array_valid in Hvr.
    apply andb_true_iff in Hvr. destruct Hvr as [Hv _].
    apply andb_true_iff in Hv. destruct Hv as [Hv _]. apply Z.leb_le. exact Hv. }
  rewrite (side_calls_cover _ _ Hnl Hol 0 Hl) by lia.
  rewrite (side_calls_cover _ _ Hnr Hor 0 Hr) by lia.
  rewrite !column_suffix_0 by assumption. reflexivity.
Qed.

Lemma add_elements_zip (xs ys : list Z) :
  add_elements xs ys = zip_elements Z.add xs ys.
Proof.
  revert ys. induction xs as [|x xs IH]; intros [|y ys]; try reflexivity.
  cbn. rewrite IH. reflexivity.
Qed.

Lemma add_kernel_elementwise : elementwise Z.add add_kernel.
Proof.
  intros ctx l r. exists ctx, Status_OK. eexists.
  split; [reflexivity |]. split; [reflexivity |]. split; [reflexivity |].
  unfold array_elements at 1. cbn [array_buffer array_offset array_length].
  cbn [Z.to_nat skipn]. rewrite add_elements_zip.
  apply firstn_all2.
  assert (H : forall xs ys,
             (List.length (zip_elements Z.add xs ys) <= List.length xs)%nat).
  { induction xs as [|x xs IH]; intros [|y ys]; cbn; try lia.
    specialize (IH ys). lia. }
  etransitivity; [apply H |]. apply array_elements_length.
Qed.

Lemma InvokeBinaryArrayKernel_chunking_invariant_witness :
  exists ctx' arrays,
    InvokeBinaryArrayKernel add_kernel tt
      (DatumChunkedArray (chunked_of [[1; 2; 3]; [4; 5; 6]]))
      (DatumChunkedArray (chunked_of [[10; 20]; [30; 40; 50; 60]])) []
    = Done (mkResult ctx' Status_OK ([] ++ map DatumArray arrays))
    /\ column arrays = [11; 22; 33; 44; 55; 66].
Proof.
  destruct (InvokeBinaryArrayKernel_chunking_invariant unit Z.add add_kernel tt
              (DatumChunkedArray (chunked_of [[1; 2; 3]; [4; 5; 6]]))
              (DatumChunkedArray (chunked_of [[10; 20]; [30; 40; 50; 60]])) [])
    as (ctx' & arrays & Hrun & Hcol); try reflexivity.
  - exact add_kernel_elementwise.
  - exists ctx', arrays. split; [exact Hrun | exact Hcol].
Defined.
